(** * 3d.convert: task lifecycle and format routing

    A shallow embedding of the coordination core of the repository:

    - [Router]: [ConverterManager] of
      [api/service/converters/converter_manager.py] (registry, format
      graph, [find_conversion_path], [convert_with_path], [convert]);
    - [TaskStore]: the Redis task records of
      [api/service/task_manager.py] and the claim script of
      [service/worker.py];
    - [Worker]: [process_task] and [worker_loop] of [api/worker.py];
    - [Catalogue]: the lookup and listing functions of
      [ConverterManager] and its constructor;
    - [TaskAdmin]: the queue and housekeeping functions of
      [api/service/task_manager.py];
    - [Delivery]: the routes of [router/tasks.py] and
      [api/router/worker.py], [claim_task] of [service/worker.py] and
      the actor of [dr_worker.py].

    The modules after these hold the concrete inputs used in examples,
    the invariants, and the facts proved about the components.

    Python values are modelled as follows.  [str] is [string] (ASCII
    text); a [dict] whose iteration order matters is an insertion-ordered
    association list, a [dict] used only through lookups is a [gmap];
    a call that may raise returns an [outcome].  The clock ticks in
    whole seconds; a [float] is an exact rational number. *)

From stdpp Require Import gmap strings list pretty sorting.
From Stdlib Require Import ZArith Ascii DecimalString DecimalZ DecimalPos
  QArith Qcanon.

Local Open Scope Z_scope.

(** ** Python prelude *)

Module Py.

(** The result of a call: a returned value or a raised exception (the
    text names the exception). *)
Inductive outcome (A : Type) : Type :=
| Return (a : A)
| Raise (exn : string).
Arguments Return {A} a.
Arguments Raise {A} exn.

(** [str.lower()] on ASCII text. *)
Definition lower_char (c : Ascii.ascii) : Ascii.ascii :=
  let n := Ascii.nat_of_ascii c in
  if ((65 <=? n)%nat && (n <=? 90)%nat)%bool then Ascii.ascii_of_nat (n + 32) else c.

Fixpoint lower (s : string) : string :=
  match s with
  | EmptyString => EmptyString
  | String c s' => String (lower_char c) (lower s')
  end.

(** Insertion-ordered [dict]: [d.get(k)], [k in d] and [d[k] = v].
    Assigning to a present key keeps the key's position. *)
Fixpoint dict_get {V : Type} (d : list (string * V)) (k : string) : option V :=
  match d with
  | [] => None
  | (k', v) :: d' => if decide (k' = k) then Some v else dict_get d' k
  end.

Definition dict_mem {V : Type} (d : list (string * V)) (k : string) : bool :=
  match dict_get d k with Some _ => true | None => false end.

Fixpoint dict_set {V : Type} (d : list (string * V)) (k : string) (v : V)
  : list (string * V) :=
  match d with
  | [] => [(k, v)]
  | (k', v') :: d' =>
      if decide (k' = k) then (k, v) :: d' else (k', v') :: dict_set d' k v
  end.

(** [repr] of an optional string inside an f-string: [None] prints as
    the text None. *)
Definition fmt_opt (o : option string) : string :=
  match o with Some s => s | None => "None" end.

(** [str(n)] and [int(s)] for integers in decimal notation.  [int]
    raises [ValueError] (here [None]) on text that is not an optional
    minus sign followed by digits. *)
Definition str_of_int (n : Z) : string :=
  NilZero.string_of_int (Z.to_int n).

Definition int_of_str (s : string) : option Z :=
  Z.of_int <$> NilZero.int_of_string s.

(** [repr(x)] of a float [x] that holds a whole number, the text
    under which redis-py stores a float: the digits of the number
    followed by [.0] (so for every whole number below 10^16 in absolute
    value, which covers every reading of a clock). *)
Definition str_of_float (t : Z) : string := str_of_int t +:+ ".0".

(** The text before the first character that satisfies [p], and the
    text after that character when there is one. *)
Fixpoint break_at (p : Ascii.ascii -> bool) (s : string) : string * option string :=
  match s with
  | EmptyString => (EmptyString, None)
  | String c s' =>
      if p c then (EmptyString, Some s')
      else let '(a, b) := break_at p s' in (String c a, b)
  end.

(** An optional sign in front of a text. *)
Definition signed (s : string) : bool * string :=
  match s with
  | String "-" s' => (true, s')
  | String "+" s' => (false, s')
  | _ => (false, s)
  end.

(** The number written by a text of decimal digits (0 for no digit at
    all). *)
Definition digits_value (s : string) : option Z :=
  Z.of_uint <$> NilEmpty.uint_of_string s.

(** Digits with an optional point among them, at least one digit in
    all: the digits read as a whole number, and how many of them stand
    behind the point. *)
Definition mantissa (s : string) : option (Z * Z) :=
  let '(int_part, rest) := break_at (fun c => bool_decide (c = "."%char)) s in
  let frac_part := default EmptyString rest in
  if bool_decide (int_part = EmptyString) && bool_decide (frac_part = EmptyString)
  then None
  else
    i ← digits_value int_part;
    f ← digits_value frac_part;
    let k := Z.of_nat (String.length frac_part) in
    Some (i * 10 ^ k + f, k).

(** The exponent behind [e]: an optional sign and at least one digit. *)
Definition exponent (s : string) : option Z :=
  let '(neg, ds) := signed s in
  if bool_decide (ds = EmptyString) then None
  else (fun e => if neg then - e else e) <$> digits_value ds.

(** [float(s)] for a text in decimal notation: an optional sign,
    digits with an optional point, and an optional exponent.  This is
    the notation in which [repr] writes every finite float.  The value
    is kept exactly (binary rounding and overflow are not modelled).
    [float] raises [ValueError] (here [None]) on text that is no
    number; the other texts it reads (blanks around the number,
    underscores between digits, [inf] and [nan]) are written by no
    function of the program and count as no number here. *)
Definition float_of_str (s : string) : option Qc :=
  let '(m_text, e_text) :=
    break_at (fun c => bool_decide (c = "e"%char) || bool_decide (c = "E"%char)) s in
  let '(neg, digits) := signed m_text in
  '(m, k) ← mantissa digits;
  e ← match e_text with Some t => exponent t | None => Some 0 end;
  Some (Q2Qc (inject_Z (if neg then - m else m) * Qpower (10 # 1) (e - k))).

End Py.

Import Py.

(** ** Format routing: [ConverterManager] *)

Module Router.

(** Keyword arguments handed through to every converter. *)
Definition kwargs := list (string * string).

(** The file system as converters and the router see it: the set of
    existing paths. *)
Definition fs := gset string.

(** What [convert] of a converter hands back.  By the interface it is
    a pair [(ok, result_or_error)]; on its failure paths a converter
    may also hand back a bare [False] (as [stl_obj.py] does), which the
    caller cannot unpack.  The second component of a failure is [None]
    or a message; the caller drops it. *)
Inductive returned : Type :=
| Pair (ok : bool) (result : string)
| Bare (value : bool).

(** [BaseConverter]: the two format accessors and [convert], which
    returns a value, may raise, and may change files. *)
Record converter : Type := Converter {
  input_format : string;
  output_format : string;
  run : string -> string -> kwargs -> fs -> outcome returned * fs
}.

(** [self.registry]: key -> converter, in registration order. *)
Definition registry := list (string * converter).

(** The key built in [_load_module]. *)
Definition make_key (input_fmt output_fmt : string) : string :=
  input_fmt +:+ "_to_" +:+ output_fmt.

(** [_load_module], registration part: [self.registry[key] = instance]. *)
Definition register (reg : registry) (c : converter) : registry :=
  let input_fmt := lower (input_format c) in
  let output_fmt := lower (output_format c) in
  dict_set reg (make_key input_fmt output_fmt) c.

Definition load_converters (cs : list converter) : registry :=
  fold_left register cs [].

(** *** [_build_format_graph] *)

(** Weights and accumulated costs are counted in halves: Python's [1]
    is [2] here and Python's [0.5] is [1].  Sums of these values are
    exact in binary floating point, so comparisons agree. *)
Definition edge := (string * string * Z)%type.

Definition in_list (x : string) (l : list string) : bool :=
  bool_decide (x ∈ l).

Definition edge_weight (input_fmt output_fmt : string) : Z :=
  if ((in_list input_fmt ["step"; "stp"] && in_list output_fmt ["step"; "stp"])
      || (in_list input_fmt ["iges"; "igs"] && in_list output_fmt ["iges"; "igs"]))%bool
  then 1 else 2.

(** [self.format_graph] is a [defaultdict(list)]: a missing source
    format reads as the empty edge list. *)
Definition graph := gmap string (list edge).

Definition edges_of (g : graph) (fmt : string) : list edge :=
  default [] (g !! fmt).

Definition add_edge (g : graph) (kc : string * converter) : graph :=
  let '(key, c) := kc in
  let input_fmt := lower (input_format c) in
  let output_fmt := lower (output_format c) in
  let weight := edge_weight input_fmt output_fmt in
  <[input_fmt := edges_of g input_fmt ++ [(output_fmt, key, weight)]]> g.

Definition build_format_graph (reg : registry) : graph :=
  fold_left add_edge reg ∅.

(** *** [find_conversion_path] *)

(** A step of a conversion path: (source, destination, converter key). *)
Definition step := (string * string * string)%type.

(** [heapq] on [(cost, format)] tuples.  Only the multiset of entries
    and the tuple order matter for what [heappop] returns, so the heap
    is kept as a plain list. *)
Definition entry := (Z * string)%type.

Definition entry_lt (a b : entry) : bool :=
  ((a.1 <? b.1) || ((a.1 =? b.1) && String.ltb a.2 b.2))%bool.

Fixpoint heap_min (x : entry) (l : list entry) : entry :=
  match l with
  | [] => x
  | y :: l' => heap_min (if entry_lt y x then y else x) l'
  end.

Fixpoint remove_first (x : entry) (l : list entry) : list entry :=
  match l with
  | [] => []
  | y :: l' => if decide (y = x) then l' else y :: remove_first x l'
  end.

Definition heappop (pq : list entry) : option (entry * list entry) :=
  match pq with
  | [] => None
  | x :: l => let m := heap_min x l in Some (m, remove_first m pq)
  end.

Definition heappush (pq : list entry) (e : entry) : list entry := pq ++ [e].

(** The three locals of the search: [dist], [prev] and [pq]. *)
Record search : Type := Search {
  dist : gmap string Z;
  prev : gmap string (string * string);
  pq : list entry
}.

(** Body of the inner [for] loop over the edges of [current]. *)
Definition relax (cost : Z) (current : string) (st : search) (e : edge) : search :=
  let '(next_fmt, converter_key, weight) := e in
  let new_cost := cost + weight in
  if match dist st !! next_fmt with
     | None => true
     | Some d => new_cost <? d
     end
  then {| dist := <[next_fmt := new_cost]> (dist st);
          prev := <[next_fmt := (current, converter_key)]> (prev st);
          pq := heappush (pq st) (new_cost, next_fmt) |}
  else st.

(** The [while pq:] loop.  [None] means the iteration budget ran out;
    [dijkstra_fuel_enough] below shows that [search_fuel] iterations
    always suffice. *)
Fixpoint dijkstra_loop (fuel : nat) (g : graph) (output_fmt : string)
    (max_steps : Z) (st : search) : option search :=
  match fuel with
  | O => None
  | S fuel' =>
      match heappop (pq st) with
      | None => Some st
      | Some ((cost, current), pq') =>
          let st' := {| dist := dist st; prev := prev st; pq := pq' |} in
          if decide (current = output_fmt) then Some st'
          else if 2 * max_steps <=? cost then
            dijkstra_loop fuel' g output_fmt max_steps st'
          else
            dijkstra_loop fuel' g output_fmt max_steps
              (fold_left (relax cost current) (edges_of g current) st')
      end
  end.

(** The path reconstruction loop [while current != input_fmt].  The
    path is appended to and reversed by the caller, as in the source. *)
Inductive rebuilt : Type :=
| Rebuilt (path : list step)
| KeyError (key : string)
| OutOfFuel.

Fixpoint rebuild (fuel : nat) (prev : gmap string (string * string))
    (input_fmt current : string) (path : list step) : rebuilt :=
  if decide (current = input_fmt) then Rebuilt path
  else
    match fuel with
    | O => OutOfFuel
    | S fuel' =>
        match prev !! current with
        | None => KeyError current
        | Some (prev_fmt, converter_key) =>
            rebuild fuel' prev input_fmt prev_fmt
              (path ++ [(prev_fmt, current, converter_key)])
        end
    end.

(** All destination formats of the graph, with repetitions. *)
Definition targets (reg : registry) : list string :=
  map (fun kc => lower (output_format kc.2)) reg.

(** An iteration budget for the search (see [dijkstra_fuel_enough]). *)
Definition search_fuel (reg : registry) (max_steps : Z) : nat :=
  S (S (2 * length reg * Z.to_nat (2 * Z.max max_steps 0 + 2))).

(** An iteration budget for the reconstruction: every step back lowers
    the distance by at least one half (see [rebuild_spec]). *)
Definition rebuild_fuel (st : search) (output_fmt : string) : nat :=
  S (Z.to_nat (default 0 (dist st !! output_fmt))).

Definition find_conversion_path_fuel (fuel : nat) (reg : registry)
    (input_fmt output_fmt : string) (max_steps : Z) : option rebuilt :=
  let input_fmt := lower input_fmt in
  let output_fmt := lower output_fmt in
  if decide (input_fmt = output_fmt) then Some (Rebuilt [])
  else
    let direct_key := make_key input_fmt output_fmt in
    if dict_mem reg direct_key then
      Some (Rebuilt [(input_fmt, output_fmt, direct_key)])
    else
      let st0 := {| dist := {[input_fmt := 0]}; prev := ∅; pq := [(0, input_fmt)] |} in
      match dijkstra_loop fuel (build_format_graph reg) output_fmt max_steps st0 with
      | None => None
      | Some st =>
          match prev st !! output_fmt with
          | None => Some (Rebuilt [])
          | Some _ =>
              Some (match rebuild (rebuild_fuel st output_fmt) (prev st)
                            input_fmt output_fmt [] with
                    | Rebuilt path => Rebuilt (rev path)
                    | r => r
                    end)
          end
      end.

(** [find_conversion_path(input_fmt, output_fmt, max_steps)].  The two
    abnormal results cannot occur ([find_conversion_path_total]); they
    read as the empty path here. *)
Definition find_conversion_path (reg : registry)
    (input_fmt output_fmt : string) (max_steps : Z) : list step :=
  match find_conversion_path_fuel (search_fuel reg max_steps) reg
          input_fmt output_fmt max_steps with
  | Some (Rebuilt path) => path
  | _ => []
  end.

(** *** [convert_with_path] *)

(** A converter call as logged: the key, the two paths, and what the
    converter did (the value it returned, or the exception it
    raised). *)
Record call : Type := Call {
  c_key : string;
  c_input : string;
  c_output : string;
  c_result : outcome returned
}.

(** What a converter reported through the interface: [Some ok] for a
    pair, [None] when it raised or returned no pair. *)
Definition reported (r : outcome returned) : option bool :=
  match r with
  | Return (Pair ok _) => Some ok
  | _ => None
  end.

Definition c_ok (e : call) : option bool := reported (c_result e).

(** What the executor acts on: the existing files, the position in the
    stream of temporary names, and where the file system refuses: the
    paths [os.remove] cannot remove (it raises there: a file held open
    by another process, a directory that may not be changed) and the
    paths [shutil.copy2] cannot write (their directory is missing or
    may not be written).  The two sets stay as they are during a run.
    Two logs, oldest entry first, are kept beside them: the converter
    calls made and the temporary files created.  The logs are not
    program state; they only record what happened. *)
Record world : Type := World {
  files : fs;
  tmp_seq : nat;
  invoked : list call;
  created : list string;
  unremovable : gset string;
  unwritable : gset string
}.

Definition with_files (w : world) (f : fs) : world :=
  {| files := f; tmp_seq := tmp_seq w; invoked := invoked w; created := created w;
     unremovable := unremovable w; unwritable := unwritable w |}.

(** [tempfile.NamedTemporaryFile(suffix=..., delete=False)]: candidate
    names are tried until one does not exist yet, at most [TMP_MAX]
    times; the file is created and left on disk.  The temporary
    directory is taken to be writable. *)
Definition TMP_MAX : nat := 100 * 100.

Definition tmp_candidate (n : nat) (suffix : string) : string :=
  "/tmp/tmp" +:+ pretty n +:+ suffix.

Fixpoint mkstemp_inner (tries n : nat) (suffix : string) (f : fs)
  : option (string * nat) :=
  match tries with
  | O => None
  | S tries' =>
      let name := tmp_candidate n suffix in
      if decide (name ∈ f) then mkstemp_inner tries' (S n) suffix f
      else Some (name, S n)
  end.

Definition NamedTemporaryFile (suffix : string) (w : world)
  : outcome string * world :=
  match mkstemp_inner TMP_MAX (tmp_seq w) suffix (files w) with
  | Some (name, n) =>
      (Return name,
       {| files := {[name]} ∪ files w; tmp_seq := n; invoked := invoked w;
          created := created w ++ [name];
          unremovable := unremovable w; unwritable := unwritable w |})
  | None =>
      (Raise "FileExistsError",
       {| files := files w; tmp_seq := (tmp_seq w + TMP_MAX)%nat;
          invoked := invoked w; created := created w;
          unremovable := unremovable w; unwritable := unwritable w |})
  end.

(** The unpacking [success, result = ...] of what the converter
    returned: a bare [bool] is not iterable, and the assignment raises
    [TypeError]. *)
Definition unpack (r : outcome returned) : outcome (bool * string) :=
  match r with
  | Return (Pair success result) => Return (success, result)
  | Return (Bare _) => Raise "TypeError"
  | Raise e => Raise e
  end.

(** [converter = self.registry[converter_key]] followed by
    [success, result = converter.convert(input, output, **kwargs)]. *)
Definition call_converter (reg : registry) (converter_key input_path output_path : string)
    (kw : kwargs) (w : world) : outcome (bool * string) * world :=
  match dict_get reg converter_key with
  | None => (Raise "KeyError", w)
  | Some c =>
      let '(r, f) := run c input_path output_path kw (files w) in
      (unpack r,
       {| files := f; tmp_seq := tmp_seq w;
          invoked := invoked w ++
            [{| c_key := converter_key; c_input := input_path;
                c_output := output_path; c_result := r |}];
          created := created w;
          unremovable := unremovable w; unwritable := unwritable w |})
  end.

(** The four error messages of [convert_with_path]. *)
Definition no_path_msg (input_fmt output_fmt : option string) : string :=
  "无法找到从 " +:+ fmt_opt input_fmt +:+ " 到 " +:+ fmt_opt output_fmt
    +:+ " 的转换路径".

Definition single_failed_msg (src_fmt dst_fmt : string) : string :=
  "转换失败: " +:+ src_fmt +:+ " -> " +:+ dst_fmt.

Definition step_failed_msg (n : nat) (src_fmt dst_fmt : string) : string :=
  "转换路径中的步骤 " +:+ pretty n +:+ " 失败: " +:+ src_fmt +:+ " -> " +:+ dst_fmt.

Definition last_failed_msg (src_fmt dst_fmt : string) : string :=
  "最后一步转换失败: " +:+ src_fmt +:+ " -> " +:+ dst_fmt.

(** The [for i, (src_fmt, dst_fmt, converter_key) in enumerate(path[:-1])]
    loop.  It leaves either by [return]/[raise] ([inl]) or by running
    out of steps ([inr current_input]); [temp_files] is threaded
    through, since the [finally] clause reads it. *)
Fixpoint intermediate_steps (reg : registry) (kw : kwargs) (i : nat)
    (steps : list step) (current_input : string) (temp_files : list string)
    (w : world) : (outcome (bool * string) + string) * list string * world :=
  match steps with
  | [] => (inr current_input, temp_files, w)
  | (src_fmt, dst_fmt, converter_key) :: rest =>
      match NamedTemporaryFile ("." +:+ dst_fmt) w with
      | (Raise e, w1) => (inl (Raise e), temp_files, w1)
      | (Return temp_path, w1) =>
          let temp_files := temp_files ++ [temp_path] in
          match call_converter reg converter_key current_input temp_path kw w1 with
          | (Raise e, w2) => (inl (Raise e), temp_files, w2)
          | (Return (success, result), w2) =>
              if success then
                intermediate_steps reg kw (S i) rest temp_path temp_files w2
              else
                (inl (Return (false, step_failed_msg (i + 1) src_fmt dst_fmt)),
                 temp_files, w2)
          end
      end
  end.

(** [os.remove]: raises when the file does not exist or cannot be
    removed. *)
Definition os_remove (path : string) (w : world) : outcome unit * world :=
  if decide (path ∈ files w) then
    if decide (path ∈ unremovable w) then (Raise "PermissionError", w)
    else (Return tt, with_files w (files w ∖ {[path]}))
  else (Raise "FileNotFoundError", w).

(** One round of the [finally] clause: a recorded temporary that still
    exists is removed; when [os.remove] raises, the handler logs a
    warning and the loop goes on, the file staying where it is. *)
Definition remove_temp (w : world) (temp_path : string) : world :=
  if decide (temp_path ∈ files w) then
    match os_remove temp_path w with
    | (Return _, w1) => w1
    | (Raise _, w1) => w1
    end
  else w.

Definition cleanup (temp_files : list string) (w : world) : world :=
  fold_left remove_temp temp_files w.

(** The body of the [try] block for a path of two or more steps,
    together with the list [temp_files] as it stands when the block is
    left. *)
Definition multi_step_body (reg : registry) (path : list step)
    (input_path output_path : string) (kw : kwargs) (w : world)
  : outcome (bool * string) * list string * world :=
  match intermediate_steps reg kw 0 (removelast path) input_path [] w with
  | (inl r, temp_files, w1) => (r, temp_files, w1)
  | (inr current_input, temp_files, w1) =>
      match last path with
      | None => (Raise "IndexError", temp_files, w1)
      | Some (src_fmt, dst_fmt, converter_key) =>
          match call_converter reg converter_key current_input output_path kw w1 with
          | (Raise e, w2) => (Raise e, temp_files, w2)
          | (Return (success, result_path), w2) =>
              if success then (Return (true, result_path), temp_files, w2)
              else (Return (false, last_failed_msg src_fmt dst_fmt),
                    temp_files, w2)
          end
      end
  end.

(** Truth value of a string and of an optional argument. *)
Definition truthy (o : option string) : bool :=
  match o with
  | Some s => negb (bool_decide (s = EmptyString))
  | None => false
  end.

Definition MAX_STEPS_DEFAULT : Z := 3.

Definition convert_with_path (reg : registry) (input_path output_path : string)
    (conversion_path : option (list step)) (input_fmt output_fmt : option string)
    (kw : kwargs) (w : world) : outcome (bool * string) * world :=
  let path := default [] conversion_path in
  let path :=
    match path, truthy input_fmt && truthy output_fmt with
    | [], true =>
        find_conversion_path reg (default EmptyString input_fmt)
          (default EmptyString output_fmt) MAX_STEPS_DEFAULT
    | _, _ => path
    end in
  match path with
  | [] =>
      (Return (false, no_path_msg input_fmt output_fmt), w)
  | [(src_fmt, dst_fmt, converter_key)] =>
      match call_converter reg converter_key input_path output_path kw w with
      | (Raise e, w1) => (Raise e, w1)
      | (Return (success, result_path), w1) =>
          if success then (Return (true, result_path), w1)
          else (Return (false, single_failed_msg src_fmt dst_fmt), w1)
      end
  | _ =>
      let '(r, temp_files, w1) :=
        multi_step_body reg path input_path output_path kw w in
      (r, cleanup temp_files w1)
  end.

(** *** [convert] *)

(** [os.path.splitext] on POSIX paths: the extension starts at the
    last dot of the last path component, unless that component has
    only dots before it. *)
Definition dot : Ascii.ascii := "."%char.
Definition slash : Ascii.ascii := "/"%char.

Fixpoint take_until (c : Ascii.ascii) (l : list Ascii.ascii)
  : list Ascii.ascii * option (list Ascii.ascii) :=
  match l with
  | [] => ([], None)
  | x :: l' =>
      if decide (x = c) then ([], Some l')
      else let '(a, b) := take_until c l' in (x :: a, b)
  end.

Definition splitext (p : string) : string * string :=
  let r := rev (String.list_ascii_of_string p) in
  match take_until dot r with
  | (_, None) => (p, EmptyString)
  | (ext_rev, Some head_rev) =>
      let name_rev := (take_until slash head_rev).1 in
      if bool_decide (slash ∈ ext_rev) then (p, EmptyString)
      else if forallb (fun c => bool_decide (c = dot)) name_rev then (p, EmptyString)
      else (String.string_of_list_ascii (rev head_rev),
            String dot (String.string_of_list_ascii (rev ext_rev)))
  end.

(** [s.lstrip('.')]. *)
Fixpoint lstrip_dot (s : string) : string :=
  match s with
  | String c s' => if decide (c = dot) then lstrip_dot s' else s
  | EmptyString => EmptyString
  end.

(** [os.path.splitext(p)[1].lower().lstrip('.')]. *)
Definition extension (p : string) : string :=
  lstrip_dot (lower (splitext p).2).

(** [shutil.copy2]: it raises when the source does not exist, when
    source and destination are the same file ([SameFileError]; two
    paths are the same file here when they are the same text), and
    when the destination cannot be written (the text is that of a
    missing directory).  The text raised is [str(e)]. *)
Definition copy2 (src dst : string) (w : world) : outcome string * world :=
  if decide (src ∈ files w) then
    if decide (src = dst) then
      (Raise ("'" +:+ src +:+ "' and '" +:+ dst +:+ "' are the same file"), w)
    else if decide (dst ∈ unwritable w) then
      (Raise ("[Errno 2] No such file or directory: '" +:+ dst +:+ "'"), w)
    else (Return dst, with_files w ({[dst]} ∪ files w))
  else (Raise ("[Errno 2] No such file or directory: '" +:+ src +:+ "'"), w).

Definition convert (reg : registry) (input_path output_path : string)
    (input_fmt output_fmt : option string) (kw : kwargs) (w : world)
  : outcome (bool * string) * world :=
  let input_fmt :=
    if truthy input_fmt then default EmptyString input_fmt
    else extension input_path in
  let output_fmt :=
    if truthy output_fmt then default EmptyString output_fmt
    else extension output_path in
  let input_fmt := lower input_fmt in
  let output_fmt := lower output_fmt in
  if decide (input_fmt = output_fmt) then
    match copy2 input_path output_path w with
    | (Return _, w1) => (Return (true, output_path), w1)
    | (Raise e, w1) => (Return (false, "复制文件失败: " +:+ e), w1)
    end
  else
    let path := find_conversion_path reg input_fmt output_fmt MAX_STEPS_DEFAULT in
    convert_with_path reg input_path output_path (Some path) None None kw w.

End Router.

(** ** Task records: [task_manager.py] and the claim script *)

Module TaskStore.

(** A Redis hash key: its fields and, when a time-to-live is set, the
    instant at which the key expires. *)
Record hash : Type := Hash {
  fields : gmap string string;
  expire_at : option Z
}.

(** An item of the list [TASK_QUEUE_KEY] (the JSON object pushed by
    [requeue_task]). *)
Record queue_item : Type := QueueItem {
  q_id : string;
  q_input_file : string;
  q_output_format : string;
  q_retry : bool
}.

Record redis : Type := Redis {
  keyspace : gmap string hash;
  task_queue : list queue_item;
  task_counter : Z
}.

Definition TASK_QUEUED : string := "QUEUED".
Definition TASK_PENDING : string := "PENDING".
Definition TASK_PROCESSING : string := "PROCESSING".
Definition TASK_COMPLETED : string := "COMPLETED".
Definition TASK_FAILED : string := "FAILED".
Definition TASK_TIMEOUT : string := "TIMEOUT".

Definition task_key (task_id : string) : string := "task:" +:+ task_id.

(** [MAX_RETRIES] of [config.py] (the default of [WORKER_MAX_RETRIES]);
    no function of the task manager reads it. *)
Definition MAX_RETRIES : Z := 3.

(** Time is a count of seconds on one clock [now], read both by the
    store (expiry) and by [time.time()].  The store keeps a key until
    the clock is past the instant of its expiry. *)
Definition expired (h : hash) (now : Z) : bool :=
  match expire_at h with
  | Some t => t <? now
  | None => false
  end.

(** The key as the server sees it at [now]: an expired key is gone. *)
Definition live (db : redis) (now : Z) (key : string) : option hash :=
  match keyspace db !! key with
  | Some h => if expired h now then None else Some h
  | None => None
  end.

Definition set_key (db : redis) (key : string) (h : hash) : redis :=
  {| keyspace := <[key := h]> (keyspace db);
     task_queue := task_queue db; task_counter := task_counter db |}.

(** [EXISTS], [HGETALL], [HGET], [HSET key mapping], [EXPIRE], [LPUSH]. *)
Definition exists_ (db : redis) (now : Z) (key : string) : bool :=
  match live db now key with Some _ => true | None => false end.

Definition hgetall (db : redis) (now : Z) (key : string) : gmap string string :=
  match live db now key with Some h => fields h | None => ∅ end.

Definition hget (db : redis) (now : Z) (key field : string) : option string :=
  match live db now key with Some h => fields h !! field | None => None end.

Definition hset (db : redis) (now : Z) (key : string)
    (mapping : gmap string string) : redis :=
  match live db now key with
  | Some h =>
      set_key db key {| fields := mapping ∪ fields h; expire_at := expire_at h |}
  | None => set_key db key {| fields := mapping; expire_at := None |}
  end.

Definition expire (db : redis) (now : Z) (key : string) (seconds : Z) : redis :=
  match live db now key with
  | Some h =>
      set_key db key {| fields := fields h; expire_at := Some (now + seconds) |}
  | None => db
  end.

Definition lpush (db : redis) (item : queue_item) : redis :=
  {| keyspace := keyspace db; task_queue := item :: task_queue db;
     task_counter := task_counter db |}.

(** [generate_task_id]; [random_id] stands for [str(uuid.uuid4())[:8]]. *)
Definition generate_task_id (db : redis) (now : Z) (random_id : string)
  : string * redis :=
  let task_number := task_counter db + 1 in
  (str_of_int now +:+ "-" +:+ str_of_int task_number +:+ "-" +:+ random_id,
   {| keyspace := keyspace db; task_queue := task_queue db;
      task_counter := task_number |}).

(** [create_task]: the record is written with [status = QUEUED] and a
    lifetime of 300 seconds.  The two instants are floats, which the
    client stores as their [repr]. *)
Definition TASK_TTL : Z := 300.

Definition new_task_info (task_id input_file_url output_format : string)
    (now : Z) : gmap string string :=
  list_to_map
    [("task_id", task_id); ("status", TASK_QUEUED);
     ("input_file", input_file_url); ("output_format", output_format);
     ("created_at", str_of_float now); ("updated_at", str_of_float now);
     ("result_url", EmptyString); ("error", EmptyString)].

Definition create_task (db : redis) (now : Z) (random_id : string)
    (input_file_url output_format : string)
  : (string * gmap string string) * redis :=
  let '(task_id, db1) := generate_task_id db now random_id in
  let task_info := new_task_info task_id input_file_url output_format now in
  let db2 := hset db1 now (task_key task_id) task_info in
  let db3 := expire db2 now (task_key task_id) TASK_TTL in
  ((task_id, task_info), db3).

(** [get_task_status]: [None] when the record does not exist. *)
Definition get_task_status (db : redis) (now : Z) (task_id : string)
  : option (gmap string string) :=
  if exists_ db now (task_key task_id)
  then Some (hgetall db now (task_key task_id))
  else None.

(** [update_task_status(task_id, status, **additional_info)]. *)
Definition update_task_status (db : redis) (now : Z) (task_id status : string)
    (additional_info : gmap string string) : bool * redis :=
  if negb (exists_ db now (task_key task_id)) then (false, db)
  else
    let update_data : gmap string string :=
      additional_info ∪ {[ "status" := status; "updated_at" := str_of_float now ]} in
    (true, hset db now (task_key task_id) update_data).

(** [requeue_task]. *)
Definition requeue_task (db : redis) (now : Z) (task_id : string)
  : outcome bool * redis :=
  match get_task_status db now task_id with
  | None => (Return false, db)
  | Some task_info =>
      if bool_decide (task_info = ∅) then (Return false, db)
      else
        match task_info !! "input_file", task_info !! "output_format" with
        | None, _ => (Raise "KeyError: 'input_file'", db)
        | _, None => (Raise "KeyError: 'output_format'", db)
        | Some input_file, Some output_format =>
            let task_data :=
              {| q_id := task_id; q_input_file := input_file;
                 q_output_format := output_format; q_retry := true |} in
            match int_of_str (default (str_of_int 0) (task_info !! "retry_count")) with
            | None => (Raise "ValueError", db)
            | Some retry_count =>
                let '(_, db1) :=
                  update_task_status db now task_id TASK_QUEUED
                    {[ "retry_count" := str_of_int (retry_count + 1) ]} in
                (Return true, lpush db1 task_data)
            end
        end
  end.

(** [CLAIM_TASK_SCRIPT], run by [EVAL] as one server-side step. *)
Definition CLAIM_TASK_SCRIPT (db : redis) (now : Z) (task_key : string)
  : Z * redis :=
  let current_status := hget db now task_key "status" in
  if bool_decide (current_status = Some "QUEUED") then
    (1, hset db now task_key {[ "status" := "PROCESSING" ]})
  else (0, db).

Definition claim_task_with_lua (db : redis) (now : Z) (task_id : string)
  : bool * redis :=
  let '(result, db') := CLAIM_TASK_SCRIPT db now (task_key task_id) in
  (bool_decide (result = 1), db').

(** Several claim attempts on the same task, one after the other, each
    at its own instant.  As every attempt is one indivisible step of
    the store, concurrent attempts amount to such a sequence. *)
Fixpoint claim_attempts (db : redis) (times : list Z) (task_id : string)
  : list bool * redis :=
  match times with
  | [] => ([], db)
  | now :: times' =>
      let '(won, db1) := claim_task_with_lua db now task_id in
      let '(rest, db2) := claim_attempts db1 times' task_id in
      (won :: rest, db2)
  end.

End TaskStore.

(** ** The polling worker: [api/worker.py] *)

Module Worker.

Import Router TaskStore.

(** A request [POST /worker/update-task/{task_id}] as sent by the
    worker. *)
Record update_request : Type := UpdateRequest {
  u_task_id : string;
  u_status : string;
  u_result_url : option string;
  u_error : option string
}.

(** What lies outside the worker: which URLs can be fetched and
    written to the scratch directory, the text of the exception for
    one that cannot, the object storage, whether the API server
    answers, the scratch directory, and what the name
    [ConverterManager] is bound to in the module ([None] when it is
    unbound; the module has no import for it). *)
Record env : Type := Env {
  fetchable : string -> bool;
  download_error : string -> string;
  upload_file_to_r2 : string -> fs -> bool * string;
  api_up : bool;
  TMP_DIR : string;
  ConverterManager : option registry
}.

(** The worker's files, the task store behind the API, and the update
    requests that reached the API, oldest first. *)
Record state : Type := State {
  disk : world;
  db : redis;
  requests : list update_request
}.

Definition with_disk (st : state) (w : world) : state :=
  {| disk := w; db := db st; requests := requests st |}.

(** [update_task_api] of [api/router/worker.py]. *)
Definition update_task_api (d : redis) (now : Z) (rq : update_request) : redis :=
  let update_data : gmap string string :=
    (if truthy (u_error rq)
     then {[ "error" := default EmptyString (u_error rq) ]} else ∅)
    ∪ (if truthy (u_result_url rq)
       then {[ "result_url" := default EmptyString (u_result_url rq) ]} else ∅) in
  (TaskStore.update_task_status d now (u_task_id rq) (u_status rq) update_data).2.

(** [update_task_status] of the worker: never raises. *)
Definition update_task_status (e : env) (now : Z) (task_id status : string)
    (result_url error : option string) (st : state) : bool * state :=
  let rq :=
    {| u_task_id := task_id; u_status := status;
       u_result_url := if truthy result_url then result_url else None;
       u_error := if truthy error then error else None |} in
  if api_up e then
    (true, {| disk := disk st; db := update_task_api (db st) now rq;
              requests := requests st ++ [rq] |})
  else (false, st).

(** [download_file]: never raises. *)
Definition download_file (e : env) (file_url target_path : string) (st : state)
  : (bool * string) * state :=
  if fetchable e file_url then
    ((true, target_path),
     with_disk st (with_files (disk st) ({[target_path]} ∪ files (disk st))))
  else ((false, "下载文件失败: " +:+ download_error e file_url), st).

(** [str.split('?')[0]], [os.path.basename], [os.path.join]. *)
Fixpoint before_char (c : Ascii.ascii) (s : string) : string :=
  match s with
  | EmptyString => EmptyString
  | String x s' => if decide (x = c) then EmptyString else String x (before_char c s')
  end.

Definition basename (p : string) : string :=
  String.string_of_list_ascii
    (rev (take_until slash (rev (String.list_ascii_of_string p))).1).

Definition path_join (dir name : string) : string :=
  match name with
  | String c _ => if decide (c = slash) then name else dir +:+ "/" +:+ name
  | EmptyString => dir +:+ "/"
  end.

(** The [try] block of [process_task]. *)
Definition process_task_body (e : env) (now : Z)
    (task_id input_file_url input_file_path output_file_path : string)
    (st : state) : outcome unit * state :=
  let '((download_success, download_result), st1) :=
    download_file e input_file_url input_file_path st in
  if negb download_success then
    (Raise ("下载文件失败: " +:+ download_result), st1)
  else
    match ConverterManager e with
    | None => (Raise "name 'ConverterManager' is not defined", st1)
    | Some reg =>
        match convert reg input_file_path output_file_path None None [] (disk st1) with
        | (Raise ex, w2) => (Raise ex, with_disk st1 w2)
        | (Return (success, result_path), w2) =>
            let st2 := with_disk st1 w2 in
            if negb success then
              (Raise ("文件转换失败: " +:+ result_path), st2)
            else if negb (bool_decide (result_path ∈ files w2)) then
              (Raise ("转换成功但输出文件不存在: " +:+ result_path), st2)
            else
              let '(r2_success, r2_url) := upload_file_to_r2 e result_path (files w2) in
              if negb r2_success then
                (Raise ("R2上传失败: " +:+ r2_url), st2)
              else
                let '(_, st3) :=
                  update_task_status e now task_id "FINISH" (Some r2_url) None st2 in
                (Return tt, st3)
        end
    end.

Definition remove_file (st : state) (file_path : string) : state :=
  with_disk st (remove_temp (disk st) file_path).

(** [process_task(task_id, input_file_url, output_format)];
    [random_prefix] stands for the four random characters. *)
Definition process_task (e : env) (now : Z) (random_prefix : string)
    (task_id input_file_url output_format : string) (st : state) : state :=
  let input_filename := basename (before_char "?"%char input_file_url) in
  let input_file_path := path_join (TMP_DIR e) input_filename in
  let base_name := (splitext input_filename).1 in
  let output_filename :=
    random_prefix +:+ "_" +:+ base_name +:+ "." +:+ output_format in
  let output_file_path := path_join (TMP_DIR e) output_filename in
  let '(r, st1) :=
    process_task_body e now task_id input_file_url input_file_path
      output_file_path st in
  let st2 :=
    match r with
    | Return _ => st1
    | Raise ex =>
        (update_task_status e now task_id "FAILED" None
           (Some ("FAILED: " +:+ ex)) st1).2
    end in
  fold_left remove_file [input_file_path; output_file_path] st2.

(** [get_next_task] of the worker, through [GET /worker/next-task] and
    [get_next_task] of the task manager: the oldest queue item is
    popped and its task marked [PROCESSING]. *)
Definition get_next_task (e : env) (now : Z) (st : state)
  : option queue_item * state :=
  if api_up e then
    match rev (task_queue (db st)) with
    | [] => (None, st)
    | task :: older_rev =>
        let d1 :=
          {| keyspace := keyspace (db st); task_queue := rev older_rev;
             task_counter := task_counter (db st) |} in
        let '(_, d2) :=
          TaskStore.update_task_status d1 now (q_id task) TASK_PROCESSING ∅ in
        (Some task, {| disk := disk st; db := d2; requests := requests st |})
    end
  else (None, st).

(** One round of the [while True] loop of [worker_loop], and a run of
    several rounds; each round has its own instant and random prefix.
    Only [KeyboardInterrupt] leaves the loop, and no round raises it. *)
Definition worker_round (e : env) (st : state) (round : Z * string) : state :=
  let '(now, random_prefix) := round in
  match get_next_task e now st with
  | (Some task, st1) =>
      process_task e now random_prefix (q_id task) (q_input_file task)
        (q_output_format task) st1
  | (None, st1) => st1
  end.

Definition worker_loop (e : env) (rounds : list (Z * string)) (st : state) : state :=
  fold_left (worker_round e) rounds st.

End Worker.

(** ** The catalogue of conversions: the listing functions of
    [ConverterManager] *)

Module Catalogue.

Import Router.

(** [get_converter]: the direct converter of a pair of formats, [None]
    when there is none (the warning it logs is not modelled). *)
Definition get_converter (reg : registry) (input_fmt output_fmt : string)
  : option converter :=
  dict_get reg (make_key (lower input_fmt) (lower output_fmt)).

(** [list_available_conversions]: the keys, in registration order. *)
Definition list_available_conversions (reg : registry) : list string := reg.*1.

(** [str.startswith]. *)
Fixpoint startswith (s pre : string) {struct pre} : bool :=
  match pre, s with
  | EmptyString, _ => true
  | String a pre', String b s' => bool_decide (a = b) && startswith s' pre'
  | String _ _, EmptyString => false
  end.

(** [s.split(sep)] for a separator that is not empty: the text is cut
    at each occurrence of [sep], found from left to right, the
    occurrences not overlapping.  [skip] counts the characters of a
    found separator that are still to be passed over. *)
Fixpoint split_from (sep : string) (skip : nat) (s : string) : list string :=
  match s with
  | EmptyString => [EmptyString]
  | String c s' =>
      match skip with
      | S skip' => split_from sep skip' s'
      | O =>
          if startswith s sep then
            EmptyString :: split_from sep (String.length sep - 1) s'
          else
            match split_from sep 0 s' with
            | part :: parts => String c part :: parts
            | [] => [String c EmptyString]
            end
      end
  end.

Definition split (sep s : string) : list string := split_from sep 0 s.

(** The loop of [list_all_supported_formats]: the unpacking
    [src, dst = key.split('_to_')] raises [ValueError] unless the key
    splits in exactly two parts. *)
Fixpoint collect_formats (keys : list string) (formats : gset string)
  : outcome (gset string) :=
  match keys with
  | [] => Return formats
  | key :: keys' =>
      match split "_to_" key with
      | [src; dst] => collect_formats keys' ({[dst]} ∪ ({[src]} ∪ formats))
      | _ => Raise "ValueError"
      end
  end.

(** [sorted] on strings: ascending in the order of [str], which on
    ASCII text is the lexicographic order of the character codes. *)
Definition str_le (a b : string) : Prop := String.leb a b = true.

#[export] Instance str_le_dec (a b : string) : Decision (str_le a b).
Proof. unfold str_le. apply _. Defined.

Definition sorted (l : list string) : list string := merge_sort str_le l.

Definition list_all_supported_formats (reg : registry) : outcome (list string) :=
  match collect_formats (list_available_conversions reg) ∅ with
  | Return formats => Return (sorted (elements formats))
  | Raise e => Raise e
  end.

(** [__init__]: the registry is loaded from the converters found, the
    graph is built, and [_build_format_graph] ends by listing the
    supported formats for its log, so an exception of
    [list_all_supported_formats] leaves the constructor. *)
Definition init (found : list converter) : outcome (registry * graph) :=
  let reg := load_converters found in
  let format_graph := build_format_graph reg in
  match list_all_supported_formats reg with
  | Return _ => Return (reg, format_graph)
  | Raise e => Raise e
  end.

(** [" -> ".join([f"{s}->{d}" for s, d, _ in path])]. *)
Fixpoint join (sep : string) (l : list string) : string :=
  match l with
  | [] => EmptyString
  | [x] => x
  | x :: l' => x +:+ sep +:+ join sep l'
  end.

Definition path_str (path : list step) : string :=
  join " -> " (map (fun s : step => s.1.1 +:+ "->" +:+ s.1.2) path).

(** [list_possible_conversions]: one entry (source, destination,
    number of steps, printed path) for every ordered pair of different
    supported formats between which a path is found. *)
Definition conversion := (string * string * nat * string)%type.

Definition conversions_from (reg : registry) (max_steps : Z)
    (formats : list string) (src_fmt : string) : list conversion :=
  flat_map
    (fun dst_fmt =>
       if decide (src_fmt = dst_fmt) then []
       else
         let path := find_conversion_path reg src_fmt dst_fmt max_steps in
         match path with
         | [] => []
         | _ :: _ => [(src_fmt, dst_fmt, length path, path_str path)]
         end)
    formats.

Definition list_possible_conversions (reg : registry) (max_steps : Z)
  : outcome (list conversion) :=
  match list_all_supported_formats reg with
  | Return formats =>
      Return (flat_map (conversions_from reg max_steps formats) formats)
  | Raise e => Raise e
  end.

End Catalogue.

(** ** Queue and housekeeping functions of [task_manager.py] *)

Module TaskAdmin.

Import Router TaskStore Catalogue.

(** [RPOP]: the item at the tail of the list, the oldest one pushed. *)
Definition rpop (db : redis) : option queue_item * redis :=
  match rev (task_queue db) with
  | [] => (None, db)
  | item :: older_rev =>
      (Some item,
       {| keyspace := keyspace db; task_queue := rev older_rev;
          task_counter := task_counter db |})
  end.

(** [get_next_task].  The items of the queue are the objects
    [requeue_task] has pushed, so [json.loads] and the lookup of the id
    succeed. *)
Definition get_next_task (db : redis) (now : Z) : option queue_item * redis :=
  match rpop db with
  | (None, db1) => (None, db1)
  | (Some task_data, db1) =>
      let '(_, db2) :=
        update_task_status db1 now (q_id task_data) TASK_PROCESSING ∅ in
      (Some task_data, db2)
  end.

(** [KEYS prefix*]: the live keys that start with [prefix].  The server
    promises no order; the order of the map's enumeration stands for
    it, and nothing proved below depends on it. *)
Definition keys (db : redis) (now : Z) (pre : string) : list string :=
  filter (fun key => startswith key pre = true /\ exists_ db now key = true)
    (map fst (map_to_list (keyspace db))).

(** [DEL]. *)
Definition delete (db : redis) (key : string) : redis :=
  {| keyspace := base.delete key (keyspace db); task_queue := task_queue db;
     task_counter := task_counter db |}.

(** [float(redis_client.hget(key, field) or 0)]. *)
Definition float_or_zero (v : option string) : option Qc :=
  if truthy v then float_of_str (default EmptyString v) else Some (Qc_of_Z 0).

(** The loop of [cleanup_old_tasks] over the keys found. *)
Fixpoint cleanup_loop (task_keys : list string) (cutoff_time : Qc) (db : redis)
    (now : Z) : outcome unit * redis :=
  match task_keys with
  | [] => (Return tt, db)
  | key :: task_keys' =>
      match float_or_zero (hget db now key "created_at") with
      | None => (Raise "ValueError", db)
      | Some created_at =>
          if bool_decide (created_at < cutoff_time)%Qc
          then cleanup_loop task_keys' cutoff_time (delete db key) now
          else cleanup_loop task_keys' cutoff_time db now
      end
  end.

Definition cleanup_old_tasks (db : redis) (now : Z) (days : Z)
  : outcome unit * redis :=
  let cutoff_time := Qc_of_Z (now - days * 24 * 60 * 60) in
  cleanup_loop (keys db now "task:") cutoff_time db now.

(** An element of the list [get_queued_tasks] returns. *)
Record task_view : Type := TaskView {
  v_task_id : string;
  v_status : string;
  v_input_file : string;
  v_output_format : string;
  v_created_at : Qc;
  v_updated_at : Qc;
  v_result_url : string;
  v_error : string
}.

(** [key.split(":")[-1]]. *)
Definition last_segment (key : string) : string :=
  String.string_of_list_ascii
    (rev (take_until ":"%char (rev (String.list_ascii_of_string key))).1).

(** [float(task_data.get(field, 0))]. *)
Definition float_field (task_data : gmap string string) (field : string)
  : option Qc :=
  match task_data !! field with
  | Some s => float_of_str s
  | None => Some (Qc_of_Z 0)
  end.

(** The loop of [get_queued_tasks].  The bound is tested after a task
    has been appended. *)
Fixpoint queued_loop (all_task_keys : list string) (db : redis) (now : Z)
    (max_count : Z) (queued_tasks : list task_view) : outcome (list task_view) :=
  match all_task_keys with
  | [] => Return queued_tasks
  | task_key :: rest =>
      let task_data := hgetall db now task_key in
      if negb (bool_decide (task_data = ∅))
         && bool_decide (task_data !! "status" = Some TASK_QUEUED)
      then
        let task_id := last_segment task_key in
        match float_field task_data "created_at",
              float_field task_data "updated_at" with
        | Some created_at, Some updated_at =>
            let task_info :=
              {| v_task_id := task_id;
                 v_status := default "unknown" (task_data !! "status");
                 v_input_file := default EmptyString (task_data !! "input_file");
                 v_output_format :=
                   default EmptyString (task_data !! "output_format");
                 v_created_at := created_at;
                 v_updated_at := updated_at;
                 v_result_url := default EmptyString (task_data !! "result_url");
                 v_error := default EmptyString (task_data !! "error") |} in
            let queued_tasks := queued_tasks ++ [task_info] in
            if max_count <=? Z.of_nat (length queued_tasks)
            then Return queued_tasks
            else queued_loop rest db now max_count queued_tasks
        | _, _ => Raise "ValueError"
        end
      else queued_loop rest db now max_count queued_tasks
  end.

Definition get_queued_tasks (db : redis) (now : Z) (max_count : Z)
  : outcome (list task_view) :=
  queued_loop (keys db now "task:") db now max_count [].

End TaskAdmin.

(** ** The HTTP face of the store and the queue consumer:
    [router/tasks.py], [api/router/worker.py], [service/worker.py] and
    [dr_worker.py] *)

Module Delivery.

Import Router TaskStore Worker TaskAdmin.

(** What a route answers: a redirect, or an error status with its
    detail. *)
Inductive response : Type :=
| Redirect (url : string)
| HttpError (status_code : Z) (detail : string).

(** [download_result] of [router/tasks.py]. *)
Definition download_result (d : redis) (now : Z) (task_id : string) : response :=
  match get_task_status d now task_id with
  | None => HttpError 404 ("任务 " +:+ task_id +:+ " 不存在")
  | Some task_info =>
      if bool_decide (task_info = ∅) then
        HttpError 404 ("任务 " +:+ task_id +:+ " 不存在")
      else if negb (bool_decide (task_info !! "status" = Some TASK_COMPLETED)) then
        HttpError 400
          ("任务尚未完成，当前状态: " +:+ fmt_opt (task_info !! "status"))
      else
        match task_info !! "result_url" with
        | Some url => Redirect url
        | None => HttpError 404 "任务结果文件不存在"
        end
  end.

(** [get_queued_tasks] of [router/tasks.py]: the count asked for is
    capped at 100. *)
Definition get_queued_tasks_api (d : redis) (now : Z) (max_count : Z)
  : outcome (list task_view) :=
  let max_count := if 100 <? max_count then 100 else max_count in
  TaskAdmin.get_queued_tasks d now max_count.

(** [get_task_api] of [api/router/worker.py]: the claim over HTTP,
    answered with status 200 or 400. *)
Definition get_task_api (d : redis) (now : Z) (task_id : string) : Z * redis :=
  let '(won, d') := claim_task_with_lua d now task_id in
  (if won then 200 else 400, d').

(** [claim_task] of [service/worker.py].  [cloud] says whether
    [DEPLOYMENT] is [CLOUD]; otherwise the claim goes through the API,
    and the request raises when the server does not answer. *)
Definition claim_task (cloud api_up : bool) (d : redis) (now : Z)
    (task_id : string) : outcome bool * redis :=
  if cloud then
    let '(won, d') := claim_task_with_lua d now task_id in (Return won, d')
  else if api_up then
    let '(status_code, d') := get_task_api d now task_id in
    (Return (bool_decide (status_code = 200)), d')
  else (Raise "ConnectionError", d).

Definition with_db (st : state) (d : redis) : state :=
  {| disk := disk st; db := d; requests := requests st |}.

(** [dramatiq_send_convert] of [dr_worker.py], for a delivery that runs
    to its end within the time limit of the actor. *)
Definition dramatiq_send_convert (e : env) (cloud : bool) (now : Z)
    (random_prefix task_id : string) (task_info : gmap string string)
    (st : state) : outcome unit * state :=
  match claim_task cloud (api_up e) (db st) now task_id with
  | (Raise ex, d) => (Raise ex, with_db st d)
  | (Return false, d) => (Return tt, with_db st d)
  | (Return true, d) =>
      let st1 := with_db st d in
      let failed (key : string) :=
        let ex := "KeyError: '" +:+ key +:+ "'" in
        (Raise ex,
         (Worker.update_task_status e now task_id "FAILED" None (Some ex) st1).2) in
      match task_info !! "input_file" with
      | None => failed "input_file"
      | Some input_file_url =>
          match task_info !! "output_format" with
          | None => failed "output_format"
          | Some output_format =>
              (Return tt,
               process_task e now random_prefix task_id input_file_url
                 output_format st1)
          end
      end
  end.

End Delivery.

(** ** Concrete registries, stores and workers used below *)

Module Examples.

Import Router TaskStore Worker.

(** A converter that succeeds and writes its output file, and one that
    reports failure and writes nothing. *)
Definition good (i o : string) : converter :=
  Converter i o (fun _ out _ f => (Return (Pair true out), {[out]} ∪ f)).

Definition bad (i o : string) : converter :=
  Converter i o (fun _ _ _ f => (Return (Pair false "failed"), f)).

(** stl -> step -> stp -> brep -> obj, the second edge being an alias
    edge. *)
Definition alias_chain : registry :=
  load_converters
    [good "stl" "step"; good "step" "stp"; good "stp" "brep"; good "brep" "obj"].

(** The end-to-end scenario: step -> brep -> stl, and the same with a
    failing second converter. *)
Definition step_brep_stl : registry :=
  load_converters [good "step" "brep"; good "brep" "stl"].

Definition step_brep_stl_failing : registry :=
  load_converters [good "step" "brep"; bad "brep" "stl"].

(** A three-step chain whose last converter fails. *)
Definition three_step_failing : registry :=
  load_converters [good "obj" "step"; good "step" "brep"; bad "brep" "stl"].

(** A direct converter from step to stl beside the detour over brep. *)
Definition direct_and_detour : registry :=
  load_converters [good "step" "brep"; good "brep" "stl"; good "step" "stl"].

(** A registry that holds a converter from a format to itself. *)
Definition self_loop : registry := load_converters [good "stl" "stl"].

(** The paths through [step_brep_stl] and [three_step_failing]. *)
Definition two_steps : list step :=
  [("step", "brep", "step_to_brep"); ("brep", "stl", "brep_to_stl")].

Definition three_steps : list step :=
  [("obj", "step", "obj_to_step"); ("step", "brep", "step_to_brep");
   ("brep", "stl", "brep_to_stl")].

Definition disk0 : world :=
  {| files := {["/in/model.step"]}; tmp_seq := 0; invoked := []; created := [];
     unremovable := ∅; unwritable := ∅ |}.

Definition disk1 : world :=
  {| files := {["/in/model.obj"]}; tmp_seq := 0; invoked := []; created := [];
     unremovable := ∅; unwritable := ∅ |}.

(** As [disk0], but the first temporary file of a run from step over
    brep cannot be removed once it is there. *)
Definition disk_held : world :=
  {| files := {["/in/model.step"]}; tmp_seq := 0; invoked := []; created := [];
     unremovable := {["/tmp/tmp0.brep"]}; unwritable := ∅ |}.

(** A store holding one task created at instant 1000. *)
Definition empty_db : redis :=
  {| keyspace := ∅; task_queue := []; task_counter := 0 |}.

Definition created_task : (string * gmap string string) * redis :=
  create_task empty_db 1000 "b5e4830d" "https://files/model.step" "stl".

Definition task1 : string := created_task.1.1.
Definition db1 : redis := created_task.2.

(** The same task after it completed, and after it failed with seven
    retries behind it. *)
Definition db_completed : redis :=
  (TaskStore.update_task_status db1 1010 task1 TASK_COMPLETED
     {[ "result_url" := "https://r2/out.stl" ]}).2.

Definition db_failed7 : redis :=
  (TaskStore.update_task_status db1 1010 task1 TASK_FAILED
     {[ "error" := "FAILED: x"; "retry_count" := "7" ]}).2.

(** The worker as the module stands, with collaborators that all
    succeed: every URL can be fetched, every upload succeeds, the API
    answers; the name [ConverterManager] is unbound. *)
Definition happy_env : env :=
  {| fetchable := fun _ => true;
     download_error := fun url => "404 Client Error: Not Found for url: " +:+ url;
     upload_file_to_r2 := fun p _ => (true, "https://r2/" +:+ p);
     api_up := true;
     TMP_DIR := "/app/tmp";
     ConverterManager := None |}.

Definition worker0 : state :=
  {| disk := {| files := ∅; tmp_seq := 0; invoked := []; created := [];
                unremovable := ∅; unwritable := ∅ |};
     db := db1; requests := [] |}.

End Examples.

(** ** Invariants, measures and predicates used in the proofs *)

Module Invariants.

Import Router TaskStore.

(** *** Graphs and paths *)

(** Every edge of the graph is the edge of a registered converter: its
    key is a key of the registry, its destination is that converter's
    output format, and its weight is the weight of the pair of formats,
    one half or one. *)
Definition edge_ok (reg : registry) (u : string) (e : edge) : Prop :=
  is_Some (dict_get reg e.1.2) /\ e.1.1 ∈ targets reg
  /\ e.2 = edge_weight u e.1.1 /\ 1 <= e.2 <= 2.

(** [links src path dst]: the steps of [path] lead from [src] to [dst],
    each step starting where the one before it ended. *)
Fixpoint links (src : string) (path : list step) (dst : string) : Prop :=
  match path with
  | [] => src = dst
  | (s, d, _) :: rest => s = src /\ links d rest dst
  end.

(** The accumulated weight of a path, in halves. *)
Fixpoint path_weight (path : list step) : Z :=
  match path with
  | [] => 0
  | s :: rest => edge_weight s.1.1 s.1.2 + path_weight rest
  end.

(** A path is well formed when it is a chain whose converter keys are
    all keys of the registry. *)
Definition well_formed (reg : registry) (src dst : string) (path : list step) : Prop :=
  links src path dst /\ forall s : step, s ∈ path -> is_Some (dict_get reg s.2).

Section Search.

Variable reg : registry.
Variables input_fmt output_fmt : string.
Variable max_steps : Z.

(** *** The search loop *)

(** Every known format but the source has a predecessor; a predecessor
    entry stands for an edge of the graph, and the predecessor is
    strictly nearer to the source than the format itself; every heap
    entry is at least the recorded distance of its format. *)
Record search_inv (st : search) : Prop := SearchInv {
  inv_source : dist st !! input_fmt = Some 0;
  inv_source_prev : prev st !! input_fmt = None;
  inv_prev : forall v p k, prev st !! v = Some (p, k) ->
    exists dp dv w,
      dist st !! p = Some dp /\ dist st !! v = Some dv /\ dp + w <= dv
      /\ (v, k, w) ∈ edges_of (build_format_graph reg) p;
  inv_dist : forall v d, dist st !! v = Some d ->
    0 <= d /\ (v = input_fmt \/ is_Some (prev st !! v));
  inv_pq : forall c u, (c, u) ∈ pq st ->
    exists d, dist st !! u = Some d /\ d <= c;
  inv_bound : forall v p k d, prev st !! v = Some (p, k) ->
    dist st !! v = Some d -> d <= 2 * max_steps + 1
}.

Definition initial : search :=
  {| dist := {[input_fmt := 0]}; prev := ∅; pq := [(0, input_fmt)] |}.

(** The potential of a format is its recorded distance, or
    [cost_bound] while it has none; every update of [dist] lowers the potential
    of a destination format by at least one (a half step), and every
    iteration takes one entry off the heap. *)
Definition cost_bound : Z := 2 * Z.max max_steps 0 + 2.

Definition pot (d : gmap string Z) (v : string) : Z := default cost_bound (d !! v).

Fixpoint total_pot (d : gmap string Z) (T : list string) : Z :=
  match T with
  | [] => 0
  | v :: T' => pot d v + total_pot d T'
  end.

Definition measure (st : search) : Z :=
  Z.of_nat (length (pq st)) + 2 * total_pot (dist st) (targets reg).

(** A format is done at distance [d] when every edge out of it has been
    relaxed from [d] (unless it is the target or lies at or beyond the
    bound, where the loop relaxes nothing). *)
Definition done_at (st : search) (v : string) (d : Z) : Prop :=
  v <> output_fmt -> d < 2 * max_steps ->
  forall x k w, (x, k, w) ∈ edges_of (build_format_graph reg) v ->
    exists dx, dist st !! x = Some dx /\ dx <= d + w.

(** Every known format is still queued at its distance, or done, or is
    the entry [skip] being worked on. *)
Definition queued_or_done (st : search) (skip : option entry) : Prop :=
  forall v d, dist st !! v = Some d ->
    (d, v) ∈ pq st \/ done_at st v d \/ skip = Some (d, v).

(** When the loop is over, every format nearer than the limit is done.
    The limit is the cost at which the target was taken off the heap,
    if it was. *)
Definition closed_below (st : search) (lim : option Z) : Prop :=
  forall v d, dist st !! v = Some d ->
    match lim with Some c => d < c | None => True end ->
    done_at st v d.

(** A path of the graph: every step is an edge. *)
Fixpoint graph_path (src : string) (P : list step) (dst : string) : Prop :=
  match P with
  | [] => src = dst
  | (s, d, k) :: rest =>
      s = src
      /\ (exists w, (d, k, w) ∈ edges_of (build_format_graph reg) s)
      /\ graph_path d rest dst
  end.

End Search.

(** *** The call log of a run *)

(** What a stretch of the call log says about the steps it ran.  Entry
    [k] is a call of the converter of step [k]; an entry that did not
    report success is the last one, and then the loop was left with
    the matching result.  [i0] is the index of the first step. *)
Definition log_follows (steps : list step) (i0 : nat) (log : list call)
    (res : outcome (bool * string) + string) : Prop :=
  (length log <= length steps)%nat
  /\ (forall k e, log !! k = Some e ->
        exists src dst key,
          steps !! k = Some (src, dst, key) /\ c_key e = key
          /\ (c_ok e = Some true
               \/ (length log = S k
                    /\ ((c_ok e = Some false
                          /\ res = inl (Return (false,
                                  step_failed_msg (i0 + k + 1) src dst)))
                         \/ (c_ok e = None /\ exists ex, res = inl (Raise ex))))))
  /\ (forall cur, res = inr cur ->
        length log = length steps /\ Forall (fun e => c_ok e = Some true) log)
  /\ (forall p, res <> inl (Return (true, p))).

(** The failure message for step [n] (counted from 1) of a path of
    [len] steps. *)
Definition failure_msg (len n : nat) (src_fmt dst_fmt : string) : string :=
  if decide (n = len) then last_failed_msg src_fmt dst_fmt
  else step_failed_msg n src_fmt dst_fmt.

Definition run_follows (path : list step) (log : list call)
    (res : outcome (bool * string)) : Prop :=
  (length log <= length path)%nat
  /\ (forall k e, log !! k = Some e ->
        exists src dst key,
          path !! k = Some (src, dst, key) /\ c_key e = key
          /\ (c_ok e = Some false ->
               length log = S k
               /\ res = Return (false, failure_msg (length path) (S k) src dst)))
  /\ (forall p, res = Return (true, p) ->
        length log = length path /\ Forall (fun e => c_ok e = Some true) log).

(** *** The task store *)

(** The status stored under a key, expired or not. *)
Definition stored_status (d : redis) (key : string) : option string :=
  h ← keyspace d !! key; fields h !! "status".

End Invariants.

(** ** Notions used in the facts about the catalogue, the pipeline, the
    queue and the deliveries *)

Module Notions.

Import Router TaskStore Worker Catalogue TaskAdmin Delivery.

(** *** Registry and formats *)

(** The key under which [_load_module] registers a converter. *)
Definition key_of (c : converter) : string :=
  make_key (lower (input_format c)) (lower (output_format c)).

(** Text without an underscore. *)
Fixpoint plain (s : string) : bool :=
  match s with
  | EmptyString => true
  | String c s' => negb (bool_decide (c = "_"%char)) && plain s'
  end.

(** Converters whose two formats, lowercased, hold no underscore. *)
Definition plain_formats (found : list converter) : Prop :=
  forall c, c ∈ found ->
    plain (lower (input_format c)) = true /\ plain (lower (output_format c)) = true.

(** Text that holds the separator of the registry keys. *)
Definition holds_separator (s : string) : Prop :=
  exists x y, s = x +:+ "_to_" +:+ y.

(** *** The data flow of a run *)

(** The intermediate steps: call [k] reads what call [k - 1] wrote (the
    first one reads [cur]) and writes the [k]-th temporary file. *)
Definition feeds (cur : string) (temps : list string) (log : list call) : Prop :=
  forall k e, log !! k = Some e ->
    match k with
    | O => c_input e = cur
    | S k' => temps !! k' = Some (c_input e)
    end
    /\ temps !! k = Some (c_output e).

(** A run over a path of [n] steps: as [feeds], but the last step
    writes the output path. *)
Definition piped (n : nat) (input_path output_path : string)
    (temps : list string) (log : list call) : Prop :=
  forall k e, log !! k = Some e ->
    match k with
    | O => c_input e = input_path
    | S k' => temps !! k' = Some (c_input e)
    end
    /\ (if decide (S k = n) then c_output e = output_path
        else temps !! k = Some (c_output e)).

(** How a raised exception came about: no temporary name was free, a
    key of the path is not in the registry, the converter called last
    raised it, or the converter called last returned a bare [bool],
    which cannot be unpacked. *)
Definition raised_by (reg : registry) (steps : list step) (log : list call)
    (ex : string) : Prop :=
  ex = "FileExistsError"
  \/ (exists s : step, s ∈ steps /\ dict_get reg s.2 = None)
  \/ (exists e, last log = Some e /\ c_result e = Raise ex)
  \/ (exists e value,
        last log = Some e /\ c_result e = Return (Bare value) /\ ex = "TypeError").

(** *** Task ids and the queue *)

(** Text made of decimal digits only. *)
Fixpoint digits (s : string) : bool :=
  match s with
  | EmptyString => true
  | String c s' =>
      bool_decide (c ∈ ["0"; "1"; "2"; "3"; "4"; "5"; "6"; "7"; "8"; "9"]%char)
      && digits s'
  end.

(** Several calls of [get_next_task], one after the other, each at its
    own instant. *)
Fixpoint next_tasks (db : redis) (times : list Z)
  : list (option queue_item) * redis :=
  match times with
  | [] => ([], db)
  | now :: times' =>
      let '(task, db1) := get_next_task db now in
      let '(tasks, db2) := next_tasks db1 times' in
      (task :: tasks, db2)
  end.

(** *** Housekeeping *)

(** The record under [key] was created before [cutoff_time], as
    [cleanup_old_tasks] reads it. *)
Definition created_before (db : redis) (now : Z) (cutoff_time : Qc) (key : string)
  : bool :=
  match float_or_zero (hget db now key "created_at") with
  | Some created_at => bool_decide (created_at < cutoff_time)%Qc
  | None => false
  end.

(** The two instants of the record under [key] can be read by
    [float], as [cleanup_old_tasks] and as [get_queued_tasks] read
    them (the second reads those of queued tasks only). *)
Definition creation_readable (db : redis) (now : Z) (key : string) : Prop :=
  is_Some (float_or_zero (hget db now key "created_at")).

Definition stamps_readable (db : redis) (now : Z) (key : string) : Prop :=
  hget db now key "status" = Some TASK_QUEUED ->
  is_Some (float_field (hgetall db now key) "created_at")
  /\ is_Some (float_field (hgetall db now key) "updated_at").

#[export] Instance creation_readable_dec (db : redis) (now : Z) (key : string) :
  Decision (creation_readable db now key).
Proof. unfold creation_readable. apply _. Defined.

#[export] Instance stamps_readable_dec (db : redis) (now : Z) (key : string) :
  Decision (stamps_readable db now key).
Proof. unfold stamps_readable. apply _. Defined.

(** A returned task view shows the record stored under [key]. *)
Definition shows (db : redis) (now : Z) (key : string) (v : task_view) : Prop :=
  hget db now key "status" = Some TASK_QUEUED
  /\ v_task_id v = last_segment key
  /\ v_status v = TASK_QUEUED
  /\ v_input_file v = default EmptyString (hget db now key "input_file")
  /\ v_output_format v = default EmptyString (hget db now key "output_format")
  /\ float_field (hgetall db now key) "created_at" = Some (v_created_at v)
  /\ float_field (hgetall db now key) "updated_at" = Some (v_updated_at v)
  /\ v_result_url v = default EmptyString (hget db now key "result_url")
  /\ v_error v = default EmptyString (hget db now key "error").

(** *** Deliveries *)

(** The local paths [process_task] works on. *)
Definition input_file_path (e : env) (input_file_url : string) : string :=
  path_join (TMP_DIR e) (basename (before_char "?"%char input_file_url)).

Definition output_file_path (e : env) (random_prefix input_file_url output_format : string)
  : string :=
  path_join (TMP_DIR e)
    (random_prefix +:+ "_"
     +:+ (splitext (basename (before_char "?"%char input_file_url))).1
     +:+ "." +:+ output_format).



(** The store after an update request has been served, or not. *)
Definition served (api_up : bool) (d : redis) (now : Z) (rq : update_request) : redis :=
  if api_up then update_task_api d now rq else d.

End Notions.

(** ** Further concrete inputs *)

Module Fixtures.

Import Router TaskStore Worker Catalogue TaskAdmin Delivery Examples.

(** A converter that raises. *)
Definition raising (i o : string) : converter :=
  Converter i o (fun _ _ _ f => (Raise "boom", f)).


(** Two converters with plain formats, one declared in upper case, and
    a list in which a format holds the separator of the keys. *)
Definition plain_pair : list converter := [good "step" "stl"; good "STL" "obj"].

Definition separator_pair : list converter :=
  [good "step" "stl"; good "a_TO_b" "stl"].

Definition chain_converters : list converter :=
  [good "stl" "step"; good "step" "stp"; good "stp" "brep"; good "brep" "obj"].

(** The store [db1] with a second task, created at instant 1100, and a
    store with 101 tasks, all created at instant 1000. *)
Definition two_tasks : redis :=
  (create_task db1 1100 "0c3f9a51" "https://files/bracket.stl" "obj").2.

Fixpoint create_tasks (n : nat) (db : redis) (now : Z) : redis :=
  match n with
  | O => db
  | S n' =>
      create_tasks n'
        (create_task db now "b5e4830d" "https://files/model.step" "stl").2 now
  end.

Definition crowded : redis := create_tasks 101 empty_db 1000.

(** Two queue items, and a worker in front of a queue that holds them. *)
Definition item1 : queue_item := QueueItem "t1" "https://files/a.step" "stl" true.
Definition item2 : queue_item := QueueItem "t2" "https://files/b.step" "stl" true.

Definition busy_worker : state :=
  {| disk := disk worker0; db := lpush (lpush db1 item1) item2; requests := [] |}.


End Fixtures.

(** ** Facts about path finding *)

Module PathFacts.

Import Router Examples.

(** *** The direct edge *)

Lemma find_path_direct (fuel : nat) (reg : registry) (a b : string) (max_steps : Z) :
  lower a <> lower b ->
  dict_mem reg (make_key (lower a) (lower b)) = true ->
  find_conversion_path_fuel fuel reg a b max_steps
  = Some (Rebuilt [(lower a, lower b, make_key (lower a) (lower b))]).
Proof.
  intros Hne Hmem. unfold find_conversion_path_fuel.
  rewrite decide_False by done. by rewrite Hmem.
Qed.

(** The first case of [find_conversion_path]: the path from a format
    to itself is empty, whatever the registry holds. *)
Lemma same_format_path_is_empty (reg : registry) (a b : string) (max_steps : Z) :
  lower a = lower b -> find_conversion_path reg a b max_steps = [].
Proof.
  intros Heq. unfold find_conversion_path, find_conversion_path_fuel.
  by rewrite decide_True.
Qed.

(** C8.  The second case of [find_conversion_path], for a request
    that is not in the first (the two formats differ after
    lowercasing): when a converter is registered under the key of the
    pair, the path returned is exactly the one-step path through that
    converter, whatever [max_steps] is and whatever else the graph
    holds; the search loop is not run (the result is the same with an
    iteration budget of zero). *)
Theorem direct_edge_short_circuit (reg : registry) (a b : string) (max_steps : Z) :
  lower a <> lower b ->
  dict_mem reg (make_key (lower a) (lower b)) = true ->
  find_conversion_path reg a b max_steps
  = [(lower a, lower b, make_key (lower a) (lower b))]
  /\ find_conversion_path_fuel 0 reg a b max_steps
     = Some (Rebuilt [(lower a, lower b, make_key (lower a) (lower b))]).
Proof.
  intros Hne Hmem. split.
  - unfold find_conversion_path. by rewrite find_path_direct.
  - by apply find_path_direct.
Qed.

Lemma direct_edge_short_circuit_witness :
  find_conversion_path direct_and_detour "STEP" "stl" 3
  = [("step", "stl", "step_to_stl")]
  /\ find_conversion_path_fuel 0 direct_and_detour "STEP" "stl" 3
     = Some (Rebuilt [("step", "stl", "step_to_stl")]).
Proof.
  apply (direct_edge_short_circuit direct_and_detour "STEP" "stl" 3).
  - vm_compute. congruence.
  - vm_compute. reflexivity.
Defined.

(** The first case comes first: with a converter from stl to stl
    registered, the path from stl to stl is still the empty one. *)
Example same_format_has_empty_path :
  dict_mem self_loop (make_key "stl" "stl") = true
  /\ find_conversion_path self_loop "stl" "stl" 3 = [].
Proof. vm_compute. done. Qed.

(** *** The bound on the search *)

(** C4 at a failing input.  With [max_steps = 3] the search returns a
    path of four steps from stl to obj: the edge from step to stp is an
    alias edge of weight one half, so the format brep is reached at
    cost 2.5, below 3, and is expanded. *)
Theorem alias_edge_exceeds_step_bound :
  find_conversion_path alias_chain "stl" "obj" 3
  = [("stl", "step", "stl_to_step"); ("step", "stp", "step_to_stp");
     ("stp", "brep", "stp_to_brep"); ("brep", "obj", "brep_to_obj")]
  /\ (3 < length (find_conversion_path alias_chain "stl" "obj" 3))%nat
  /\ map (fun e => (e.1.1, e.2)) (edges_of (build_format_graph alias_chain) "step")
     = [("stp", 1)].
Proof. vm_compute. repeat split; lia. Qed.

(** Of two three-step paths the one over the alias edge is taken, also
    when its converters were registered last. *)
Example alias_path_preferred :
  find_conversion_path
    (load_converters
       [good "stl" "ply"; good "ply" "gltf"; good "gltf" "obj";
        good "stl" "step"; good "step" "stp"; good "stp" "obj"])
    "stl" "obj" 3
  = [("stl", "step", "stl_to_step"); ("step", "stp", "step_to_stp");
     ("stp", "obj", "stp_to_obj")].
Proof. by vm_compute. Qed.

(** Without an alias edge on the way the bound is kept: four edges of
    weight one are not walked. *)
Example unit_edges_keep_step_bound :
  find_conversion_path
    (load_converters
       [good "stl" "ply"; good "ply" "obj"; good "obj" "brep"; good "brep" "x3d"])
    "stl" "x3d" 3 = [].
Proof. by vm_compute. Qed.

End PathFacts.

(** ** The search: invariant, termination and the shape of the result *)

Module SearchFacts.

Import Router Examples Invariants.

(** *** Dictionaries and the graph *)

Lemma dict_get_elem_of {V : Type} (d : list (string * V)) (k : string) (v : V) :
  (k, v) ∈ d -> is_Some (dict_get d k).
Proof.
  induction d as [|[k' v'] d IH]; intros Hin.
  - by apply elem_of_nil in Hin.
  - cbn. destruct (decide (k' = k)); [eauto|].
    apply elem_of_cons in Hin as [Heq|Hin]; [congruence|by apply IH].
Qed.

Lemma edge_weight_bounds (i o : string) : 1 <= edge_weight i o <= 2.
Proof. unfold edge_weight. destruct (_ || _)%bool; lia. Qed.

Lemma edges_of_insert (g : graph) (u v : string) (l : list edge) :
  edges_of (<[u := l]> g) v = if decide (u = v) then l else edges_of g v.
Proof.
  unfold edges_of, graph in *. rewrite lookup_insert.
  by destruct (decide (u = v)).
Qed.

Lemma build_graph_edges_from (reg part : registry) (g : graph) :
  (forall kc, kc ∈ part -> kc ∈ reg) ->
  (forall u e, e ∈ edges_of g u -> edge_ok reg u e) ->
  forall u e, e ∈ edges_of (fold_left add_edge part g) u -> edge_ok reg u e.
Proof.
  revert g. induction part as [|[key c] part IH]; intros g Hsub Hg u e He; cbn in He.
  - by apply (Hg u).
  - apply (IH _ (fun kc H => Hsub kc (list_elem_of_further _ _ _ H))) in He; [done|].
    clear He u e. intros u e He. unfold add_edge in He.
    rewrite edges_of_insert in He. destruct (decide _) as [->|]; [|by apply (Hg u)].
    apply elem_of_app in He as [He|He]; [by apply (Hg u)|].
    apply list_elem_of_singleton in He as ->.
    assert (Hin : (key, c) ∈ reg) by (apply Hsub; left).
    split; [by apply (dict_get_elem_of reg key c)|]. split.
    + cbn. unfold targets. apply list_elem_of_fmap. by exists (key, c).
    + split; [done|]. apply edge_weight_bounds.
Qed.

Lemma build_graph_edges (reg : registry) (u : string) (e : edge) :
  e ∈ edges_of (build_format_graph reg) u -> edge_ok reg u e.
Proof.
  apply build_graph_edges_from; [done|].
  intros v e' He. unfold edges_of, graph in He. rewrite lookup_empty in He.
  by apply elem_of_nil in He.
Qed.


(** *** Chains of steps *)

Lemma links_snoc (src mid dst key : string) (path : list step) :
  links src path mid -> links src (path ++ [(mid, dst, key)]) dst.
Proof.
  revert src. induction path as [|[[s d] k] path IH]; intros src; cbn.
  - by intros ->.
  - intros [-> H]. split; [done|]. by apply IH.
Qed.

Lemma links_head (src dst : string) (path : list step) :
  links src path dst -> path <> [] ->
  (fun s : step => s.1.1) <$> head path = Some src.
Proof. destruct path as [|[[s d] k] path]; [done|]. cbn. by intros [-> _] _. Qed.

Lemma links_last (src dst : string) (path : list step) :
  links src path dst -> path <> [] ->
  (fun s : step => s.1.2) <$> last path = Some dst.
Proof.
  revert src. induction path as [|[[s d] k] path IH]; intros src; [done|].
  cbn [links]. intros [-> H] _. destruct path as [|s' path].
  - cbn in *. by subst.
  - rewrite last_cons_cons. by apply (IH d).
Qed.

Lemma links_consecutive (src dst : string) (path : list step) (i : nat)
    (s1 s2 : step) :
  links src path dst ->
  path !! i = Some s1 -> path !! S i = Some s2 -> s1.1.2 = s2.1.1.
Proof.
  revert src i. induction path as [|[[s d] k] path IH]; intros src i; [done|].
  cbn [links]. intros [-> H] H1 H2. destruct i as [|i].
  - cbn in H1, H2. injection H1 as <-.
    destruct path as [|[[s' d'] k'] path]; [done|].
    cbn in H2. injection H2 as <-. cbn in *. by destruct H as [-> _].
  - by apply (IH d i).
Qed.

Lemma path_weight_app (p q : list step) :
  path_weight (p ++ q) = path_weight p + path_weight q.
Proof. induction p as [|s p IH]; cbn [app path_weight]; lia. Qed.

Lemma path_weight_rev (p : list step) : path_weight (rev p) = path_weight p.
Proof.
  induction p as [|s p IH]; [done|]. cbn [rev]. rewrite path_weight_app, IH.
  cbn [path_weight]. lia.
Qed.

Lemma path_weight_length (p : list step) : Z.of_nat (length p) <= path_weight p.
Proof.
  induction p as [|s p IH]; cbn [length path_weight]; [lia|].
  pose proof (edge_weight_bounds s.1.1 s.1.2). lia.
Qed.

Lemma path_weight_unit (p : list step) :
  (forall s : step, s ∈ p -> edge_weight s.1.1 s.1.2 = 2) ->
  path_weight p = 2 * Z.of_nat (length p).
Proof.
  induction p as [|s p IH]; intros H; cbn [length path_weight]; [lia|].
  rewrite (H s) by left. rewrite IH; [lia|]. intros s' Hs'. apply H. by right.
Qed.

(** *** The heap *)

Lemma heap_min_elem_of (x : entry) (l : list entry) : heap_min x l ∈ x :: l.
Proof.
  revert x. induction l as [|y l IH]; intros x; cbn.
  - left.
  - specialize (IH (if entry_lt y x then y else x)).
    apply elem_of_cons in IH as [->|IH].
    + destruct (entry_lt y x); [right; left|left].
    + right. by right.
Qed.

Lemma remove_first_spec (x : entry) (l : list entry) :
  x ∈ l ->
  length l = S (length (remove_first x l))
  /\ forall y, y ∈ remove_first x l -> y ∈ l.
Proof.
  induction l as [|z l IH]; intros Hin; [by apply elem_of_nil in Hin|].
  cbn. destruct (decide (z = x)) as [->|Hne].
  - split; [done|]. intros y Hy. by right.
  - apply elem_of_cons in Hin as [->|Hin]; [done|].
    destruct (IH Hin) as [Hlen Hsub]. split; [cbn; lia|].
    intros y Hy. apply elem_of_cons in Hy as [->|Hy]; [left|right; by apply Hsub].
Qed.

Lemma heappop_spec (q q' : list entry) (x : entry) :
  heappop q = Some (x, q') ->
  x ∈ q /\ length q = S (length q') /\ forall y, y ∈ q' -> y ∈ q.
Proof.
  destruct q as [|z l]; [done|]. unfold heappop. cbv zeta. intros [= <- <-].
  pose proof (heap_min_elem_of z l) as Hin.
  split; [done|]. by apply (remove_first_spec _ (z :: l)).
Qed.

(** *** The invariant of the search loop *)

Section Search.

Variable reg : registry.
Variables input_fmt output_fmt : string.
Variable max_steps : Z.

Lemma initial_inv : search_inv reg input_fmt max_steps (initial input_fmt).
Proof.
  split; cbn.
  - by rewrite lookup_singleton_eq.
  - done.
  - intros v p k H. by rewrite lookup_empty in H.
  - intros v d H. apply lookup_singleton_Some in H as [<- <-]. split; [lia|by left].
  - intros c u H. apply list_elem_of_singleton in H as [= -> ->].
    exists 0. by rewrite lookup_singleton_eq.
  - intros v p k d H. by rewrite lookup_empty in H.
Qed.

Lemma relax_inv (cost : Z) (current : string) (st : search) (e : edge) :
  search_inv reg input_fmt max_steps st ->
  cost < 2 * max_steps ->
  (exists d, dist st !! current = Some d /\ d <= cost) ->
  e ∈ edges_of (build_format_graph reg) current ->
  search_inv reg input_fmt max_steps (relax cost current st e)
  /\ exists d, dist (relax cost current st e) !! current = Some d /\ d <= cost.
Proof.
  intros Hinv Hcost (dc & Hdc & Hle) He.
  destruct e as [[next key] weight].
  pose proof (build_graph_edges _ _ _ He) as (_ & _ & _ & Hw). cbn in Hw.
  destruct (inv_dist _ _ _ _ Hinv _ _ Hdc) as [Hdc0 _].
  unfold relax.
  destruct (match dist st !! next with
            | Some d => cost + weight <? d
            | None => true
            end) eqn:Hupd; [|eauto].
  assert (Hnew : forall d, dist st !! next = Some d -> cost + weight < d).
  { intros d Hd. rewrite Hd in Hupd. lia. }
  assert (Hnsrc : next <> input_fmt).
  { intros ->. specialize (Hnew _ (inv_source _ _ _ _ Hinv)). lia. }
  assert (Hncur : next <> current).
  { intros ->. specialize (Hnew _ Hdc). lia. }
  split; [|exists dc; cbn; by rewrite lookup_insert_ne].
  split; cbn.
  - rewrite lookup_insert_ne by done. apply Hinv.
  - rewrite lookup_insert_ne by done. apply Hinv.
  - intros v p k Hp. destruct (decide (next = v)) as [<-|Hv].
    + rewrite lookup_insert_eq in Hp. injection Hp as <- <-.
      exists dc, (cost + weight), weight.
      rewrite lookup_insert_ne by done. rewrite lookup_insert_eq.
      repeat split; try done. lia.
    + rewrite lookup_insert_ne in Hp by done.
      destruct (inv_prev _ _ _ _ Hinv _ _ _ Hp) as (dp & dv & w & Hdp & Hdv & Hle' & Hedge).
      rewrite (lookup_insert_ne _ next v) by done.
      destruct (decide (next = p)) as [<-|Hp'].
      * exists (cost + weight), dv, w. rewrite lookup_insert_eq.
        repeat split; try done. specialize (Hnew _ Hdp). lia.
      * exists dp, dv, w. by rewrite lookup_insert_ne.
  - intros v d Hd. destruct (decide (next = v)) as [<-|Hv].
    + rewrite lookup_insert_eq in Hd. injection Hd as <-.
      split; [lia|]. right. rewrite lookup_insert_eq. eauto.
    + rewrite lookup_insert_ne in Hd by done.
      destruct (inv_dist _ _ _ _ Hinv _ _ Hd) as [H0 Hor]. split; [done|].
      destruct Hor as [?|?]; [by left|right]. by rewrite lookup_insert_ne.
  - intros c u Hin. unfold heappush in Hin.
    apply elem_of_app in Hin as [Hin|Hin].
    + destruct (inv_pq _ _ _ _ Hinv _ _ Hin) as (d & Hd & Hdle).
      destruct (decide (next = u)) as [<-|Hu].
      * exists (cost + weight). rewrite lookup_insert_eq.
        split; [done|]. specialize (Hnew _ Hd). lia.
      * exists d. by rewrite lookup_insert_ne.
    + apply list_elem_of_singleton in Hin as [= -> ->].
      exists (cost + weight). by rewrite lookup_insert_eq.
  - intros v p k d Hp Hd. destruct (decide (next = v)) as [<-|Hv].
    + rewrite lookup_insert_eq in Hd. injection Hd as <-. lia.
    + rewrite lookup_insert_ne in Hp by done.
      rewrite lookup_insert_ne in Hd by done.
      by apply (inv_bound _ _ _ _ Hinv v p k).
Qed.

Lemma relax_all_inv (cost : Z) (current : string) (edges : list edge) :
  cost < 2 * max_steps ->
  forall st : search,
    search_inv reg input_fmt max_steps st ->
    (exists d, dist st !! current = Some d /\ d <= cost) ->
    (forall e, e ∈ edges -> e ∈ edges_of (build_format_graph reg) current) ->
    search_inv reg input_fmt max_steps (fold_left (relax cost current) edges st).
Proof.
  intros Hcost.
  induction edges as [|e edges IH]; intros st Hinv Hcur Hsub; [done|].
  cbn. destruct (relax_inv cost current st e Hinv Hcost Hcur) as [Hinv' Hcur'].
  { apply Hsub. left. }
  apply IH; [done|done|]. intros e' He'. apply Hsub. by right.
Qed.

(** *** Termination of the search loop *)

Lemma pot_insert (d : gmap string Z) (v u : string) (x : Z) :
  pot max_steps (<[v := x]> d) u = if decide (v = u) then x else pot max_steps d u.
Proof. unfold pot. rewrite lookup_insert. by destruct (decide (v = u)). Qed.

Lemma total_pot_insert_le (d : gmap string Z) (v : string) (x : Z) (T : list string) :
  x <= pot max_steps d v ->
  total_pot max_steps (<[v := x]> d) T <= total_pot max_steps d T.
Proof.
  intros Hx. induction T as [|u T IH]; cbn; [lia|].
  rewrite pot_insert. destruct (decide (v = u)) as [<-|]; lia.
Qed.

Lemma total_pot_insert_lt (d : gmap string Z) (v : string) (x : Z) (T : list string) :
  v ∈ T -> x < pot max_steps d v ->
  total_pot max_steps (<[v := x]> d) T <= total_pot max_steps d T - 1.
Proof.
  intros Hin Hx. induction T as [|u T IH]; [by apply elem_of_nil in Hin|].
  cbn. rewrite pot_insert.
  pose proof (total_pot_insert_le d v x T ltac:(lia)) as Hle.
  destruct (decide (v = u)) as [<-|Hne]; [lia|].
  apply elem_of_cons in Hin as [?|Hin]; [done|]. specialize (IH Hin). lia.
Qed.

Lemma total_pot_nonneg (d : gmap string Z) (T : list string) :
  (forall v x, d !! v = Some x -> 0 <= x) -> 0 <= total_pot max_steps d T.
Proof.
  intros Hd. induction T as [|u T IH]; cbn; [lia|].
  unfold pot at 1. destruct (d !! u) as [x|] eqn:Hu; cbn.
  - specialize (Hd _ _ Hu). lia.
  - unfold cost_bound. lia.
Qed.

Lemma measure_nonneg (st : search) :
  search_inv reg input_fmt max_steps st -> 0 <= measure reg max_steps st.
Proof.
  intros Hinv. unfold measure.
  pose proof (total_pot_nonneg (dist st) (targets reg)
                (fun v x H => proj1 (inv_dist _ _ _ _ Hinv v x H))).
  lia.
Qed.

Lemma relax_measure (cost : Z) (current : string) (st : search) (e : edge) :
  cost < 2 * max_steps ->
  e ∈ edges_of (build_format_graph reg) current ->
  measure reg max_steps (relax cost current st e) <= measure reg max_steps st.
Proof.
  intros Hcost He. destruct e as [[next key] weight].
  pose proof (build_graph_edges _ _ _ He) as (_ & Hin & _ & Hw). cbn in Hin, Hw.
  unfold relax.
  destruct (match dist st !! next with
            | Some d => cost + weight <? d
            | None => true
            end) eqn:Hupd; [|lia].
  unfold measure, heappush. cbn [dist pq]. rewrite length_app. cbn [length].
  pose proof (total_pot_insert_lt (dist st) next (cost + weight) (targets reg) Hin) as H.
  assert (cost + weight < pot max_steps (dist st) next).
  { unfold pot. destruct (dist st !! next) as [d|]; cbn; [lia|].
    unfold cost_bound. lia. }
  specialize (H ltac:(done)). lia.
Qed.

Lemma relax_all_measure (cost : Z) (current : string) (edges : list edge) :
  cost < 2 * max_steps ->
  forall st : search,
    (forall e, e ∈ edges -> e ∈ edges_of (build_format_graph reg) current) ->
    measure reg max_steps (fold_left (relax cost current) edges st) <= measure reg max_steps st.
Proof.
  intros Hcost. induction edges as [|e edges IH]; intros st Hsub; cbn; [lia|].
  etrans; [apply IH; intros e' He'; apply Hsub; by right|].
  apply relax_measure; [done|]. apply Hsub. left.
Qed.

(** With a budget above the measure the loop comes to its end, and the
    invariant holds there. *)
Lemma dijkstra_loop_ends (fuel : nat) :
  forall st : search,
    search_inv reg input_fmt max_steps st ->
    measure reg max_steps st < Z.of_nat fuel ->
    exists st',
      dijkstra_loop fuel (build_format_graph reg) output_fmt max_steps st = Some st'
      /\ search_inv reg input_fmt max_steps st'.
Proof.
  induction fuel as [|fuel IH]; intros st Hinv Hm.
  - pose proof (measure_nonneg st Hinv). lia.
  - cbn [dijkstra_loop].
    destruct (heappop (pq st)) as [[[cost current] q']|] eqn:Hpop; [|eauto].
    apply heappop_spec in Hpop as (Hin & Hlen & Hsub).
    set (st1 := {| dist := dist st; prev := prev st; pq := q' |}).
    assert (Hinv1 : search_inv reg input_fmt max_steps st1).
    { destruct Hinv. split; cbn; try done. intros c u Hq. by apply inv_pq0, Hsub. }
    assert (Hm1 : measure reg max_steps st1 < Z.of_nat fuel).
    { unfold measure in *. cbn [dist pq st1]. lia. }
    destruct (decide (current = output_fmt)); [eauto|].
    destruct (2 * max_steps <=? cost) eqn:Hcmp; [by apply IH|].
    apply IH.
    + apply relax_all_inv; [lia|done| |done].
      destruct (inv_pq _ _ _ _ Hinv _ _ Hin) as (d & Hd & Hle). by exists d.
    + pose proof (relax_all_measure cost current
                    (edges_of (build_format_graph reg) current) ltac:(lia) st1
                    (fun e H => H)).
      lia.
Qed.

Lemma total_pot_initial (T : list string) :
  total_pot max_steps {[input_fmt := 0]} T <= Z.of_nat (length T) * cost_bound max_steps.
Proof.
  induction T as [|u T IH]; cbn [total_pot length]; [lia|].
  assert (pot max_steps {[input_fmt := 0]} u <= cost_bound max_steps).
  { unfold pot. destruct (decide (input_fmt = u)) as [<-|].
    - rewrite lookup_singleton_eq. cbn. unfold cost_bound. lia.
    - by rewrite lookup_singleton_ne. }
  lia.
Qed.

Lemma search_fuel_enough :
  measure reg max_steps (initial input_fmt) < Z.of_nat (search_fuel reg max_steps).
Proof.
  unfold measure, initial, search_fuel. cbn [dist pq length].
  pose proof (total_pot_initial (targets reg)) as H.
  assert (Hlen : length (targets reg) = length reg)
    by (unfold targets; apply length_map).
  rewrite Hlen in H. fold (cost_bound max_steps).
  assert (0 <= cost_bound max_steps) by (unfold cost_bound; lia).
  rewrite !Nat2Z.inj_succ, Nat2Z.inj_mul, Nat2Z.inj_mul, Z2Nat.id by done.
  change (Z.of_nat 0) with 0. change (Z.of_nat 2) with 2. nia.
Qed.

(** [search_fuel] iterations suffice, and any larger budget gives the
    same final state. *)
Lemma dijkstra_loop_more_fuel (fuel fuel' : nat) (st st' : search) :
  (fuel <= fuel')%nat ->
  dijkstra_loop fuel (build_format_graph reg) output_fmt max_steps st = Some st' ->
  dijkstra_loop fuel' (build_format_graph reg) output_fmt max_steps st = Some st'.
Proof.
  revert fuel' st. induction fuel as [|fuel IH]; intros fuel' st Hle H; [done|].
  destruct fuel' as [|fuel']; [lia|]. cbn [dijkstra_loop] in *.
  destruct (heappop (pq st)) as [[[cost current] q']|]; [|done].
  destruct (decide (current = output_fmt)); [done|].
  destruct (2 * max_steps <=? cost); apply IH; (lia || done).
Qed.

Lemma dijkstra_fuel_enough :
  exists st',
    dijkstra_loop (search_fuel reg max_steps) (build_format_graph reg)
      output_fmt max_steps (initial input_fmt) = Some st'
    /\ search_inv reg input_fmt max_steps st'.
Proof. apply dijkstra_loop_ends; [apply initial_inv|apply search_fuel_enough]. Qed.

(** *** The reconstruction loop *)

Lemma rebuild_spec (st : search) (fuel : nat) :
  search_inv reg input_fmt max_steps st ->
  forall (current : string) (d : Z) (acc : list step),
    dist st !! current = Some d ->
    (Z.to_nat d < fuel)%nat ->
    exists segs,
      rebuild fuel (prev st) input_fmt current acc = Rebuilt (acc ++ segs)
      /\ links input_fmt (rev segs) current
      /\ (forall s : step, s ∈ segs -> is_Some (dict_get reg s.2))
      /\ path_weight segs <= d.
Proof.
  intros Hinv. induction fuel as [|fuel IH]; intros current d acc Hd Hfuel; [lia|].
  cbn [rebuild]. destruct (decide (current = input_fmt)) as [->|Hne].
  - exists []. rewrite app_nil_r. destruct (inv_dist _ _ _ _ Hinv _ _ Hd) as [Hd0 _].
    repeat split; try done.
    intros s Hs. by apply elem_of_nil in Hs.
  - destruct (inv_dist _ _ _ _ Hinv _ _ Hd) as [Hd0 [?|[[p k] Hp]]]; [done|].
    rewrite Hp.
    destruct (inv_prev _ _ _ _ Hinv _ _ _ Hp) as (dp & dv & w & Hdp & Hdv & Hle & Hedge).
    pose proof (build_graph_edges _ _ _ Hedge) as (Hkey & _ & Hwe & Hw).
    cbn in Hkey, Hwe, Hw.
    destruct (inv_dist _ _ _ _ Hinv _ _ Hdp) as [Hdp0 _].
    assert (dv = d) by congruence. subst dv.
    destruct (IH p dp (acc ++ [(p, current, k)]) Hdp ltac:(lia))
      as (segs & Hr & Hlinks & Hkeys & Hweight).
    exists ((p, current, k) :: segs). rewrite Hr, <- app_assoc.
    split; [done|]. split; [|split].
    + cbn [rev]. by apply links_snoc.
    + intros s Hs. apply elem_of_cons in Hs as [->|Hs]; [done|by apply Hkeys].
    + cbn [path_weight fst snd]. lia.
Qed.

End Search.

(** *** [find_conversion_path] always returns, and what it returns *)

Lemma find_path_fuel_spec (reg : registry) (a b : string) (max_steps : Z) :
  exists path,
    find_conversion_path_fuel (search_fuel reg max_steps) reg a b max_steps
    = Some (Rebuilt path)
    /\ (path <> [] -> well_formed reg (lower a) (lower b) path)
    /\ (dict_mem reg (make_key (lower a) (lower b)) = false ->
        path <> [] -> path_weight path <= 2 * max_steps + 1).
Proof.
  unfold find_conversion_path_fuel.
  destruct (decide (lower a = lower b)) as [Heq|Hne]; [by exists []|].
  destruct (dict_mem reg (make_key (lower a) (lower b))) eqn:Hmem.
  { eexists. split; [done|]. split; [|done]. intros _. split; [done|].
    intros s Hs. apply list_elem_of_singleton in Hs as ->. cbn.
    unfold dict_mem in Hmem. by destruct (dict_get reg _). }
  destruct (dijkstra_fuel_enough reg (lower a) (lower b) max_steps) as (st & Hloop & Hinv).
  unfold initial in Hloop. rewrite Hloop.
  destruct (prev st !! lower b) as [[p k]|] eqn:Hp; [|by exists []].
  destruct (inv_prev _ _ _ _ Hinv _ _ _ Hp) as (dp & dv & w & _ & Hdv & _).
  destruct (rebuild_spec reg (lower a) max_steps st (rebuild_fuel st (lower b)) Hinv
              (lower b) dv [] Hdv) as (segs & Hr & Hlinks & Hkeys & Hweight).
  { unfold rebuild_fuel. rewrite Hdv. cbn. lia. }
  rewrite Hr. cbn [app]. exists (rev segs). split; [done|]. split.
  - intros _. split; [done|]. intros s Hs. apply Hkeys.
    apply list_elem_of_In. apply in_rev. by apply list_elem_of_In.
  - intros _ _. rewrite path_weight_rev.
    pose proof (inv_bound _ _ _ _ Hinv _ _ _ _ Hp Hdv). lia.
Qed.

(** The model of [find_conversion_path] never runs out of its iteration
    budget and never meets a missing predecessor: the list it gives is
    the list the search and the reconstruction produced. *)
Theorem find_conversion_path_total (reg : registry) (a b : string) (max_steps : Z) :
  find_conversion_path_fuel (search_fuel reg max_steps) reg a b max_steps
  = Some (Rebuilt (find_conversion_path reg a b max_steps)).
Proof.
  destruct (find_path_fuel_spec reg a b max_steps) as (path & H & _).
  unfold find_conversion_path. by rewrite H.
Qed.

(** C10. A non-empty path returned by [find_conversion_path] starts at
    the lowercased input format, ends at the lowercased output format,
    each of its steps ends where the next one starts, and every
    converter key in it is a key of the registry. *)
Theorem returned_path_is_chain (reg : registry) (a b : string) (max_steps : Z) :
  let path := find_conversion_path reg a b max_steps in
  path <> [] ->
  (fun s : step => s.1.1) <$> head path = Some (lower a)
  /\ (fun s : step => s.1.2) <$> last path = Some (lower b)
  /\ (forall (i : nat) (s1 s2 : step),
        path !! i = Some s1 -> path !! S i = Some s2 -> s1.1.2 = s2.1.1)
  /\ (forall s : step, s ∈ path -> is_Some (dict_get reg s.2)).
Proof.
  intros path Hne. subst path.
  destruct (find_path_fuel_spec reg a b max_steps) as (path & H & Hwf & _).
  unfold find_conversion_path in *. rewrite H in *.
  destruct (Hwf Hne) as [Hlinks Hkeys].
  split; [by apply (links_head _ (lower b))|].
  split; [by apply (links_last (lower a))|].
  split; [|done]. intros i s1 s2. by apply (links_consecutive (lower a) (lower b)).
Qed.

Lemma returned_path_is_chain_witness :
  let path := find_conversion_path alias_chain "STL" "Obj" 3 in
  (fun s : step => s.1.1) <$> head path = Some (lower "STL")
  /\ (fun s : step => s.1.2) <$> last path = Some (lower "Obj")
  /\ (forall (i : nat) (s1 s2 : step),
        path !! i = Some s1 -> path !! S i = Some s2 -> s1.1.2 = s2.1.1)
  /\ (forall s : step, s ∈ path -> is_Some (dict_get alias_chain s.2)).
Proof.
  apply (returned_path_is_chain alias_chain "STL" "Obj" 3).
  vm_compute. discriminate.
Defined.

(** X9. What does bound a path found by the search: its accumulated
    weight is at most [max_steps] plus one half.  So a path without
    alias steps has at most [max_steps] steps, and any path has at
    most [2 * max_steps + 1]. *)
Theorem searched_path_weight_bound (reg : registry) (a b : string) (max_steps : Z) :
  let path := find_conversion_path reg a b max_steps in
  dict_mem reg (make_key (lower a) (lower b)) = false ->
  path <> [] ->
  path_weight path <= 2 * max_steps + 1
  /\ Z.of_nat (length path) <= 2 * max_steps + 1
  /\ ((forall s : step, s ∈ path -> edge_weight s.1.1 s.1.2 = 2) ->
      Z.of_nat (length path) <= max_steps).
Proof.
  intros path Hmem Hne. subst path.
  destruct (find_path_fuel_spec reg a b max_steps) as (path & H & _ & Hw).
  unfold find_conversion_path in *. rewrite H in *.
  specialize (Hw Hmem Hne). pose proof (path_weight_length path).
  split; [done|]. split; [lia|]. intros Hunit.
  rewrite (path_weight_unit path Hunit) in Hw. lia.
Qed.

End SearchFacts.

(** ** The search returns a lightest path *)

Module OptimalityFacts.

Import Router Examples Invariants SearchFacts.

Lemma heap_min_least (x : entry) (l : list entry) :
  forall y, y ∈ x :: l -> (heap_min x l).1 <= y.1.
Proof.
  revert x. induction l as [|z l IH]; intros x y Hy; cbn [heap_min].
  - apply list_elem_of_singleton in Hy as ->. lia.
  - assert (Hm : (if entry_lt z x then z else x).1 <= x.1
                 /\ (if entry_lt z x then z else x).1 <= z.1).
    { unfold entry_lt. destruct z as [cz uz], x as [cx ux]. cbn [fst snd].
      destruct (Z.ltb_spec cz cx); cbn [orb fst]; [lia|].
      destruct (Z.eqb_spec cz cx); cbn [andb];
        [destruct (String.ltb uz ux)|]; cbn [fst]; lia. }
    destruct Hm as [Hx Hz].
    apply elem_of_cons in Hy as [->|Hy].
    + etrans; [apply IH; left|]. exact Hx.
    + apply elem_of_cons in Hy as [->|Hy].
      * etrans; [apply IH; left|]. exact Hz.
      * apply IH. by right.
Qed.

Lemma heappop_least (q q' : list entry) (x : entry) :
  heappop q = Some (x, q') -> forall y, y ∈ q -> x.1 <= y.1.
Proof.
  destruct q as [|z l]; [done|]. unfold heappop. cbv zeta. intros [= <- _].
  apply heap_min_least.
Qed.

Section Optimal.

Variable reg : registry.
Variables input_fmt output_fmt : string.
Variable max_steps : Z.

Lemma relax_dist_le (cost : Z) (current : string) (st : search) (e : edge) :
  forall v d, dist st !! v = Some d ->
    exists d', dist (relax cost current st e) !! v = Some d' /\ d' <= d.
Proof.
  intros v d Hd. destruct e as [[next key] weight]. unfold relax.
  destruct (match dist st !! next with
            | Some d => cost + weight <? d
            | None => true
            end) eqn:Hupd; [|exists d; split; [done|lia]].
  cbn [dist]. destruct (decide (next = v)) as [<-|Hne].
  - rewrite Hd in Hupd. exists (cost + weight). rewrite lookup_insert_eq.
    split; [done|lia].
  - exists d. rewrite lookup_insert_ne by done. split; [done|lia].
Qed.

Lemma relax_target (cost : Z) (current : string) (st : search)
    (next key : string) (weight : Z) :
  exists d, dist (relax cost current st (next, key, weight)) !! next = Some d
            /\ d <= cost + weight.
Proof.
  unfold relax.
  destruct (dist st !! next) as [d|] eqn:Hd.
  - destruct (cost + weight <? d) eqn:Hlt; cbn [dist].
    + exists (cost + weight). rewrite lookup_insert_eq. split; [done|lia].
    + exists d. split; [done|lia].
  - cbn [dist]. exists (cost + weight). rewrite lookup_insert_eq. split; [done|lia].
Qed.

Lemma relax_queued_or_done (cost : Z) (current : string) (st : search) (e : edge)
    (skip : option entry) :
  queued_or_done reg output_fmt max_steps st skip ->
  queued_or_done reg output_fmt max_steps (relax cost current st e) skip.
Proof.
  intros HQ v d Hd. destruct e as [[next key] weight].
  unfold relax in *.
  destruct (match dist st !! next with
            | Some d => cost + weight <? d
            | None => true
            end) eqn:Hupd; [|by apply HQ].
  cbn [dist pq] in *. unfold heappush.
  destruct (decide (next = v)) as [<-|Hne].
  - rewrite lookup_insert_eq in Hd. injection Hd as <-. left.
    apply elem_of_app. right. by apply list_elem_of_singleton.
  - rewrite lookup_insert_ne in Hd by done.
    destruct (HQ v d Hd) as [Hq|[Hdone|Hskip]].
    + left. apply elem_of_app. by left.
    + right. left. intros Hv Hlt x k w Hx.
      destruct (Hdone Hv Hlt x k w Hx) as (dx & Hdx & Hle). cbn [dist].
      destruct (decide (next = x)) as [<-|Hnx].
      * rewrite Hdx in Hupd. exists (cost + weight). rewrite lookup_insert_eq.
        split; [done|lia].
      * exists dx. by rewrite lookup_insert_ne.
    + by right; right.
Qed.

Lemma relax_all_queued_or_done (cost : Z) (current : string) (edges : list edge)
    (skip : option entry) :
  forall st, queued_or_done reg output_fmt max_steps st skip ->
    queued_or_done reg output_fmt max_steps (fold_left (relax cost current) edges st) skip.
Proof.
  induction edges as [|e edges IH]; intros st HQ; [done|].
  cbn. by apply IH, relax_queued_or_done.
Qed.

Lemma relax_all_dist_le (cost : Z) (current : string) (edges : list edge) :
  forall st v d, dist st !! v = Some d ->
    exists d', dist (fold_left (relax cost current) edges st) !! v = Some d'
               /\ d' <= d.
Proof.
  induction edges as [|e edges IH]; intros st v d Hd; cbn.
  - exists d. split; [done|lia].
  - destruct (relax_dist_le cost current st e v d Hd) as (d1 & Hd1 & Hle1).
    destruct (IH _ v d1 Hd1) as (d2 & Hd2 & Hle2). exists d2. split; [done|lia].
Qed.

Lemma relax_all_targets (cost : Z) (current : string) (edges : list edge) :
  forall st x k w, (x, k, w) ∈ edges ->
    exists dx, dist (fold_left (relax cost current) edges st) !! x = Some dx
               /\ dx <= cost + w.
Proof.
  induction edges as [|e edges IH]; intros st x k w Hin; [by apply elem_of_nil in Hin|].
  cbn. apply elem_of_cons in Hin as [<-|Hin].
  - destruct (relax_target cost current st x k w) as (d1 & Hd1 & Hle1).
    destruct (relax_all_dist_le cost current edges _ x d1 Hd1) as (d2 & Hd2 & Hle2).
    exists d2. split; [done|lia].
  - by apply (IH _ x k w).
Qed.

Lemma remove_first_elem (x y : entry) (l : list entry) :
  y ∈ l -> y = x \/ y ∈ remove_first x l.
Proof.
  induction l as [|a l IH]; intros Hy; [by apply elem_of_nil in Hy|].
  cbn. destruct (decide (a = x)) as [Heq|Hne].
  - apply elem_of_cons in Hy as [Hy|Hy]; [left; congruence|by right].
  - apply elem_of_cons in Hy as [Hy|Hy]; [right; subst; left|].
    destruct (IH Hy) as [?|?]; [by left|right; by right].
Qed.

Lemma heappop_elem (q q' : list entry) (x : entry) :
  heappop q = Some (x, q') -> forall y, y ∈ q -> y = x \/ y ∈ q'.
Proof.
  destruct q as [|z l]; [done|]. intros H.
  assert (x = heap_min z l /\ q' = remove_first (heap_min z l) (z :: l))
    as [-> ->] by (unfold heappop in H; cbv zeta in H; by injection H).
  intros y. apply remove_first_elem.
Qed.

Lemma dijkstra_loop_closed (fuel : nat) :
  forall st st' : search,
    search_inv reg input_fmt max_steps st ->
    queued_or_done reg output_fmt max_steps st None ->
    dijkstra_loop fuel (build_format_graph reg) output_fmt max_steps st = Some st' ->
    search_inv reg input_fmt max_steps st'
    /\ exists lim,
         closed_below reg output_fmt max_steps st' lim
         /\ forall c, lim = Some c ->
              exists dt, dist st' !! output_fmt = Some dt /\ dt <= c.
Proof.
  induction fuel as [|fuel IH]; intros st st' Hinv HQ Hloop; [done|].
  cbn [dijkstra_loop] in Hloop.
  destruct (heappop (pq st)) as [[[cost current] q']|] eqn:Hpop.
  2:{ injection Hloop as <-. split; [done|]. exists None. split; [|done].
      intros v d Hd _. destruct (pq st) as [|z l] eqn:Hq; [|done].
      destruct (HQ v d Hd) as [Hin|[?|?]]; [|done|done].
      rewrite Hq in Hin. by apply elem_of_nil in Hin. }
  pose proof (heappop_spec _ _ _ Hpop) as (Hin & Hlen & Hsub).
  pose proof (heappop_least _ _ _ Hpop) as Hleast.
  pose proof (heappop_elem _ _ _ Hpop) as Helem.
  set (st1 := {| dist := dist st; prev := prev st; pq := q' |}) in *.
  assert (Hinv1 : search_inv reg input_fmt max_steps st1).
  { split; cbn; try apply Hinv.
    intros c u Hq. apply (inv_pq _ _ _ _ Hinv). by apply Hsub. }
  assert (HQ1 : queued_or_done reg output_fmt max_steps st1 (Some (cost, current))).
  { intros v d Hd. destruct (HQ v d Hd) as [Hq|[Hdone|?]]; [|by right; left|done].
    destruct (Helem _ Hq) as [->|?]; [by right; right|by left]. }
  destruct (inv_pq _ _ _ _ Hinv _ _ Hin) as (dc & Hdc & Hdcle).
  destruct (decide (current = output_fmt)) as [->|Hnot].
  { injection Hloop as <-. split; [done|]. exists (Some cost). split.
    - intros v d Hd Hlt. destruct (HQ1 v d Hd) as [Hq|[?|Hs]]; [|done|].
      + specialize (Hleast (d, v) (Hsub _ Hq)). cbn in Hleast. lia.
      + injection Hs as -> ->. lia.
    - intros c [= <-]. by exists dc. }
  destruct (Z.leb_spec (2 * max_steps) cost) as [Hbig|Hsmall].
  - apply (IH st1 st' Hinv1); [|done].
    intros v d Hd. destruct (HQ1 v d Hd) as [?|[?|Hs]]; [by left|by right; left|].
    injection Hs as -> ->. right. left. intros _ ?. lia.
  - apply (IH (fold_left (relax cost current)
                   (edges_of (build_format_graph reg) current) st1) st'); [| |done].
    + apply relax_all_inv; [done|done| |done]. by exists dc.
    + intros v d Hd.
      destruct (relax_all_queued_or_done cost current _ _ _ HQ1 v d Hd)
        as [?|[?|Hs]]; [by left|by right; left|].
      injection Hs as <- <-. right. left. intros _ _ x k w Hx.
      by apply (relax_all_targets cost current _ st1 x k w).
Qed.

Lemma path_weight_nonneg (P : list step) : 0 <= path_weight P.
Proof. pose proof (path_weight_length P). lia. Qed.

Lemma closed_path (st : search) (lim : option Z) :
  closed_below reg output_fmt max_steps st lim ->
  forall (P : list step) (v0 : string) (d0 cP : Z),
    dist st !! v0 = Some d0 ->
    d0 <= cP ->
    graph_path reg v0 P output_fmt ->
    cP + 2 * Z.of_nat (length P) <= 2 * max_steps ->
    (exists dt, dist st !! output_fmt = Some dt /\ dt <= cP + path_weight P)
    \/ (exists c, lim = Some c /\ c <= cP + path_weight P).
Proof.
  intros Hclosed. induction P as [|[[s x] k] P IH]; intros v0 d0 cP Hd Hle Hpath Hlen.
  - cbn in Hpath. subst v0. left. exists d0. cbn. split; [done|lia].
  - cbn [graph_path] in Hpath. destruct Hpath as (-> & (w & Hedge) & Hrest).
    pose proof (build_graph_edges _ _ _ Hedge) as (_ & _ & Hw & Hwb). cbn in Hw, Hwb.
    pose proof (path_weight_nonneg P) as HP.
    cbn [path_weight length fst snd] in *. rewrite <- Hw.
    destruct (decide (v0 = output_fmt)) as [->|Hne].
    { left. exists d0. split; [done|lia]. }
    assert (Hcase : (exists c, lim = Some c /\ c <= d0)
                    \/ match lim with Some c => d0 < c | None => True end).
    { destruct lim as [c|]; [|by right].
      destruct (decide (c <= d0)); [left; eauto|right; lia]. }
    destruct Hcase as [(c & -> & Hc)|Hlim].
    { right. exists c. split; [done|lia]. }
    destruct (Hclosed v0 d0 Hd Hlim Hne ltac:(lia) x k w Hedge) as (dx & Hdx & Hdxle).
    destruct (IH x dx (cP + w) Hdx ltac:(lia) Hrest ltac:(lia))
      as [(dt & Hdt & Hdtle)|(c & Hc & Hcle)].
    + left. exists dt. split; [done|lia].
    + right. exists c. split; [done|lia].
Qed.

End Optimal.

Lemma links_nil_inv (src dst : string) (path : list step) :
  links src path dst -> src <> dst -> path <> [].
Proof. destruct path; [cbn; congruence|done]. Qed.

(** X10. The search is optimal over the paths it is allowed to walk:
    if the graph has a path of at most [max_steps] steps from the
    source to the target (and no direct converter),
    [find_conversion_path] returns a path, and its accumulated weight
    is at most the weight of that path. *)
Theorem search_is_optimal (reg : registry) (a b : string) (max_steps : Z)
    (P : list step) :
  lower a <> lower b ->
  dict_mem reg (make_key (lower a) (lower b)) = false ->
  graph_path reg (lower a) P (lower b) ->
  Z.of_nat (length P) <= max_steps ->
  let path := find_conversion_path reg a b max_steps in
  path <> [] /\ path_weight path <= path_weight P.
Proof.
  intros Hne Hmem HP Hlen path. subst path.
  unfold find_conversion_path, find_conversion_path_fuel.
  rewrite decide_False by done. rewrite Hmem.
  destruct (dijkstra_fuel_enough reg (lower a) (lower b) max_steps)
    as (st & Hloop & _).
  unfold initial in Hloop. rewrite Hloop.
  destruct (dijkstra_loop_closed reg (lower a) (lower b) max_steps
              (search_fuel reg max_steps) (initial (lower a)) st
              (initial_inv reg (lower a) max_steps)) as (Hinv & lim & Hclosed & Hlim);
    [|exact Hloop|].
  { intros v d Hd. left. unfold initial in *. cbn in *.
    apply lookup_singleton_Some in Hd as [<- <-]. left. }
  assert (Hdt : exists dt, dist st !! lower b = Some dt /\ dt <= path_weight P).
  { destruct (closed_path reg (lower b) max_steps st lim Hclosed P (lower a) 0 0
                (inv_source _ _ _ _ Hinv) ltac:(lia) HP ltac:(lia))
      as [(dt & Hdt & Hle)|(c & Hc & Hle)].
    - exists dt. split; [done|lia].
    - destruct (Hlim c Hc) as (dt & Hdt & Hle'). exists dt. split; [done|lia]. }
  destruct Hdt as (dt & Hdt & Hdtle).
  destruct (inv_dist _ _ _ _ Hinv _ _ Hdt) as [_ [Heq|[pk Hp]]]; [congruence|].
  rewrite Hp.
  destruct (rebuild_spec reg (lower a) max_steps st (rebuild_fuel st (lower b)) Hinv
              (lower b) dt [] Hdt) as (segs & Hr & Hlinks & _ & Hweight).
  { unfold rebuild_fuel. rewrite Hdt. cbn. lia. }
  rewrite Hr. cbn [app]. split.
  - apply (links_nil_inv (lower a) (lower b)); done.
  - rewrite path_weight_rev. lia.
Qed.

End OptimalityFacts.

(** ** Facts about path execution *)

Module ExecFacts.

Import Router Examples Invariants.

(** *** The two logs *)

Lemma NamedTemporaryFile_logs (suffix : string) (w : world) :
  let r := NamedTemporaryFile suffix w in
  invoked r.2 = invoked w
  /\ match r.1 with
     | Return name => created r.2 = created w ++ [name] /\ name ∈ files r.2
     | Raise _ => created r.2 = created w
     end.
Proof.
  unfold NamedTemporaryFile.
  destruct (mkstemp_inner TMP_MAX (tmp_seq w) suffix (files w)) as [[name n]|];
    cbn [fst snd invoked created files]; [|done].
  split; [done|]. split; [done|]. apply elem_of_union_l. by apply elem_of_singleton.
Qed.

(** A call of a converter: the entry it leaves in the log holds what
    the converter did, and the caller goes on with that, unpacked. *)
Lemma call_converter_logs (reg : registry) (key input_path output_path : string)
    (kw : kwargs) (w : world) :
  let r := call_converter reg key input_path output_path kw w in
  created r.2 = created w
  /\ ((dict_get reg key = None /\ invoked r.2 = invoked w /\ exists ex, r.1 = Raise ex)
      \/ (is_Some (dict_get reg key)
          /\ exists res,
               r.1 = unpack res
               /\ invoked r.2 = invoked w ++
                    [{| c_key := key; c_input := input_path; c_output := output_path;
                        c_result := res |}])).
Proof.
  unfold call_converter. destruct (dict_get reg key) as [c|]; cbn [fst snd].
  - destruct (run c input_path output_path kw (files w)) as [r f].
    cbn [fst snd created invoked]. split; [done|]. right. eauto.
  - split; [done|]. left. eauto.
Qed.

(** Neither the creation of a temporary nor a converter call changes
    what can be removed. *)
Lemma NamedTemporaryFile_unremovable (suffix : string) (w : world) :
  unremovable (NamedTemporaryFile suffix w).2 = unremovable w.
Proof.
  unfold NamedTemporaryFile. by destruct (mkstemp_inner _ _ _ _) as [[name n]|].
Qed.

Lemma call_converter_unremovable (reg : registry) (key input_path output_path : string)
    (kw : kwargs) (w : world) :
  unremovable (call_converter reg key input_path output_path kw w).2 = unremovable w.
Proof.
  unfold call_converter. destruct (dict_get reg key) as [c|]; [|done].
  by destruct (run c input_path output_path kw (files w)).
Qed.

(** *** The [finally] clause *)

Local Ltac by_membership x :=
  apply set_eq; intros x;
  repeat (rewrite elem_of_difference || rewrite elem_of_union
          || rewrite elem_of_singleton || rewrite elem_of_empty).

(** One round of the clause takes the file away unless its removal
    fails. *)
Lemma remove_temp_files (w : world) (p : string) :
  files (remove_temp w p) = files w ∖ ({[p]} ∖ unremovable w)
  /\ created (remove_temp w p) = created w
  /\ invoked (remove_temp w p) = invoked w
  /\ unremovable (remove_temp w p) = unremovable w.
Proof.
  unfold remove_temp, os_remove.
  destruct (decide (p ∈ files w)) as [Hp|Hp].
  - destruct (decide (p ∈ unremovable w)) as [Hu|Hu]; cbn.
    + split; [|done]. by_membership x.
      destruct (decide (x = p)) as [->|]; tauto.
    + split; [|done]. by_membership x.
      destruct (decide (x = p)) as [->|]; tauto.
  - split; [|done]. by_membership x.
    destruct (decide (x = p)) as [->|]; tauto.
Qed.

Lemma cleanup_files (temp_files : list string) (w : world) :
  files (cleanup temp_files w) = files w ∖ (list_to_set temp_files ∖ unremovable w)
  /\ created (cleanup temp_files w) = created w
  /\ invoked (cleanup temp_files w) = invoked w
  /\ unremovable (cleanup temp_files w) = unremovable w.
Proof.
  unfold cleanup. revert w.
  induction temp_files as [|p ps IH]; intros w; cbn [fold_left list_to_set].
  - split; [|done]. by_membership x. tauto.
  - destruct (IH (remove_temp w p)) as (-> & -> & -> & ->).
    destruct (remove_temp_files w p) as (-> & -> & -> & ->).
    split; [|done]. by_membership x.
    destruct (decide (x ∈ unremovable w)); tauto.
Qed.


(** *** The loop over the intermediate steps *)

Local Ltac empty_log :=
  repeat split; try done; try congruence; try (simpl; lia);
  try (intros ? ? Hk; by rewrite lookup_nil in Hk).

Lemma intermediate_steps_logs (reg : registry) (kw : kwargs) (steps : list step) :
  forall (i : nat) (cur : string) (temps : list string) (w : world),
    let r := intermediate_steps reg kw i steps cur temps w in
    exists new_temps log,
      r.1.2 = temps ++ new_temps
      /\ created r.2 = created w ++ new_temps
      /\ invoked r.2 = invoked w ++ log
      /\ log_follows steps i log r.1.1.
Proof.
  induction steps as [|[[src dst] key] rest IH]; intros i cur temps w r; subst r.
  - exists [], []. cbn. rewrite !app_nil_r. empty_log.
  - cbn [intermediate_steps].
    pose proof (NamedTemporaryFile_logs ("." +:+ dst) w) as Ht.
    destruct (NamedTemporaryFile ("." +:+ dst) w) as [[temp_path|ex] w1].
    2:{ cbn in Ht. destruct Ht as [Hi Hc]. exists [], []. cbn.
        rewrite !app_nil_r. empty_log. }
    cbn in Ht. destruct Ht as (Hi1 & Hc1 & _).
    pose proof (call_converter_logs reg key cur temp_path kw w1) as Hcall.
    destruct (call_converter reg key cur temp_path kw w1) as [rc w2].
    cbn [fst snd] in Hcall. destruct Hcall as [Hc2 Hcall].
    destruct Hcall as [(Hnone & Hi2 & ex & ->) | (Hsome & res & -> & Hi2)].
    { exists [temp_path], []. cbn. rewrite !app_nil_r. empty_log. }
    destruct res as [[[] result|value]|ex]; cbn [unpack].
    3-4: (eexists [temp_path], [_]; cbn [fst snd];
          (split; [done|]); (split; [congruence|]);
          (split; [by rewrite Hi2, Hi1|]); (split; [cbn; lia|]);
          (split; [|done]);
          intros [|k] e Hk; cbn in Hk; [|done];
          injection Hk as <-; exists src, dst, key; cbn;
          (split; [done|]); (split; [done|]); right; (split; [done|]);
          right; eauto).
    2:{ eexists [temp_path], [_]. cbn [fst snd].
        split; [done|]. split; [congruence|]. split; [by rewrite Hi2, Hi1|].
        split; [cbn; lia|]. split; [|done].
        intros [|k] e Hk; cbn in Hk; [|done].
        injection Hk as <-. exists src, dst, key. cbn.
        split; [done|]. split; [done|]. right. split; [done|]. left.
        split; [done|]. do 4 f_equal. lia. }
    specialize (IH (S i) temp_path (temps ++ [temp_path]) w2).
    cbn zeta in IH. destruct IH as (nt & log & Ht & Hc & Hi & Hlen & Hlog & Hdone & Hnt).
    eexists (temp_path :: nt), (_ :: log).
    split; [by rewrite Ht, <- app_assoc|].
    split; [by rewrite Hc, Hc2, Hc1, <- app_assoc|].
    split; [by rewrite Hi, Hi2, Hi1, <- app_assoc|].
    split; [cbn; lia|]. split.
    + intros [|k] e Hk; cbn in Hk.
      * injection Hk as <-. exists src, dst, key. cbn. eauto.
      * destruct (Hlog k e Hk) as (s & d' & ky & Hs & Hky & Hcase).
        exists s, d', ky. cbn. split; [done|]. split; [done|].
        destruct Hcase as [?|[Hl Hcase]]; [by left|]. right.
        split; [by rewrite Hl|].
        destruct Hcase as [[? Hr]|?]; [left|by right].
        split; [done|]. rewrite Hr. do 4 f_equal. lia.
    + split; [|done]. intros c Hc'. destruct (Hdone c Hc') as [Hl Hall].
      split; [cbn; by rewrite Hl|]. by constructor.
Qed.


(** *** A whole multi-step run *)

Lemma multi_step_body_logs (reg : registry) (path : list step)
    (input_path output_path : string) (kw : kwargs) (w : world) :
  path <> [] ->
  let r := multi_step_body reg path input_path output_path kw w in
  exists log,
    created r.2 = created w ++ r.1.2
    /\ invoked r.2 = invoked w ++ log
    /\ run_follows path log r.1.1.
Proof.
  intros Hne r. subst r.
  destruct (exists_last Hne) as (init & [[src dst] key] & Hpath).
  assert (Hrl : removelast path = init) by (rewrite Hpath; apply removelast_last).
  assert (Hla : last path = Some (src, dst, key)) by (rewrite Hpath; apply last_snoc).
  unfold multi_step_body. rewrite Hrl, Hla.
  pose proof (intermediate_steps_logs reg kw init 0 input_path [] w) as H.
  cbn zeta in H. destruct H as (nt & log & Ht & Hc & Hi & Hlen & Hlog & Hdone & Hnt).
  destruct (intermediate_steps reg kw 0 init input_path [] w) as [[res temps] w1].
  cbn [fst snd] in *. subst temps. cbn [app] in *.
  assert (Hplen : length path = S (length init))
    by (rewrite Hpath, length_app; simpl; lia).
  assert (Hinit : forall k e, log !! k = Some e ->
            exists s d ky,
              path !! k = Some (s, d, ky) /\ c_key e = ky
              /\ (c_ok e = Some true
                   \/ (length log = S k
                        /\ ((c_ok e = Some false
                              /\ res = inl (Return (false,
                                    failure_msg (length path) (S k) s d)))
                             \/ (c_ok e = None /\ exists ex, res = inl (Raise ex)))))).
  { intros k e Hk.
    destruct (Hlog k e Hk) as (s & d & ky & Hs & Hky & Hcase).
    exists s, d, ky. split; [rewrite Hpath; by apply lookup_app_l_Some|].
    split; [done|].
    destruct Hcase as [?|[Hl Hcase]]; [by left|right]. split; [done|].
    destruct Hcase as [[? ->]|?]; [left|by right]. split; [done|].
    unfold failure_msg. rewrite decide_False; [do 4 f_equal; lia|].
    apply lookup_lt_Some in Hs. lia. }
  destruct res as [r|cur].
  - exists log. cbn [fst snd].
    split; [done|]. split; [done|]. split; [lia|]. split.
    + intros k e Hk. destruct (Hinit k e Hk) as (s & d & ky & Hs & Hky & Hcase).
      exists s, d, ky. split; [done|]. split; [done|]. intros Hf.
      destruct Hcase as [?|[Hl [[_ Hr]|[? _]]]]; [congruence| |congruence].
      split; [done|]. congruence.
    + intros p ->. by destruct (Hnt p).
  - destruct (Hdone cur eq_refl) as [Hl Hall].
    pose proof (call_converter_logs reg key cur output_path kw w1) as Hcall.
    destruct (call_converter reg key cur output_path kw w1) as [rc w2].
    cbn [fst snd] in Hcall. destruct Hcall as [Hc2 Hcall].
    assert (Hok : forall k e, log !! k = Some e ->
              exists s d ky, path !! k = Some (s, d, ky) /\ c_key e = ky
                /\ c_ok e = Some true).
    { intros k e Hk. destruct (Hinit k e Hk) as (s & d & ky & Hs & Hky & _).
      exists s, d, ky. split; [done|]. split; [done|].
      rewrite Forall_lookup in Hall. by apply (Hall k). }
    destruct Hcall as [(Hnone & Hi2 & ex & ->) | (Hsome & cres & -> & Hi2)].
    { exists log. cbn [fst snd].
      split; [congruence|]. split; [congruence|].
      split; [lia|]. split; [|done].
      intros k e Hk. destruct (Hok k e Hk) as (s & d & ky & Hs & Hky & Htrue).
      exists s, d, ky. split; [done|]. split; [done|]. congruence. }
    set (e_last := {| c_key := key; c_input := cur; c_output := output_path;
                      c_result := cres |}) in *.
    assert (Hfull : forall k e, (log ++ [e_last]) !! k = Some e ->
              (log !! k = Some e /\ (k < length log)%nat)
              \/ (k = length init /\ e = e_last)).
    { intros k e Hk. apply lookup_app_Some in Hk as [Hk|[Hge Hk]].
      - left. split; [done|]. by apply lookup_lt_Some in Hk.
      - right. destruct (k - length log)%nat eqn:Hd; cbn in Hk; [|done].
        split; [lia|congruence]. }
    assert (Hlast : path !! length init = Some (src, dst, key)).
    { rewrite Hpath. by apply list_lookup_middle. }
    exists (log ++ [e_last]).
    assert (Hll : length (log ++ [e_last]) = length path)
      by (rewrite length_app; simpl; lia).
    destruct cres as [[[] result_path|value]|ex];
      cbn [fst snd unpack] in *;
      (split; [congruence|]);
      (split; [by rewrite Hi2, Hi, <- app_assoc|]); (split; [lia|]); split.
    + intros k e Hk. destruct (Hfull k e Hk) as [[Hk' _]|[-> ->]].
      * destruct (Hok k e Hk') as (s & d & ky & Hs & Hky & Htrue).
        exists s, d, ky. split; [done|]. split; [done|]. congruence.
      * exists src, dst, key. split; [done|]. split; [done|]. done.
    + intros p _. split; [done|]. apply Forall_app. split; [done|].
      by constructor.
    + intros k e Hk. destruct (Hfull k e Hk) as [[Hk' _]|[-> ->]].
      * destruct (Hok k e Hk') as (s & d & ky & Hs & Hky & Htrue).
        exists s, d, ky. split; [done|]. split; [done|]. congruence.
      * exists src, dst, key. split; [done|]. split; [done|]. intros _.
        split; [lia|]. unfold failure_msg. by rewrite decide_True by lia.
    + done.
    + intros k e Hk. destruct (Hfull k e Hk) as [[Hk' _]|[-> ->]].
      * destruct (Hok k e Hk') as (s & d & ky & Hs & Hky & Htrue).
        exists s, d, ky. split; [done|]. split; [done|]. congruence.
      * exists src, dst, key. split; [done|]. split; [done|]. done.
    + done.
    + intros k e Hk. destruct (Hfull k e Hk) as [[Hk' _]|[-> ->]].
      * destruct (Hok k e Hk') as (s & d & ky & Hs & Hky & Htrue).
        exists s, d, ky. split; [done|]. split; [done|]. congruence.
      * exists src, dst, key. split; [done|]. split; [done|]. done.
    + done.
Qed.


Lemma convert_with_path_multi (reg : registry) (input_path output_path : string)
    (path : list step) (fi fo : option string) (kw : kwargs) (w : world) :
  (2 <= length path)%nat ->
  convert_with_path reg input_path output_path (Some path) fi fo kw w =
    let r := multi_step_body reg path input_path output_path kw w in
    (r.1.1, cleanup r.1.2 r.2).
Proof.
  intros Hlen. destruct path as [|[[s1 d1] k1] [|s2 rest]]; simpl in Hlen; try lia.
  unfold convert_with_path. cbn [default from_option id].
  cbn zeta.
  destruct (multi_step_body _ _ _ _ _ _) as [[r t] w1].
  reflexivity.
Qed.

(** A run changes nothing about what can be removed. *)
Lemma intermediate_steps_unremovable (reg : registry) (kw : kwargs) (steps : list step) :
  forall (i : nat) (cur : string) (temps : list string) (w : world),
    unremovable (intermediate_steps reg kw i steps cur temps w).2 = unremovable w.
Proof.
  induction steps as [|[[src dst] key] rest IH]; intros i cur temps w; [done|].
  cbn [intermediate_steps].
  pose proof (NamedTemporaryFile_unremovable ("." +:+ dst) w) as Ht.
  destruct (NamedTemporaryFile ("." +:+ dst) w) as [[temp_path|ex] w1];
    cbn [fst snd] in *; [|done].
  pose proof (call_converter_unremovable reg key cur temp_path kw w1) as Hc.
  destruct (call_converter reg key cur temp_path kw w1) as [[[[] result]|ex] w2];
    cbn [fst snd] in *; [|congruence..].
  rewrite IH. congruence.
Qed.

Lemma multi_step_body_unremovable (reg : registry) (path : list step)
    (input_path output_path : string) (kw : kwargs) (w : world) :
  unremovable (multi_step_body reg path input_path output_path kw w).2 = unremovable w.
Proof.
  unfold multi_step_body.
  pose proof (intermediate_steps_unremovable reg kw (removelast path) 0 input_path [] w)
    as Hi.
  destruct (intermediate_steps reg kw 0 (removelast path) input_path [] w)
    as [[[r|cur] temps] w1]; cbn [fst snd] in *; [done|].
  destruct (last path) as [[[src dst] key]|]; [|done].
  pose proof (call_converter_unremovable reg key cur output_path kw w1) as Hc.
  destruct (call_converter reg key cur output_path kw w1) as [[[[] result]|ex] w2];
    cbn [fst snd] in *; congruence.
Qed.

Lemma convert_with_path_unremovable (reg : registry) (input_path output_path : string)
    (conversion_path : option (list step)) (fi fo : option string)
    (kw : kwargs) (w : world) :
  unremovable (convert_with_path reg input_path output_path conversion_path fi fo kw w).2
  = unremovable w.
Proof.
  unfold convert_with_path.
  match goal with |- context [match ?p with [] => _ | _ => _ end] =>
    destruct p as [|[[s1 d1] k1] [|s2 rest]] end.
  - done.
  - pose proof (call_converter_unremovable reg k1 input_path output_path kw w) as Hc.
    by destruct (call_converter reg k1 input_path output_path kw w)
      as [[[[] result]|ex] w1].
  - pose proof (multi_step_body_unremovable reg ((s1, d1, k1) :: s2 :: rest)
                  input_path output_path kw w) as Hm.
    destruct (multi_step_body _ _ _ _ _ _) as [[r t] w1]. cbn [fst snd] in *.
    destruct (cleanup_files t w1) as (_ & _ & _ & ->). done.
Qed.

Lemma convert_unremovable (reg : registry) (input_path output_path : string)
    (fi fo : option string) (kw : kwargs) (w : world) :
  unremovable (convert reg input_path output_path fi fo kw w).2 = unremovable w.
Proof.
  unfold convert. destruct (decide _).
  - unfold copy2. by repeat destruct (decide _).
  - apply convert_with_path_unremovable.
Qed.

(** What [convert_with_path] does to the log of temporaries, for the
    path it ends up running: a temporary that is left is one whose
    removal failed. *)
Lemma run_path_temporaries (reg : registry) (input_path output_path : string)
    (path : list step) (fi fo : option string) (kw : kwargs) (w : world) :
  path <> [] ->
  let r := convert_with_path reg input_path output_path (Some path) fi fo kw w in
  exists temps,
    created r.2 = created w ++ temps
    /\ forall p, p ∈ temps -> p ∈ files r.2 -> p ∈ unremovable w.
Proof.
  intros Hne r. subst r.
  destruct (decide (2 <= length path)%nat) as [Hlen|Hlen].
  - rewrite convert_with_path_multi by done. cbn zeta.
    destruct (multi_step_body_logs reg path input_path output_path kw w Hne)
      as (log & Hc & _).
    pose proof (multi_step_body_unremovable reg path input_path output_path kw w) as Hu.
    destruct (multi_step_body reg path input_path output_path kw w) as [[r t] w1].
    cbn [fst snd] in *. exists t.
    destruct (cleanup_files t w1) as (Hf & Hcr & _).
    split; [congruence|]. intros p Hp. rewrite Hf, Hu.
    intros [_ Hn]%elem_of_difference.
    destruct (decide (p ∈ unremovable w)) as [|Hno]; [done|].
    exfalso. apply Hn. apply elem_of_difference. split; [|done].
    by apply elem_of_list_to_set.
  - destruct path as [|[[s1 d1] k1] [|s2 rest]]; [done| |simpl in Hlen; lia].
    exists []. unfold convert_with_path. cbn [default from_option id].
    pose proof (call_converter_logs reg k1 input_path output_path kw w) as Hcall.
    destruct (call_converter reg k1 input_path output_path kw w) as [[[[] ?]|?] w1];
      cbn [fst snd] in *; destruct Hcall as [-> _];
      (split; [by rewrite app_nil_r|]); intros p Hp; by apply elem_of_nil in Hp.
Qed.

(** C6, as the code has it.  Whatever path [convert_with_path] runs
    and however the run ends (success, a failed step, or an exception
    raised by a converter, by a registry lookup or by the creation of
    a temporary file), a temporary file created during the call that
    is still on the disk when the call returns is one that [os.remove]
    could not remove: the handler of the [finally] clause logged the
    failure and went on.  Every other temporary is gone. *)
Theorem temporaries_removed_unless_removal_fails (reg : registry)
    (input_path output_path : string)
    (conversion_path : option (list step)) (fi fo : option string)
    (kw : kwargs) (w : world) :
  let r := convert_with_path reg input_path output_path conversion_path fi fo kw w in
  exists temps,
    created r.2 = created w ++ temps
    /\ forall p, p ∈ temps -> p ∈ files r.2 -> p ∈ unremovable w.
Proof.
  intros r. subst r.
  assert (Hnil : forall p : list step, p = [] ->
            exists temps : list string,
              created w = created w ++ temps
              /\ forall q, q ∈ temps -> q ∈ files w -> q ∈ unremovable w).
  { intros _ _. exists []. split; [by rewrite app_nil_r|].
    intros q Hq. by apply elem_of_nil in Hq. }
  assert (Hsome : forall p : list step,
            convert_with_path reg input_path output_path conversion_path fi fo kw w
            = convert_with_path reg input_path output_path
                (Some (match default [] conversion_path,
                             (truthy fi && truthy fo)%bool with
                       | [], true =>
                           find_conversion_path reg (default EmptyString fi)
                             (default EmptyString fo) MAX_STEPS_DEFAULT
                       | q, _ => q
                       end)) None None kw w
            \/ (convert_with_path reg input_path output_path conversion_path fi fo kw w).2 = w).
  { intros _. unfold convert_with_path. cbn [default truthy andb].
    destruct (default [] conversion_path) as [|s1 rest] eqn:Hd.
    - destruct (truthy fi && truthy fo)%bool.
      + destruct (find_conversion_path reg (default EmptyString fi)
                    (default EmptyString fo) MAX_STEPS_DEFAULT); [by right|by left].
      + by right.
    - by left. }
  destruct (Hsome []) as [Heq|Hw].
  - rewrite Heq.
    match goal with |- context [Some ?p] => destruct (decide (p = [])) as [Hp|Hp] end.
    + rewrite Hp. unfold convert_with_path. cbn. by apply (Hnil []).
    + by apply run_path_temporaries.
  - rewrite Hw. by apply (Hnil []).
Qed.

(** C6 as stated fails when a removal fails.  In the end-to-end
    scenario, with a temporary [.brep] file that cannot be removed
    once it is there, the run succeeds, and the temporary file it
    created is still on the disk when it returns. *)
Lemma unremovable_temporary_stays :
  let r := convert_with_path step_brep_stl "/in/model.step" "/out/model.stl"
             (Some two_steps) None None [] disk_held in
  r.1 = Return (true, "/out/model.stl")
  /\ created r.2 = ["/tmp/tmp0.brep"]
  /\ "/tmp/tmp0.brep" ∈ files r.2.
Proof. vm_compute. repeat split; by apply bool_decide_unpack. Qed.

(** The end-to-end scenario with a failing second converter: one
    temporary [.brep] file was created, and it is gone afterwards;
    neither does the output file exist. *)
Example failing_run_leaves_nothing :
  let r := convert step_brep_stl_failing "/in/model.step" "/out/model.stl"
             None None [] disk0 in
  r.1 = Return (false, last_failed_msg "brep" "stl")
  /\ created r.2 = ["/tmp/tmp0.brep"]
  /\ elements (files r.2) = ["/in/model.step"].
Proof. vm_compute. done. Qed.

Example successful_run_leaves_output :
  let r := convert step_brep_stl "/in/model.step" "/out/model.stl"
             None None [] disk0 in
  r.1 = Return (true, "/out/model.stl")
  /\ created r.2 = ["/tmp/tmp0.brep"]
  /\ ("/tmp/tmp0.brep" ∉ files r.2)
  /\ ("/out/model.stl" ∈ files r.2)
  /\ map c_key (invoked r.2) = ["step_to_brep"; "brep_to_stl"].
Proof. vm_compute. repeat split; try done; by apply bool_decide_unpack. Qed.


(** C7, as the code has it.  In a run of a path of two or more steps,
    the k-th converter call is the call of the k-th step; if that call
    reports failure it is the last call of the run (no later step's
    converter is invoked) and the result is the failure value naming
    the step's source and destination formats.  The result carries the
    step's index, counted from 1, when the failed step is not the last
    one; for the last step it says that the last step failed and
    carries no index. *)
Theorem step_failure_aborts_run (reg : registry) (input_path output_path : string)
    (path : list step) (fi fo : option string) (kw : kwargs) (w : world) :
  (2 <= length path)%nat ->
  let r := convert_with_path reg input_path output_path (Some path) fi fo kw w in
  exists log,
    invoked r.2 = invoked w ++ log
    /\ (length log <= length path)%nat
    /\ forall k e, log !! k = Some e ->
         exists src dst key,
           path !! k = Some (src, dst, key) /\ c_key e = key
           /\ (c_ok e = Some false ->
                length log = S k
                /\ r.1 = Return (false,
                           if decide (S k = length path)
                           then last_failed_msg src dst
                           else step_failed_msg (S k) src dst)).
Proof.
  intros Hlen r. subst r. rewrite convert_with_path_multi by done. cbn zeta.
  assert (Hne : path <> []) by (intros ->; simpl in Hlen; lia).
  destruct (multi_step_body_logs reg path input_path output_path kw w Hne)
    as (log & _ & Hi & Hl & Hlog & _).
  destruct (multi_step_body reg path input_path output_path kw w) as [[r t] w1].
  cbn [fst snd] in *. exists log.
  destruct (cleanup_files t w1) as (_ & _ & -> & _).
  split; [done|]. split; [done|]. exact Hlog.
Qed.

Lemma step_failure_aborts_run_witness :
  let r := convert_with_path step_brep_stl_failing "/in/model.step"
             "/out/model.stl" (Some two_steps) None None [] disk0 in
  exists log,
    invoked r.2 = invoked disk0 ++ log
    /\ (length log <= length two_steps)%nat
    /\ forall k e, log !! k = Some e ->
         exists src dst key,
           two_steps !! k = Some (src, dst, key) /\ c_key e = key
           /\ (c_ok e = Some false ->
                length log = S k
                /\ r.1 = Return (false,
                           if decide (S k = length two_steps)
                           then last_failed_msg src dst
                           else step_failed_msg (S k) src dst)).
Proof.
  apply (step_failure_aborts_run step_brep_stl_failing "/in/model.step"
           "/out/model.stl" two_steps None None [] disk0).
  simpl. lia.
Defined.

(** C7 as stated fails for the last step: its failure value carries no
    index.  A failure of step 2 of a two-step path and a failure of
    step 3 of a three-step path, both from brep to stl, give the same
    result. *)
Lemma last_step_failure_has_no_index :
  let r2 := convert_with_path step_brep_stl_failing "/in/model.step"
              "/out/model.stl" (Some two_steps) None None [] disk0 in
  let r3 := convert_with_path three_step_failing "/in/model.obj"
              "/out/model.stl" (Some three_steps) None None [] disk1 in
  map c_ok (invoked r2.2) = [Some true; Some false]
  /\ map c_ok (invoked r3.2) = [Some true; Some true; Some false]
  /\ r2.1 = Return (false, "最后一步转换失败: brep -> stl")
  /\ r3.1 = r2.1.
Proof. vm_compute. done. Qed.

(** A failure before the last step does carry the index. *)
Example middle_step_failure_has_index :
  (convert_with_path
     (load_converters [good "obj" "step"; bad "step" "brep"; good "brep" "stl"])
     "/in/model.obj" "/out/model.stl" (Some three_steps) None None [] disk1).1
  = Return (false, "转换路径中的步骤 2 失败: step -> brep").
Proof. vm_compute. done. Qed.

(** *** [convert] when no path is found *)

Lemma convert_unroutable (reg : registry) (input_path output_path : string)
    (fi fo : option string) (kw : kwargs) (w : world) :
  let input_fmt :=
    lower (if truthy fi then default EmptyString fi else extension input_path) in
  let output_fmt :=
    lower (if truthy fo then default EmptyString fo else extension output_path) in
  input_fmt <> output_fmt ->
  find_conversion_path reg input_fmt output_fmt MAX_STEPS_DEFAULT = [] ->
  convert reg input_path output_path fi fo kw w
  = (Return (false, no_path_msg None None), w).
Proof.
  intros input_fmt output_fmt Hne Hnil. unfold convert.
  fold input_fmt output_fmt. rewrite decide_False by done.
  by rewrite Hnil.
Qed.

(** C5 at a failing input.  No converter leads from step to xyz (nor
    from step to abc), [find_conversion_path] returns the empty list,
    and [convert] returns a failure value without raising; but the
    message names None as both formats, whatever the two formats are. *)
Theorem unroutable_result_names_no_format :
  find_conversion_path step_brep_stl "step" "xyz" MAX_STEPS_DEFAULT = []
  /\ convert step_brep_stl "/in/model.step" "/out/model.xyz" None None [] disk0
     = (Return (false, "无法找到从 None 到 None 的转换路径"), disk0)
  /\ convert step_brep_stl "/in/model.step" "/out/model.abc"
       (Some "step") (Some "abc") [] disk0
     = (Return (false, "无法找到从 None 到 None 的转换路径"), disk0).
Proof.
  split; [by vm_compute|]. split.
  - by apply convert_unroutable.
  - by apply convert_unroutable.
Qed.

(** *** [convert] between files of the same format *)

(** The file is copied; a copy onto itself, or to a place that cannot
    be written, is reported as a failure, not raised. *)
Example same_format_is_copied :
  let w := {| files := {["/in/model.stl"]}; tmp_seq := 0; invoked := [];
              created := []; unremovable := ∅;
              unwritable := {["/nowhere/model.stl"]} |} in
  (convert step_brep_stl "/in/model.stl" "/out/model.STL" None None [] w).1
  = Return (true, "/out/model.STL")
  /\ (convert step_brep_stl "/in/model.stl" "/in/model.stl" None None [] w).1
     = Return (false,
         "复制文件失败: '/in/model.stl' and '/in/model.stl' are the same file")
  /\ (convert step_brep_stl "/in/model.stl" "/nowhere/model.stl" None None [] w).1
     = Return (false,
         "复制文件失败: [Errno 2] No such file or directory: '/nowhere/model.stl'")
  /\ (convert step_brep_stl "/in/other.stl" "/out/model.stl" None None [] w).1
     = Return (false,
         "复制文件失败: [Errno 2] No such file or directory: '/in/other.stl'").
Proof. vm_compute. done. Qed.

(** Called directly with the two formats, [convert_with_path] does name
    them. *)
Example convert_with_path_names_formats :
  convert_with_path step_brep_stl "/in/model.step" "/out/model.xyz" None
    (Some "step") (Some "xyz") [] disk0
  = (Return (false, "无法找到从 step 到 xyz 的转换路径"), disk0).
Proof. by vm_compute. Qed.

End ExecFacts.

(** ** Facts about the task store *)

Module TaskStoreFacts.

Import TaskStore Examples Invariants.

Lemma int_of_str_of_int (n : Z) : int_of_str (str_of_int n) = Some n.
Proof.
  unfold int_of_str, str_of_int.
  rewrite NilZero.isi.
  - simpl. by rewrite DecimalZ.of_to.
  - destruct n; simpl; try discriminate.
    intros H. injection H as H. by apply Unsigned.to_uint_nonnil in H.
  - destruct n; simpl; try discriminate.
    intros H. injection H as H. by apply Unsigned.to_uint_nonnil in H.
Qed.

(** Reading a key that was just written, at the same instant. *)
Lemma live_set_key (d : redis) (now : Z) (key : string) (h : hash) :
  live (set_key d key h) now key = if expired h now then None else Some h.
Proof. unfold live, set_key. simpl. by rewrite lookup_insert_eq. Qed.

Lemma live_set_key_ne (d : redis) (now : Z) (key key' : string) (h : hash) :
  key <> key' -> live (set_key d key h) now key' = live d now key'.
Proof. intros Hne. unfold live, set_key. simpl. by rewrite lookup_insert_ne. Qed.

Lemma live_not_expired (d : redis) (now : Z) (key : string) (h : hash) :
  live d now key = Some h -> expired h now = false.
Proof.
  unfold live. destruct (keyspace d !! key) as [h'|]; [|done].
  destruct (expired h' now) eqn:He; [done|]. by intros [= <-].
Qed.

Lemma live_hset (d : redis) (now : Z) (key : string) (m : gmap string string) :
  live (hset d now key m) now key =
  Some match live d now key with
       | Some h => {| fields := m ∪ fields h; expire_at := expire_at h |}
       | None => {| fields := m; expire_at := None |}
       end.
Proof.
  unfold hset. destruct (live d now key) as [h|] eqn:Hl.
  - rewrite live_set_key. apply live_not_expired in Hl.
    unfold expired in *. simpl. by rewrite Hl.
  - by rewrite live_set_key.
Qed.


(** The claim script, case by case. *)
Lemma claim_won (d : redis) (now : Z) (task_id : string) :
  hget d now (task_key task_id) "status" = Some TASK_QUEUED ->
  claim_task_with_lua d now task_id =
    (true, hset d now (task_key task_id) {[ "status" := TASK_PROCESSING ]}).
Proof.
  intros H. unfold claim_task_with_lua, CLAIM_TASK_SCRIPT.
  rewrite H. by rewrite bool_decide_eq_true_2.
Qed.

Lemma claim_lost (d : redis) (now : Z) (task_id : string) :
  hget d now (task_key task_id) "status" <> Some TASK_QUEUED ->
  claim_task_with_lua d now task_id = (false, d).
Proof.
  intros H. unfold claim_task_with_lua, CLAIM_TASK_SCRIPT.
  by rewrite bool_decide_eq_false_2.
Qed.

(** Once the stored status is not [QUEUED], every later attempt loses
    and leaves the store alone. *)
Lemma hget_stored (d : redis) (now : Z) (key : string) :
  hget d now key "status" = None \/ hget d now key "status" = stored_status d key.
Proof.
  unfold hget, live, stored_status.
  destruct (keyspace d !! key) as [h|]; simpl; [|by left].
  destruct (expired h now); [by left|by right].
Qed.

Lemma claim_attempts_lost (times : list Z) (d : redis) (task_id : string) :
  stored_status d (task_key task_id) <> Some TASK_QUEUED ->
  claim_attempts d times task_id = (replicate (length times) false, d).
Proof.
  intros Hs. induction times as [|t times IH]; [done|].
  simpl. rewrite claim_lost.
  - by rewrite IH.
  - destruct (hget_stored d t (task_key task_id)) as [-> | ->]; done.
Qed.

Lemma stored_status_hset (d : redis) (now : Z) (key v : string) :
  stored_status (hset d now key {[ "status" := v ]}) key = Some v.
Proof.
  unfold stored_status, hset.
  destruct (live d now key) as [h|]; simpl; rewrite lookup_insert_eq; simpl.
  - by rewrite lookup_union_l', lookup_singleton_eq; [|rewrite lookup_singleton_eq].
  - by rewrite lookup_singleton_eq.
Qed.

Lemma claim_attempts_first_wins (d : redis) (now : Z) (times : list Z)
    (task_id : string) :
  hget d now (task_key task_id) "status" = Some TASK_QUEUED ->
  (claim_attempts d (now :: times) task_id).1
  = true :: replicate (length times) false.
Proof.
  intros Hq. cbn [claim_attempts]. rewrite (claim_won _ _ _ Hq).
  rewrite claim_attempts_lost; [done|].
  by rewrite stored_status_hset.
Qed.

Lemma filter_true_replicate_false (n : nat) :
  filter (eq true) (replicate n false) = [].
Proof. induction n as [|n IH]; [done|]. simpl. by rewrite filter_cons_False. Qed.

(** C1. [claim_task_with_lua] is one read-modify-write step of the
    store.  It returns true exactly when the status read is [QUEUED],
    and then the new store is the old one with [PROCESSING] written; it
    returns false, changing nothing, for any other status and when the
    record does not exist.  Of any number of attempts on a task that
    is [QUEUED] at the first of them, exactly one returns true. *)
Theorem claim_is_compare_and_set (d : redis) (now : Z) (times : list Z)
    (task_id : string) :
  let key := task_key task_id in
  let won := (claim_task_with_lua d now task_id).1 in
  let d' := (claim_task_with_lua d now task_id).2 in
  (won = true <-> hget d now key "status" = Some TASK_QUEUED)
  /\ (won = true ->
       d' = hset d now key {[ "status" := TASK_PROCESSING ]}
       /\ hget d' now key "status" = Some TASK_PROCESSING)
  /\ (won = false -> d' = d)
  /\ (exists_ d now key = false -> won = false /\ d' = d)
  /\ (hget d now key "status" = Some TASK_QUEUED ->
       length (filter (eq true) (claim_attempts d (now :: times) task_id).1) = 1%nat).
Proof.
  intros key won d'. subst key won d'.
  destruct (decide (hget d now (task_key task_id) "status" = Some TASK_QUEUED))
    as [Hq|Hq].
  - rewrite (claim_won _ _ _ Hq). cbn [fst snd].
    assert (Hlive : exists h, live d now (task_key task_id) = Some h).
    { unfold hget in Hq. destruct (live d now (task_key task_id)); [eauto|done]. }
    destruct Hlive as [h Hlive].
    split; [done|]. split; [|split; [done|split]].
    + intros _. split; [done|].
      unfold hget. rewrite live_hset, Hlive. simpl.
      by rewrite lookup_union_l', lookup_singleton_eq; [|rewrite lookup_singleton_eq].
    + unfold exists_. by rewrite Hlive.
    + intros _. rewrite (claim_attempts_first_wins _ _ _ _ Hq).
      rewrite filter_cons_True by done. simpl.
      by rewrite filter_true_replicate_false.
  - rewrite (claim_lost _ _ _ Hq). cbn [fst snd].
    split; [split; [done|by intros ?]|]. split; [done|]. split; [done|].
    split; [done|]. by intros ?.
Qed.

Example three_claims :
  (claim_attempts db1 [1001; 1002; 1003] task1).1 = [true; false; false].
Proof. vm_compute. reflexivity. Qed.

(** The task created at instant 1000 can still be claimed at 1300, the
    instant of its expiry, and no longer at 1301. *)
Example claim_at_expiry :
  (claim_attempts db1 [1300] task1).1 = [true].
Proof. vm_compute. reflexivity. Qed.

Example claim_after_expiry :
  (claim_attempts db1 [1301] task1).1 = [false].
Proof. vm_compute. reflexivity. Qed.


(** *** [update_task_status] *)

Lemma exists_live (d : redis) (now : Z) (key : string) :
  exists_ d now key = true <-> is_Some (live d now key).
Proof.
  unfold exists_. destruct (live d now key) as [h|].
  - split; [eauto | done].
  - split; [done | by intros [? ?]].
Qed.

Lemma update_missing (d : redis) (now : Z) (task_id status : string)
    (extra : gmap string string) :
  exists_ d now (task_key task_id) = false ->
  TaskStore.update_task_status d now task_id status extra = (false, d).
Proof. intros H. unfold TaskStore.update_task_status. by rewrite H. Qed.

Lemma update_present (d : redis) (now : Z) (task_id status : string)
    (extra : gmap string string) (h : hash) :
  live d now (task_key task_id) = Some h ->
  TaskStore.update_task_status d now task_id status extra =
    (true,
     set_key d (task_key task_id)
       {| fields :=
            (extra ∪ {[ "status" := status; "updated_at" := str_of_float now ]})
            ∪ fields h;
          expire_at := expire_at h |}).
Proof.
  intros H. unfold TaskStore.update_task_status, exists_, hset. by rewrite H.
Qed.

(** C9, as the code has it.  On a record that exists,
    [update_task_status] returns true and merges the status, the fresh
    [updated_at] and the additional fields into the record (an
    additional field wins over a field of the same name), keeps every
    other field and every other key, and leaves the instant of expiry
    as it was: the lifetime set at creation is neither extended nor
    removed.  On a record that does not exist (never created, or
    expired) it returns false and changes nothing. *)
Theorem update_status_merges_keeps_expiry (d : redis) (now : Z)
    (task_id status : string) (extra : gmap string string) :
  let key := task_key task_id in
  let r := TaskStore.update_task_status d now task_id status extra in
  (exists_ d now key = false -> r = (false, d))
  /\ (forall h, live d now key = Some h ->
        r.1 = true
        /\ (exists h', live r.2 now key = Some h'
             /\ expire_at h' = expire_at h
             /\ (forall f v, extra !! f = Some v -> fields h' !! f = Some v)
             /\ (extra !! "status" = None -> fields h' !! "status" = Some status)
             /\ (extra !! "updated_at" = None ->
                  fields h' !! "updated_at" = Some (str_of_float now))
             /\ (forall f, extra !! f = None -> f <> "status" -> f <> "updated_at" ->
                  fields h' !! f = fields h !! f))
        /\ (forall k, k <> key -> keyspace r.2 !! k = keyspace d !! k)
        /\ task_queue r.2 = task_queue d).
Proof.
  intros key r. subst key r. split.
  - apply update_missing.
  - intros h Hl. rewrite (update_present _ _ _ _ _ _ Hl). cbn [fst snd].
    split; [done|]. split.
    + eexists. split.
      * rewrite live_set_key. apply live_not_expired in Hl.
        unfold expired in *. cbn [expire_at]. by rewrite Hl.
      * cbn [fields expire_at]. split; [done|]. split; [|split; [|split]].
        -- intros f v Hf. apply lookup_union_Some_l. by apply lookup_union_Some_l.
        -- intros Hs. apply lookup_union_Some_l.
           rewrite lookup_union_r by done. by simplify_map_eq.
        -- intros Hs. apply lookup_union_Some_l.
           rewrite lookup_union_r by done. by simplify_map_eq.
        -- intros f Hf Hs Hu. rewrite lookup_union_r; [done|].
           rewrite lookup_union_r by done. by simplify_map_eq.
    + split; [|done]. intros k Hk. unfold set_key. cbn [keyspace].
      by rewrite lookup_insert_ne.
Qed.

(** C9 as stated fails: an update made while the record is alive does
    not refresh its lifetime.  The task created at instant 1000 expires
    at 1300; after an update at 1100 it still expires at 1300, not at
    1100 + 300, and is gone at 1301. *)
Lemma update_does_not_refresh_ttl :
  let r := TaskStore.update_task_status db1 1100 task1 TASK_PROCESSING ∅ in
  exists_ db1 1100 (task_key task1) = true
  /\ r.1 = true
  /\ (expire_at <$> keyspace r.2 !! task_key task1) = Some (Some 1300)
  /\ (expire_at <$> keyspace r.2 !! task_key task1) <> Some (Some (1100 + TASK_TTL))
  /\ exists_ r.2 1301 (task_key task1) = false.
Proof. vm_compute. repeat split; congruence. Qed.

(** *** [requeue_task] *)

(** C3, as the code has it.  For every existing record that has its
    [input_file] and [output_format] fields and a readable retry count
    [n] (absent counts as 0), [requeue_task] returns true, writes
    [QUEUED] as the status and [n + 1] as the retry count and pushes
    the task on the queue, whatever the status and the retry count
    were: there is no retry ceiling and no terminal status. *)
Theorem requeue_is_unconditional (d : redis) (now : Z) (task_id : string)
    (info : gmap string string) (input_file output_format : string) (n : Z) :
  get_task_status d now task_id = Some info ->
  info !! "input_file" = Some input_file ->
  info !! "output_format" = Some output_format ->
  int_of_str (default (str_of_int 0) (info !! "retry_count")) = Some n ->
  let r := requeue_task d now task_id in
  r.1 = Return true
  /\ hget r.2 now (task_key task_id) "status" = Some TASK_QUEUED
  /\ hget r.2 now (task_key task_id) "retry_count" = Some (str_of_int (n + 1))
  /\ task_queue r.2 =
       {| q_id := task_id; q_input_file := input_file;
          q_output_format := output_format; q_retry := true |} :: task_queue d.
Proof.
  intros Hinfo Hin Hout Hn r. subst r. unfold requeue_task.
  rewrite Hinfo.
  assert (Hne : info <> ∅) by (intros ->; by rewrite lookup_empty in Hin).
  rewrite bool_decide_eq_false_2 by done.
  rewrite Hin, Hout, Hn.
  unfold get_task_status in Hinfo.
  destruct (exists_ d now (task_key task_id)) eqn:He; [|done].
  apply exists_live in He as [h Hl].
  rewrite (update_present _ _ _ _ _ _ Hl). cbn [fst snd task_queue lpush].
  split; [done|]. split; [|split; [|done]].
  - unfold hget, lpush, live. cbn [keyspace set_key].
    rewrite lookup_insert_eq. apply live_not_expired in Hl.
    unfold expired in *. cbn [expire_at]. rewrite Hl. cbn [fields].
    apply lookup_union_Some_l. rewrite lookup_union_r; by simplify_map_eq.
  - unfold hget, lpush, live. cbn [keyspace set_key].
    rewrite lookup_insert_eq. apply live_not_expired in Hl.
    unfold expired in *. cbn [expire_at]. rewrite Hl. cbn [fields].
    apply lookup_union_Some_l. apply lookup_union_Some_l. by simplify_map_eq.
Qed.

(** A failed task with seven retries behind it is queued again, with
    retry count 8. *)
Lemma requeue_is_unconditional_witness :
  let r := requeue_task db_failed7 1020 task1 in
  r.1 = Return true
  /\ hget r.2 1020 (task_key task1) "status" = Some TASK_QUEUED
  /\ hget r.2 1020 (task_key task1) "retry_count" = Some (str_of_int (7 + 1))
  /\ task_queue r.2 =
       {| q_id := task1; q_input_file := "https://files/model.step";
          q_output_format := "stl"; q_retry := true |} :: task_queue db_failed7.
Proof.
  apply (requeue_is_unconditional db_failed7 1020 task1
           (hgetall db_failed7 1020 (task_key task1))); vm_compute; reflexivity.
Defined.

(** C3 as stated fails on both counts: a [COMPLETED] task is put back
    to [QUEUED], and so is a [FAILED] task whose retry count (7) is
    not below the configured maximum (3). *)
Lemma requeue_ignores_status_and_ceiling :
  (hget db_completed 1020 (task_key task1) "status" = Some TASK_COMPLETED
   /\ hget (requeue_task db_completed 1020 task1).2 1020 (task_key task1) "status"
      = Some TASK_QUEUED)
  /\ (hget db_failed7 1020 (task_key task1) "status" = Some TASK_FAILED
      /\ int_of_str "7" = Some 7 /\ MAX_RETRIES <= 7
      /\ hget db_failed7 1020 (task_key task1) "retry_count" = Some "7"
      /\ hget (requeue_task db_failed7 1020 task1).2 1020 (task_key task1) "status"
         = Some TASK_QUEUED).
Proof. vm_compute. repeat split; congruence. Qed.

End TaskStoreFacts.

(** ** Facts about the worker *)

Module WorkerFacts.

Import Router TaskStore Worker Examples.

Lemma update_task_status_requests (e : env) (now : Z) (task_id status : string)
    (result_url error : option string) (st : state) :
  let r := Worker.update_task_status e now task_id status result_url error st in
  disk r.2 = disk st
  /\ exists rq,
       u_task_id rq = task_id /\ u_status rq = status
       /\ requests r.2 = requests st ++ (if api_up e then [rq] else []).
Proof.
  unfold Worker.update_task_status. destruct (api_up e); cbn.
  - split; [done|]. eexists. split; [|split]; [| |reflexivity]; done.
  - split; [done|]. eexists (UpdateRequest task_id status None None).
    by rewrite app_nil_r.
Qed.

Lemma process_task_body_requests (e : env) (now : Z)
    (task_id input_file_url input_file_path output_file_path : string)
    (st : state) :
  let r := process_task_body e now task_id input_file_url input_file_path
             output_file_path st in
  match r.1 with
  | Return _ =>
      exists rq,
        u_task_id rq = task_id /\ u_status rq = "FINISH"
        /\ requests r.2 = requests st ++ (if api_up e then [rq] else [])
  | Raise _ => requests r.2 = requests st
  end.
Proof.
  unfold process_task_body, download_file.
  destruct (fetchable e input_file_url); cbn [negb fst snd]; [|done].
  destruct (ConverterManager e) as [reg|]; [|done].
  destruct (convert reg _ _ _ _ _ _) as [[[success result_path]|ex] w2]; [|done].
  destruct success; cbn [negb]; [|done].
  destruct (bool_decide (result_path ∈ files w2)); cbn [negb]; [|done].
  destruct (upload_file_to_r2 e result_path (files w2)) as [r2_success r2_url].
  destruct r2_success; cbn [negb]; [|done].
  pose proof (update_task_status_requests e now task_id "FINISH" (Some r2_url) None
                (with_disk (with_disk st (with_files (disk st)
                   ({[input_file_path]} ∪ files (disk st)))) w2)) as H.
  cbn zeta in H. destruct (Worker.update_task_status _ _ _ _ _ _ _) as [ok st3].
  cbn [fst snd] in *. destruct H as (_ & rq & ? & ? & ?). by exists rq.
Qed.

Lemma remove_file_requests (files : list string) (st : state) :
  requests (fold_left remove_file files st) = requests st.
Proof. revert st. induction files as [|f fs IH]; intros st; [done|]. cbn. by rewrite IH. Qed.

(** Every call of [process_task] sends exactly one status update (when
    the API answers), and its status is FINISH or FAILED, whatever the
    name [ConverterManager] is bound to: the status COMPLETED is never
    written. *)
Theorem process_task_never_writes_completed (e : env) (now : Z)
    (random_prefix task_id input_file_url output_format : string) (st : state) :
  let st' := process_task e now random_prefix task_id input_file_url
               output_format st in
  exists rq,
    u_task_id rq = task_id
    /\ (u_status rq = "FINISH" \/ u_status rq = "FAILED")
    /\ u_status rq <> TASK_COMPLETED
    /\ requests st' = requests st ++ (if api_up e then [rq] else []).
Proof.
  intros st'. subst st'. unfold process_task.
  match goal with |- context [process_task_body ?a ?b ?c ?d ?i ?o ?s] =>
    pose proof (process_task_body_requests a b c d i o s) as H;
    destruct (process_task_body a b c d i o s) as [[[]|ex] st1]
  end; cbn [fst snd] in H.
  - destruct H as (rq & Hid & Hst & Hrq). exists rq.
    rewrite remove_file_requests. rewrite Hst. repeat split; try done. by left.
  - match goal with |- context [Worker.update_task_status ?a ?b ?c ?d ?r ?x ?s] =>
      pose proof (update_task_status_requests a b c d r x s) as Hu;
      destruct (Worker.update_task_status a b c d r x s) as [ok st2]
    end.
    cbn [fst snd] in *. destruct Hu as (_ & rq & Hid & Hst & Hrq). exists rq.
    rewrite remove_file_requests, Hst, Hrq, H. repeat split; try done. by right.
Qed.

(** As the module stands the name [ConverterManager] is unbound: a
    task whose file was downloaded ends as FAILED, and the message is
    that of the [NameError]. *)
Example unbound_manager_fails :
  let st' := process_task happy_env 1010 "Ab12" task1
               "https://files/model.step?sig=1" "stl" worker0 in
  requests st' =
    [{| u_task_id := task1; u_status := "FAILED"; u_result_url := None;
        u_error := Some "FAILED: name 'ConverterManager' is not defined" |}]
  /\ hget (db st') 1011 (task_key task1) "status" = Some TASK_FAILED
  /\ elements (files (disk st')) = [].
Proof. vm_compute. done. Qed.

(** Were the name bound to a manager that converts step to stl, the
    same task would end with the status FINISH, which is none of the
    task statuses. *)
Example bound_manager_writes_finish :
  let e := {| fetchable := fetchable happy_env;
              download_error := download_error happy_env;
              upload_file_to_r2 := upload_file_to_r2 happy_env;
              api_up := true; TMP_DIR := "/app/tmp";
              ConverterManager := Some (load_converters [good "step" "stl"]) |} in
  map u_status
    (requests (process_task e 1010 "Ab12" task1 "https://files/model.step" "stl"
                 worker0))
  = ["FINISH"].
Proof. vm_compute. reflexivity. Qed.

(** A failed task does not stop the loop: the rounds after it run. *)
Example loop_survives_failure :
  let e := {| fetchable := fun _ => false;
              download_error := download_error happy_env;
              upload_file_to_r2 := upload_file_to_r2 happy_env;
              api_up := true; TMP_DIR := "/app/tmp";
              ConverterManager := ConverterManager happy_env |} in
  let st := {| disk := disk worker0;
               db := lpush (lpush db1 (QueueItem "t1" "https://files/a.step" "stl" true))
                       (QueueItem "t2" "https://files/b.step" "stl" true);
               requests := [] |} in
  map (fun rq => (u_task_id rq, u_status rq))
    (requests (worker_loop e [(1010, "aaaa"); (1011, "bbbb"); (1012, "cccc")] st))
  = [("t1", "FAILED"); ("t2", "FAILED")].
Proof. vm_compute. reflexivity. Qed.

End WorkerFacts.

(** ** The registry, the graph and the listings *)

Module CatalogueFacts.

Import Router Examples Invariants Catalogue Notions Fixtures.

(** *** Dictionaries *)

Lemma dict_get_set {V : Type} (d : list (string * V)) (k k' : string) (v : V) :
  dict_get (dict_set d k v) k' = if decide (k = k') then Some v else dict_get d k'.
Proof.
  induction d as [|[k0 v0] d IH]; cbn.
  - by destruct (decide (k = k')).
  - destruct (decide (k0 = k)) as [->|Hne]; cbn.
    + by destruct (decide (k = k')).
    + destruct (decide (k0 = k')) as [->|]; [by rewrite decide_False by done|done].
Qed.

Lemma dict_get_Some_elem_of {V : Type} (d : list (string * V)) (k : string) (v : V) :
  dict_get d k = Some v -> (k, v) ∈ d.
Proof.
  induction d as [|[k0 v0] d IH]; cbn; [done|].
  destruct (decide (k0 = k)) as [->|]; [intros [= ->]; left|].
  intros H. right. by apply IH.
Qed.

Lemma dict_get_None {V : Type} (d : list (string * V)) (k : string) :
  dict_get d k = None <-> k ∉ d.*1.
Proof.
  induction d as [|[k0 v0] d IH]; cbn.
  - split; [intros _ H; by apply elem_of_nil in H|done].
  - destruct (decide (k0 = k)) as [->|Hne].
    + split; [done|]. intros H. exfalso. apply H. left.
    + rewrite IH. rewrite not_elem_of_cons. split; [by intros|by intros [_ ?]].
Qed.

Lemma dict_set_keys {V : Type} (d : list (string * V)) (k : string) (v : V) :
  (dict_set d k v).*1 = if decide (k ∈ d.*1) then d.*1 else d.*1 ++ [k].
Proof.
  induction d as [|[k0 v0] d IH]; cbn.
  - rewrite decide_False; [done|]. intros H. by apply elem_of_nil in H.
  - destruct (decide (k0 = k)) as [->|Hne]; cbn.
    + rewrite decide_True; [done|left].
    + rewrite IH. destruct (decide (k ∈ d.*1)) as [Hin|Hin].
      * rewrite decide_True; [done|by right].
      * rewrite decide_False; [done|]. rewrite not_elem_of_cons.
        split; [by apply not_eq_sym|done].
Qed.

Lemma load_converters_snoc (cs : list converter) (c : converter) :
  load_converters (cs ++ [c]) = register (load_converters cs) c.
Proof. unfold load_converters. by rewrite fold_left_app. Qed.

(** *** [get_converter] *)

(** X1. [get_converter] on a freshly loaded registry returns the last
    of the converters found whose key is the key of the requested
    pair, both formats lowercased: a later registration replaces an
    earlier one for the same pair, the lookup does not depend on the
    case of the request, and the answer is [None] exactly when no
    converter found has that key. *)
Theorem get_converter_is_last_match (found : list converter) (a b : string) :
  get_converter (load_converters found) a b
  = last (filter (fun c => key_of c = make_key (lower a) (lower b)) found).
Proof.
  unfold get_converter. induction found as [|c cs IH] using rev_ind; [done|].
  rewrite load_converters_snoc. unfold register. rewrite dict_get_set.
  rewrite filter_app, last_app. fold (key_of c).
  rewrite filter_cons, filter_nil.
  destruct (decide (key_of c = _)) as [Heq|Hne]; [done|]. exact IH.
Qed.

(** The keys of a loaded registry: no key twice, and exactly the keys
    of the converters found. *)
Lemma registry_keys (found : list converter) :
  let keys := (load_converters found).*1 in
  NoDup keys
  /\ (forall k, k ∈ keys <-> exists c, c ∈ found /\ key_of c = k)
  /\ (length keys <= length found)%nat.
Proof.
  cbn zeta.
  induction found as [|c cs IH] using rev_ind.
  - cbn. split; [constructor|]. split; [|done]. intros k. split.
    + intros H. by apply elem_of_nil in H.
    + intros (c & H & _). by apply elem_of_nil in H.
  - destruct IH as (Hnd & Hin & Hlen).
    rewrite load_converters_snoc. unfold register. rewrite dict_set_keys.
    fold (key_of c). rewrite length_app. cbn [length].
    destruct (decide (key_of c ∈ _)) as [Hk|Hk].
    + split; [done|]. split; [|lia]. intros k. rewrite Hin. split.
      * intros (c' & Hc' & <-). exists c'. split; [|done].
        apply elem_of_app. by left.
      * intros (c' & [Hc'|Hc']%elem_of_app & <-); [by exists c'|].
        apply list_elem_of_singleton in Hc' as ->. by apply Hin.
    + split; [|split].
      * apply NoDup_app. split; [done|]. split; [|apply NoDup_singleton].
        intros x Hx ->%list_elem_of_singleton. done.
      * intros k. rewrite elem_of_app, Hin, list_elem_of_singleton. split.
        -- intros [(c' & Hc' & <-)| ->].
           ++ exists c'. split; [|done]. apply elem_of_app. by left.
           ++ exists c. split; [|done]. apply elem_of_app. right. left.
        -- intros (c' & [Hc'|Hc']%elem_of_app & <-); [left; by exists c'|].
           apply list_elem_of_singleton in Hc' as ->. by right.
      * rewrite length_app. cbn. lia.
Qed.

(** X2. [list_available_conversions] of a loaded registry lists the
    keys of the converters found, each key once, at the place of its
    first registration: a converter that replaces an earlier one for
    the same pair does not move the key.  So there are at most as many
    keys as converters. *)
Theorem available_conversions_in_order (found : list converter) :
  let keys := list_available_conversions (load_converters found) in
  keys = rev (remove_dups (rev (key_of <$> found)))
  /\ NoDup keys
  /\ (length keys <= length found)%nat.
Proof.
  cbn zeta. unfold list_available_conversions.
  assert (Heq : (load_converters found).*1
                = rev (remove_dups (rev (key_of <$> found)))).
  { induction found as [|c cs IH] using rev_ind; [done|].
    rewrite load_converters_snoc. unfold register. rewrite dict_set_keys.
    fold (key_of c). rewrite fmap_app, rev_app_distr. cbn [fmap list_fmap rev app].
    cbn [remove_dups]. rewrite IH.
    assert (Hin : key_of c ∈ rev (remove_dups (rev (key_of <$> cs)))
                  <-> key_of c ∈ rev (key_of <$> cs)).
    { rewrite !list_elem_of_In, <- !in_rev, <- !list_elem_of_In.
      rewrite elem_of_remove_dups, !list_elem_of_In. symmetry. apply in_rev. }
    destruct (decide_rel elem_of (key_of c) (rev (key_of <$> cs))) as [Hk|Hk].
    - rewrite decide_True by (by apply Hin). done.
    - rewrite decide_False by (by rewrite Hin). done. }
  split; [done|]. destruct (registry_keys found) as (Hnd & _ & Hlen). done.
Qed.

(** *** The graph *)

Lemma add_edge_edges (g : graph) (key : string) (c : converter) (u : string) (e : edge) :
  e ∈ edges_of (add_edge g (key, c)) u
  <-> e ∈ edges_of g u
      \/ (u = lower (input_format c)
          /\ e = (lower (output_format c), key,
                  edge_weight (lower (input_format c)) (lower (output_format c)))).
Proof.
  unfold add_edge. rewrite SearchFacts.edges_of_insert.
  destruct (decide (lower (input_format c) = u)) as [<-|Hne].
  - rewrite elem_of_app, list_elem_of_singleton. split.
    + intros [H|H]; [by left|by right].
    + intros [H|[_ H]]; [by left|by right].
  - split; [by left|]. intros [H|[-> _]]; done.
Qed.

(** The edges after a stretch of the loop of [_build_format_graph]. *)
Lemma fold_add_edge_edges (part : registry) (g : graph) (u : string) (e : edge) :
  e ∈ edges_of (fold_left add_edge part g) u
  <-> e ∈ edges_of g u
      \/ exists c, (e.1.2, c) ∈ part /\ u = lower (input_format c)
           /\ e.1.1 = lower (output_format c) /\ e.2 = edge_weight u e.1.1.
Proof.
  revert g. induction part as [|[key c] part IH]; intros g; cbn [fold_left].
  - split; [by left|]. intros [H|(c & H & _)]; [done|by apply elem_of_nil in H].
  - rewrite IH, add_edge_edges. split.
    + intros [[H|[-> ->]]|(c' & H & Hr)].
      * by left.
      * right. exists c. cbn. split; [left|done].
      * right. exists c'. split; [by right|done].
    + intros [H|(c' & [Heq|H]%elem_of_cons & Hu & Hv & Hw)].
      * left. by left.
      * injection Heq as Hk <-. left. right. split; [done|].
        destruct e as [[v k] w]. cbn in *. by subst.
      * right. by exists c'.
Qed.

(** X3. The graph built by [_build_format_graph] has exactly one kind
    of edge: [(v, key, w)] is an edge out of [u] if and only if the
    registry holds a converter under [key] whose lowercased formats are
    [u] and [v], and [w] is the weight of that pair. *)
Theorem graph_edges_are_registrations (reg : registry) (u v key : string) (w : Z) :
  (v, key, w) ∈ edges_of (build_format_graph reg) u
  <-> exists c, (key, c) ∈ reg /\ lower (input_format c) = u
        /\ lower (output_format c) = v /\ w = edge_weight u v.
Proof.
  unfold build_format_graph. rewrite fold_add_edge_edges. cbn [fst snd]. split.
  - intros [H|(c & H & -> & -> & ->)].
    + unfold edges_of, graph in H. rewrite lookup_empty in H. by apply elem_of_nil in H.
    + by exists c.
  - intros (c & H & <- & <- & ->). right. by exists c.
Qed.


(** *** Splitting keys *)

Lemma lower_char_idemp (c : Ascii.ascii) : lower_char (lower_char c) = lower_char c.
Proof. destruct c as [[] [] [] [] [] [] [] []]; reflexivity. Qed.

Lemma lower_idemp (s : string) : lower (lower s) = lower s.
Proof. induction s as [|c s IH]; cbn; [done|]. by rewrite lower_char_idemp, IH. Qed.

Lemma split_plain (s : string) : plain s = true -> split_from "_to_" 0 s = [s].
Proof.
  induction s as [|c s IH]; [done|]. cbn [plain]. intros [Hc Hs]%andb_true_iff.
  apply negb_true_iff, bool_decide_eq_false in Hc.
  cbn [split_from startswith]. case_bool_decide; [congruence|].
  cbn [andb]. by rewrite IH.
Qed.

Lemma split_sep (s : string) :
  split_from "_to_" 0 (EmptyString +:+ "_to_" +:+ s)
  = EmptyString :: split_from "_to_" 0 s.
Proof. reflexivity. Qed.

(** A key made of two plain formats splits in these two. *)
Lemma split_key (a b : string) :
  plain a = true -> plain b = true -> split "_to_" (make_key a b) = [a; b].
Proof.
  unfold split, make_key. intros Ha Hb. induction a as [|c a IH].
  - rewrite (split_sep b). by rewrite split_plain.
  - cbn [plain] in Ha. apply andb_true_iff in Ha as [Hc Ha].
    apply negb_true_iff, bool_decide_eq_false in Hc.
    change (String c a +:+ "_to_" +:+ b) with (String c (a +:+ "_to_" +:+ b)).
    cbn [split_from startswith]. case_bool_decide; [congruence|].
    cbn [andb]. by rewrite IH.
Qed.


(** *** The supported formats *)

(** The loop of [list_all_supported_formats] on keys of plain formats. *)
Lemma collect_formats_plain (found : list converter) (keys : list string)
    (acc : gset string) :
  plain_formats found ->
  (forall k, k ∈ keys -> exists c, c ∈ found /\ key_of c = k) ->
  exists formats,
    collect_formats keys acc = Return formats
    /\ forall x, x ∈ formats <->
         x ∈ acc
         \/ exists c, c ∈ found /\ key_of c ∈ keys
              /\ (x = lower (input_format c) \/ x = lower (output_format c)).
Proof.
  intros Hplain. revert acc.
  induction keys as [|k keys IH]; intros acc Hkeys; cbn [collect_formats].
  - exists acc. split; [done|]. intros x. split; [by left|].
    intros [H|(c & _ & H & _)]; [done|by apply elem_of_nil in H].
  - destruct (Hkeys k) as (c & Hc & Hk); [left|].
    destruct (Hplain c Hc) as [Hi Ho].
    rewrite <- Hk. unfold key_of at 1. rewrite (split_key _ _ Hi Ho).
    destruct (IH ({[lower (output_format c)]} ∪ ({[lower (input_format c)]} ∪ acc)))
      as (formats & Heq & Hin).
    { intros k' Hk'. apply Hkeys. by right. }
    exists formats. split; [done|]. intros x. rewrite Hin.
    rewrite !elem_of_union, !elem_of_singleton. split.
    + intros [[->|[->|H]]|(c' & Hc' & Hk' & Hx)].
      * right. exists c. split; [done|]. split; [rewrite Hk; left|by right].
      * right. exists c. split; [done|]. split; [rewrite Hk; left|by left].
      * by left.
      * right. exists c'. split; [done|]. split; [by right|done].
    + intros [H|(c' & Hc' & [Hk'|Hk']%elem_of_cons & Hx)].
      * left. right. by right.
      * left. destruct (Hplain c' Hc') as [Hi' Ho'].
        assert (Hs : [lower (input_format c'); lower (output_format c')]
                     = [lower (input_format c); lower (output_format c)]).
        { rewrite <- (split_key _ _ Hi' Ho'), <- (split_key _ _ Hi Ho).
          fold (key_of c') (key_of c). congruence. }
        injection Hs as Hi2 Ho2. rewrite Hi2, Ho2 in Hx.
        destruct Hx as [->| ->]; [right; by left|by left].
      * right. by exists c'.
Qed.

Lemma ascii_compare_lt_trans (x y z : Ascii.ascii) :
  Ascii.compare x y = Lt -> Ascii.compare y z = Lt -> Ascii.compare x z = Lt.
Proof.
  unfold Ascii.compare. rewrite !N.compare_lt_iff. apply N.lt_trans.
Qed.

(** The order of [sorted] is transitive and total. *)
Lemma str_le_trans (a b c : string) : str_le a b -> str_le b c -> str_le a c.
Proof.
  unfold str_le, String.leb. revert b c.
  induction a as [|x a IH]; intros [|y b] [|z c]; cbn; try done.
  destruct (Ascii.compare x y) eqn:Hxy; try done.
  - apply Ascii.compare_eq_iff in Hxy as ->.
    destruct (Ascii.compare y z) eqn:Hyz; try done. apply IH.
  - destruct (Ascii.compare y z) eqn:Hyz; try done.
    + apply Ascii.compare_eq_iff in Hyz as ->. by rewrite Hxy.
    + by rewrite (ascii_compare_lt_trans x y z).
Qed.

#[local] Instance str_le_transitive : Transitive str_le.
Proof. intros a b c. apply str_le_trans. Qed.

#[local] Instance str_le_total : Total str_le.
Proof. intros a b. apply String.leb_total. Qed.

Lemma sorted_spec (X : gset string) :
  StronglySorted str_le (sorted (elements X))
  /\ NoDup (sorted (elements X))
  /\ forall x, x ∈ sorted (elements X) <-> x ∈ X.
Proof.
  unfold sorted. split; [apply StronglySorted_merge_sort; apply _|]. split.
  - rewrite merge_sort_Permutation. apply NoDup_elements.
  - intros x. rewrite merge_sort_Permutation. apply elem_of_elements.
Qed.

Lemma supported_formats_plain (found : list converter) :
  plain_formats found ->
  exists formats,
    list_all_supported_formats (load_converters found) = Return formats
    /\ StronglySorted str_le formats
    /\ NoDup formats
    /\ forall x, x ∈ formats <->
         exists c, c ∈ found
           /\ (x = lower (input_format c) \/ x = lower (output_format c)).
Proof.
  intros Hplain. unfold list_all_supported_formats, list_available_conversions.
  destruct (registry_keys found) as (_ & Hkeys & _). cbn zeta in Hkeys.
  destruct (collect_formats_plain found (load_converters found).*1 ∅ Hplain)
    as (X & -> & HX).
  { intros k Hk. by apply Hkeys. }
  destruct (sorted_spec X) as (Hs & Hnd & Hin).
  eexists. split; [done|]. split; [done|]. split; [done|].
  intros x. rewrite Hin, HX. split.
  - intros [H|(c & Hc & _ & Hx)]; [by apply elem_of_empty in H|by exists c].
  - intros (c & Hc & Hx). right. exists c. split; [done|]. split; [|done].
    apply Hkeys. by exists c.
Qed.

(** X4. When no format holds an underscore, every key splits in two at
    its separator: [list_all_supported_formats] returns, the
    constructor returns the loaded registry with its graph, and the
    list is in ascending order, without repetition, and holds exactly
    the lowercased input and output formats of the converters found. *)
Theorem supported_formats_listed (found : list converter) :
  plain_formats found ->
  exists formats,
    list_all_supported_formats (load_converters found) = Return formats
    /\ init found
       = Return (load_converters found, build_format_graph (load_converters found))
    /\ StronglySorted str_le formats
    /\ NoDup formats
    /\ forall x, x ∈ formats <->
         exists c, c ∈ found
           /\ (x = lower (input_format c) \/ x = lower (output_format c)).
Proof.
  intros Hplain.
  destruct (supported_formats_plain found Hplain) as (formats & Heq & Hs & Hnd & Hin).
  exists formats. unfold init. rewrite Heq. done.
Qed.

Lemma plain_pair_formats : plain_formats plain_pair.
Proof.
  intros c Hc. unfold plain_pair in Hc.
  apply elem_of_cons in Hc as [->|Hc]; [by vm_compute|].
  apply list_elem_of_singleton in Hc as ->. by vm_compute.
Qed.

Lemma supported_formats_listed_witness :
  exists formats,
    list_all_supported_formats (load_converters plain_pair) = Return formats
    /\ init plain_pair
       = Return (load_converters plain_pair,
                 build_format_graph (load_converters plain_pair))
    /\ StronglySorted str_le formats
    /\ NoDup formats
    /\ forall x, x ∈ formats <->
         exists c, c ∈ plain_pair
           /\ (x = lower (input_format c) \/ x = lower (output_format c)).
Proof. apply (supported_formats_listed plain_pair). exact plain_pair_formats. Defined.

(** *** Keys that hold the separator *)

Lemma append_assoc (a b c : string) : (a +:+ b) +:+ c = a +:+ (b +:+ c).
Proof.
  induction a as [|x a IH]; [done|].
  change (String x (a +:+ b +:+ c)) with (String x a +:+ b +:+ c) in *.
  change ((String x a +:+ b) +:+ c) with (String x ((a +:+ b) +:+ c)).
  change (String x a +:+ b +:+ c) with (String x (a +:+ b +:+ c)).
  by rewrite IH.
Qed.

Lemma append_length (a b : string) :
  String.length (a +:+ b) = (String.length a + String.length b)%nat.
Proof.
  induction a as [|x a IH]; [done|].
  change (String x a +:+ b) with (String x (a +:+ b)). cbn. by rewrite IH.
Qed.

Lemma split_from_nonempty (sep : string) (k : nat) (s : string) :
  (1 <= length (split_from sep k s))%nat.
Proof.
  revert k. induction s as [|c s IH]; intros k; cbn [split_from]; [simpl; lia|].
  destruct k as [|k]; [|apply IH].
  destruct (startswith _ _); [simpl; lia|].
  specialize (IH 0%nat). destruct (split_from sep 0 s); simpl in *; lia.
Qed.

(** A text with a separator beyond the characters still to be skipped
    splits in two parts at least; with two separators that do not
    overlap, in three at least. *)
Lemma split_skip (k : nat) (x y : string) :
  (k <= String.length x)%nat ->
  (2 <= length (split_from "_to_" k (x +:+ "_to_" +:+ y)))%nat.
Proof.
  revert k. induction x as [|c x IH]; intros k Hk.
  - cbn in Hk. assert (k = 0%nat) as -> by lia. rewrite split_sep.
    pose proof (split_from_nonempty "_to_" 0 y). simpl. lia.
  - change (String c x +:+ "_to_" +:+ y) with (String c (x +:+ "_to_" +:+ y)).
    cbn [split_from]. destruct k as [|k].
    + destruct (startswith _ _).
      * pose proof (split_from_nonempty "_to_" (String.length "_to_" - 1)
                      (x +:+ "_to_" +:+ y)). simpl in *. lia.
      * specialize (IH 0%nat ltac:(lia)).
        destruct (split_from "_to_" 0 (x +:+ "_to_" +:+ y)); simpl in *; lia.
    + apply IH. cbn in Hk. lia.
Qed.

Lemma split_two_separators (x y : string) :
  holds_separator y ->
  (3 <= length (split_from "_to_" 0 (x +:+ "_to_" +:+ y)))%nat.
Proof.
  intros (x2 & y2 & ->). induction x as [|c x IH].
  - rewrite split_sep. pose proof (split_skip 0 x2 y2 ltac:(lia)). simpl. lia.
  - change (String c x +:+ "_to_" +:+ x2 +:+ "_to_" +:+ y2)
      with (String c (x +:+ "_to_" +:+ x2 +:+ "_to_" +:+ y2)).
    cbn [split_from]. destruct (startswith _ _).
    + assert (H : (2 <= length (split_from "_to_" (String.length "_to_" - 1)
                                  (x +:+ "_to_" +:+ x2 +:+ "_to_" +:+ y2)))%nat).
      { rewrite <- (append_assoc "_to_" x2), <- (append_assoc x).
        apply split_skip. rewrite !append_length. simpl. lia. }
      simpl in *. lia.
    + destruct (split_from "_to_" 0 (x +:+ "_to_" +:+ x2 +:+ "_to_" +:+ y2));
        simpl in *; lia.
Qed.

Lemma key_with_separator (a b : string) :
  holds_separator a \/ holds_separator b ->
  (3 <= length (split "_to_" (make_key a b)))%nat.
Proof.
  unfold split, make_key. intros [(x & y & ->)|H].
  - rewrite !append_assoc. apply split_two_separators.
    exists y, b. done.
  - by apply split_two_separators.
Qed.

Lemma collect_formats_raises (keys : list string) (acc : gset string) (k : string) :
  k ∈ keys -> length (split "_to_" k) <> 2%nat ->
  collect_formats keys acc = Raise "ValueError".
Proof.
  intros Hk Hlen. revert acc. induction keys as [|k' keys IH]; intros acc.
  - by apply elem_of_nil in Hk.
  - cbn [collect_formats]. apply elem_of_cons in Hk as [<-|Hk].
    + destruct (split "_to_" k) as [|? [|? [|? ?]]]; try done.
    + destruct (split "_to_" k') as [|? [|? [|? ?]]]; try done. by apply IH.
Qed.

(** X5. One converter whose input or output format, lowercased, holds
    the text [_to_] is enough to make [list_all_supported_formats]
    raise [ValueError]: its key splits in more than two parts.  As
    [_build_format_graph] calls the listing, the constructor raises as
    well, whatever the other converters are. *)
Theorem init_rejects_separator_in_format (found : list converter) (c : converter) :
  c ∈ found ->
  holds_separator (lower (input_format c))
  \/ holds_separator (lower (output_format c)) ->
  init found = Raise "ValueError"
  /\ list_all_supported_formats (load_converters found) = Raise "ValueError".
Proof.
  intros Hc Hsep.
  assert (H : list_all_supported_formats (load_converters found) = Raise "ValueError").
  { unfold list_all_supported_formats, list_available_conversions.
    destruct (registry_keys found) as (_ & Hkeys & _). cbn zeta in Hkeys.
    rewrite (collect_formats_raises _ _ (key_of c)); [done| |].
    - apply Hkeys. by exists c.
    - pose proof (key_with_separator _ _ Hsep). unfold key_of. lia. }
  unfold init. by rewrite H.
Qed.

Lemma init_rejects_separator_in_format_witness :
  init separator_pair = Raise "ValueError"
  /\ list_all_supported_formats (load_converters separator_pair)
     = Raise "ValueError".
Proof.
  apply (init_rejects_separator_in_format separator_pair (good "a_TO_b" "stl")).
  - right. left.
  - left. exists "a", "b". reflexivity.
Defined.

(** *** Entries of a loaded registry *)

Lemma dict_get_NoDup {V : Type} (d : list (string * V)) (k : string) (v : V) :
  NoDup d.*1 -> (k, v) ∈ d -> dict_get d k = Some v.
Proof.
  induction d as [|[k0 v0] d IH]; cbn; intros Hnd Hin.
  - by apply elem_of_nil in Hin.
  - apply NoDup_cons in Hnd as [Hk0 Hnd].
    apply elem_of_cons in Hin as [Heq|Hin].
    + injection Heq as -> ->. by rewrite decide_True.
    + destruct (decide (k0 = k)) as [->|]; [|by apply IH].
      exfalso. apply Hk0. apply list_elem_of_fmap. by exists (k, v).
Qed.

Lemma dict_set_elem_of {V : Type} (d : list (string * V)) (k k' : string) (v v' : V) :
  (k', v') ∈ dict_set d k v -> (k', v') = (k, v) \/ (k', v') ∈ d.
Proof.
  induction d as [|[k0 v0] d IH]; cbn.
  - intros H%list_elem_of_singleton. by left.
  - destruct (decide (k0 = k)) as [->|Hne].
    + intros [H|H]%elem_of_cons; [by left|right; by right].
    + intros [H|H]%elem_of_cons; [right; rewrite H; left|].
      destruct (IH H) as [?|?]; [by left|right; by right].
Qed.

(** Every entry of a loaded registry is a converter found, under its
    own key. *)
Lemma registry_entries (found : list converter) (k : string) (c : converter) :
  (k, c) ∈ load_converters found -> c ∈ found /\ key_of c = k.
Proof.
  induction found as [|c0 cs IH] using rev_ind.
  - intros H. by apply elem_of_nil in H.
  - rewrite load_converters_snoc. unfold register.
    intros [Heq|Hin]%dict_set_elem_of.
    + injection Heq as -> ->. split; [|done]. apply elem_of_app. right. left.
    + destruct (IH Hin) as [Hc Hk]. split; [|done]. apply elem_of_app. by left.
Qed.

Lemma dict_mem_key_of (found : list converter) (c : converter) :
  c ∈ found -> dict_mem (load_converters found) (key_of c) = true.
Proof.
  intros Hc. unfold dict_mem.
  destruct (dict_get (load_converters found) (key_of c)) eqn:Hget; [done|].
  apply dict_get_None in Hget. exfalso. apply Hget.
  destruct (registry_keys found) as (_ & Hkeys & _). apply Hkeys. by exists c.
Qed.

End CatalogueFacts.

(** ** Paths and the registry *)

Module RoutingFacts.

Import Router Examples Invariants Catalogue Notions Fixtures SearchFacts
  OptimalityFacts CatalogueFacts.

Lemma graph_path_snoc (reg : registry) (src mid dst key : string) (w : Z)
    (path : list step) :
  graph_path reg src path mid ->
  (dst, key, w) ∈ edges_of (build_format_graph reg) mid ->
  graph_path reg src (path ++ [(mid, dst, key)]) dst.
Proof.
  revert src. induction path as [|[[s d] k] path IH]; intros src; cbn.
  - intros -> He. split; [done|]. split; [by exists w|done].
  - intros (-> & Hd & Hp) He. split; [done|]. split; [done|]. by apply IH.
Qed.

(** The reconstruction walks edges of the graph. *)
Lemma rebuild_graph_path (reg : registry) (input_fmt : string) (max_steps : Z)
    (st : search) (fuel : nat) :
  search_inv reg input_fmt max_steps st ->
  forall (current : string) (d : Z) (acc : list step),
    dist st !! current = Some d ->
    (Z.to_nat d < fuel)%nat ->
    exists segs,
      rebuild fuel (prev st) input_fmt current acc = Rebuilt (acc ++ segs)
      /\ graph_path reg input_fmt (rev segs) current.
Proof.
  intros Hinv. induction fuel as [|fuel IH]; intros current d acc Hd Hfuel; [lia|].
  cbn [rebuild]. destruct (decide (current = input_fmt)) as [->|Hne].
  - exists []. by rewrite app_nil_r.
  - destruct (inv_dist _ _ _ _ Hinv _ _ Hd) as [Hd0 [?|[[p k] Hp]]]; [done|].
    rewrite Hp.
    destruct (inv_prev _ _ _ _ Hinv _ _ _ Hp) as (dp & dv & w & Hdp & Hdv & Hle & Hedge).
    pose proof (build_graph_edges _ _ _ Hedge) as (_ & _ & _ & Hw). cbn in Hw.
    destruct (inv_dist _ _ _ _ Hinv _ _ Hdp) as [Hdp0 _].
    assert (dv = d) by congruence. subst dv.
    destruct (IH p dp (acc ++ [(p, current, k)]) Hdp ltac:(lia)) as (segs & Hr & Hpath).
    exists ((p, current, k) :: segs). rewrite Hr, <- app_assoc.
    split; [done|]. cbn [rev]. by apply (graph_path_snoc _ _ _ _ _ w).
Qed.

Lemma searched_path_in_graph (reg : registry) (a b : string) (max_steps : Z) :
  dict_mem reg (make_key (lower a) (lower b)) = false ->
  graph_path reg (lower a) (find_conversion_path reg a b max_steps) (lower b)
  \/ find_conversion_path reg a b max_steps = [].
Proof.
  intros Hmem. unfold find_conversion_path, find_conversion_path_fuel.
  destruct (decide (lower a = lower b)) as [Heq|Hne]; [by right|].
  rewrite Hmem.
  destruct (dijkstra_fuel_enough reg (lower a) (lower b) max_steps) as (st & Hloop & Hinv).
  unfold initial in Hloop. rewrite Hloop.
  destruct (prev st !! lower b) as [[p k]|] eqn:Hp; [|by right].
  destruct (inv_prev _ _ _ _ Hinv _ _ _ Hp) as (dp & dv & w & _ & Hdv & _).
  destruct (rebuild_graph_path reg (lower a) max_steps st (rebuild_fuel st (lower b)) Hinv
              (lower b) dv [] Hdv) as (segs & Hr & Hpath).
  { unfold rebuild_fuel. rewrite Hdv. cbn. lia. }
  rewrite Hr. cbn [app]. by left.
Qed.

Lemma graph_path_steps (reg : registry) (src dst : string) (path : list step)
    (s d k : string) :
  graph_path reg src path dst -> (s, d, k) ∈ path ->
  exists w, (d, k, w) ∈ edges_of (build_format_graph reg) s.
Proof.
  revert src. induction path as [|[[s0 d0] k0] path IH]; intros src; cbn.
  - intros _ H. by apply elem_of_nil in H.
  - intros (-> & Hw & Hp) [Heq|Hin]%elem_of_cons.
    + by injection Heq as -> -> ->.
    + by apply (IH d0).
Qed.

(** X7. Every step of a path returned by [find_conversion_path] on a
    loaded registry names a key under which the registry holds one of
    the converters found; and when the path comes from the search (no
    converter is registered under the key of the requested pair), the
    lowercased formats of that converter are the source and the
    destination of the step. *)
Theorem path_steps_are_registered (found : list converter) (a b : string)
    (max_steps : Z) (s d k : string) :
  let reg := load_converters found in
  (s, d, k) ∈ find_conversion_path reg a b max_steps ->
  exists c,
    dict_get reg k = Some c /\ c ∈ found /\ key_of c = k
    /\ (dict_mem reg (make_key (lower a) (lower b)) = false ->
        lower (input_format c) = s /\ lower (output_format c) = d).
Proof.
  intros reg Hin.
  destruct (dict_mem reg (make_key (lower a) (lower b))) eqn:Hmem.
  - assert (Hk : k = make_key (lower a) (lower b)).
    { revert Hin. unfold find_conversion_path, find_conversion_path_fuel.
      destruct (decide (lower a = lower b)); [intros H; by apply elem_of_nil in H|].
      rewrite Hmem. intros H%list_elem_of_singleton. congruence. }
    unfold dict_mem in Hmem. rewrite <- Hk in Hmem.
    destruct (dict_get reg k) as [c|] eqn:Hget; [|done].
    exists c. split; [done|].
    destruct (registry_entries found k c (dict_get_Some_elem_of _ _ _ Hget)).
    done.
  - destruct (searched_path_in_graph reg a b max_steps Hmem) as [Hpath|Hnil];
      [|rewrite Hnil in Hin; by apply elem_of_nil in Hin].
    destruct (graph_path_steps _ _ _ _ _ _ _ Hpath Hin) as (w & Hedge).
    unfold build_format_graph in Hedge. apply fold_add_edge_edges in Hedge.
    destruct Hedge as [H|(c & Hc & Hs & Hd & _)].
    { unfold edges_of, graph in H. rewrite lookup_empty in H. by apply elem_of_nil in H. }
    cbn [fst snd] in *. exists c.
    destruct (registry_entries found k c Hc) as [Hfound Hkey].
    destruct (registry_keys found) as (Hnd & _).
    split; [by apply dict_get_NoDup|]. done.
Qed.

Lemma path_steps_are_registered_witness :
  exists c,
    dict_get (load_converters chain_converters) "step_to_stp" = Some c
    /\ c ∈ chain_converters
    /\ key_of c = "step_to_stp"
    /\ (dict_mem (load_converters chain_converters)
          (make_key (lower "STL") (lower "Obj")) = false ->
        lower (input_format c) = "step" /\ lower (output_format c) = "stp").
Proof.
  apply (path_steps_are_registered chain_converters "STL" "Obj" 3
           "step" "stp" "step_to_stp").
  vm_compute. right. left.
Defined.

(** *** [list_possible_conversions] *)

(** X6. With plain formats, [list_possible_conversions] returns, and
    for every [max_steps] it lists each converter found between two
    different formats as a conversion of one step, printed as
    [src->dst]; every entry it lists joins two different formats by the
    path [find_conversion_path] returns for them, which has at least
    one step. *)
Theorem direct_conversions_are_listed (found : list converter) (max_steps : Z)
    (c : converter) :
  plain_formats found ->
  c ∈ found ->
  lower (input_format c) <> lower (output_format c) ->
  exists listed,
    list_possible_conversions (load_converters found) max_steps = Return listed
    /\ (lower (input_format c), lower (output_format c), 1%nat,
        lower (input_format c) +:+ "->" +:+ lower (output_format c)) ∈ listed
    /\ forall src dst n p, (src, dst, n, p) ∈ listed ->
         src <> dst /\ (1 <= n)%nat
         /\ n = length (find_conversion_path (load_converters found) src dst max_steps).
Proof.
  intros Hplain Hc Hne. unfold list_possible_conversions.
  destruct (supported_formats_plain found Hplain) as (formats & -> & _ & _ & Hin).
  eexists. split; [done|]. split.
  - apply list_elem_of_In, in_flat_map. exists (lower (input_format c)). split.
    { apply list_elem_of_In, Hin. exists c. split; [done|by left]. }
    unfold conversions_from. apply in_flat_map. exists (lower (output_format c)). split.
    { apply list_elem_of_In, Hin. exists c. split; [done|by right]. }
    rewrite decide_False by done.
    assert (Hp : find_conversion_path (load_converters found) (lower (input_format c))
                   (lower (output_format c)) max_steps
                 = [(lower (input_format c), lower (output_format c), key_of c)]).
    { unfold find_conversion_path.
      rewrite PathFacts.find_path_direct; rewrite ?lower_idemp; try done.
      by apply dict_mem_key_of. }
    rewrite Hp. left. reflexivity.
  - intros src dst n p [src' [_ H]]%list_elem_of_In%in_flat_map.
    unfold conversions_from in H. apply in_flat_map in H as [dst' [_ H]].
    destruct (decide (src' = dst')) as [|Hsd]; [done|].
    destruct (find_conversion_path _ src' dst' max_steps) as [|s0 rest] eqn:Hp; [done|].
    destruct H as [H|[]]. injection H as -> -> <- _.
    rewrite Hp. split; [done|]. split; [simpl; lia|done].
Qed.

Lemma direct_conversions_are_listed_witness :
  exists listed,
    list_possible_conversions (load_converters plain_pair) 3 = Return listed
    /\ (lower (input_format (good "STL" "obj")),
        lower (output_format (good "STL" "obj")), 1%nat,
        lower (input_format (good "STL" "obj")) +:+ "->"
          +:+ lower (output_format (good "STL" "obj"))) ∈ listed
    /\ forall src dst n p, (src, dst, n, p) ∈ listed ->
         src <> dst /\ (1 <= n)%nat
         /\ n = length (find_conversion_path (load_converters plain_pair) src dst 3).
Proof.
  apply (direct_conversions_are_listed plain_pair 3 (good "STL" "obj")).
  - exact plain_pair_formats.
  - right. left.
  - vm_compute. discriminate.
Defined.

(** *** The search once more: its budget, its bound, its optimum *)

(** X8. The search of [find_conversion_path] ends within [search_fuel]
    iterations and the reconstruction of the path never meets a format
    without predecessor: with that budget or any larger one the model
    gives the same list, the one [find_conversion_path] stands for. *)
Theorem search_budget_suffices (reg : registry) (a b : string) (max_steps : Z)
    (fuel : nat) :
  (search_fuel reg max_steps <= fuel)%nat ->
  find_conversion_path_fuel fuel reg a b max_steps
  = Some (Rebuilt (find_conversion_path reg a b max_steps)).
Proof.
  intros Hfuel.
  destruct (find_path_fuel_spec reg a b max_steps) as (path & Hf & _).
  assert (Hp : find_conversion_path reg a b max_steps = path).
  { unfold find_conversion_path. by rewrite Hf. }
  rewrite Hp, <- Hf. unfold find_conversion_path_fuel.
  destruct (decide (lower a = lower b)); [done|].
  destruct (dict_mem reg (make_key (lower a) (lower b))); [done|].
  destruct (dijkstra_fuel_enough reg (lower a) (lower b) max_steps) as (st & Hloop & _).
  unfold initial in Hloop.
  rewrite (dijkstra_loop_more_fuel reg (lower b) max_steps _ fuel _ st Hfuel Hloop).
  by rewrite Hloop.
Qed.

Lemma search_budget_suffices_witness :
  find_conversion_path_fuel (S (search_fuel alias_chain 3)) alias_chain "stl" "obj" 3
  = Some (Rebuilt (find_conversion_path alias_chain "stl" "obj" 3)).
Proof.
  apply (search_budget_suffices alias_chain "stl" "obj" 3 (S (search_fuel alias_chain 3))).
  lia.
Defined.

Lemma searched_path_weight_bound_witness :
  let path := find_conversion_path alias_chain "stl" "obj" 3 in
  path_weight path <= 2 * 3 + 1
  /\ Z.of_nat (length path) <= 2 * 3 + 1
  /\ ((forall s : step, s ∈ path -> edge_weight s.1.1 s.1.2 = 2) ->
      Z.of_nat (length path) <= 3).
Proof.
  apply (searched_path_weight_bound alias_chain "stl" "obj" 3).
  - vm_compute. reflexivity.
  - vm_compute. discriminate.
Defined.

Lemma search_is_optimal_witness :
  let path := find_conversion_path alias_chain "stl" "brep" 3 in
  path <> []
  /\ path_weight path
     <= path_weight [("stl", "step", "stl_to_step"); ("step", "stp", "step_to_stp");
                     ("stp", "brep", "stp_to_brep")].
Proof.
  apply (search_is_optimal alias_chain "stl" "brep" 3
           [("stl", "step", "stl_to_step"); ("step", "stp", "step_to_stp");
            ("stp", "brep", "stp_to_brep")]).
  - vm_compute. discriminate.
  - vm_compute. reflexivity.
  - cbn [graph_path]. split; [reflexivity|]. split.
    { exists 2. vm_compute. left. }
    split; [reflexivity|]. split.
    { exists 1. vm_compute. left. }
    split; [reflexivity|]. split.
    { exists 2. vm_compute. left. }
    reflexivity.
  - simpl. lia.
Defined.

End RoutingFacts.

(** ** The data flow of [convert_with_path] *)

Module PipelineFacts.

Import Router Examples Invariants Catalogue Notions Fixtures SearchFacts ExecFacts.

Lemma mkstemp_inner_name (tries n : nat) (suffix : string) (f : fs)
    (name : string) (m : nat) :
  mkstemp_inner tries n suffix f = Some (name, m) ->
  exists n', name = tmp_candidate n' suffix.
Proof.
  revert n. induction tries as [|tries IH]; intros n; cbn; [done|].
  destruct (decide _); [apply IH|]. intros [= <- _]. by exists n.
Qed.

Lemma NamedTemporaryFile_name (suffix : string) (w : world) :
  match (NamedTemporaryFile suffix w).1 with
  | Return name => exists n, name = tmp_candidate n suffix
  | Raise ex => ex = "FileExistsError"
  end.
Proof.
  unfold NamedTemporaryFile.
  destruct (mkstemp_inner _ _ _ _) as [[name n]|] eqn:H; cbn; [|done].
  by apply mkstemp_inner_name in H.
Qed.

Local Ltac no_entry :=
  try (intros ? ? Hk; by rewrite lookup_nil in Hk).

(** The loop over the intermediate steps: the data flow, the names of
    the temporaries, and how it is left. *)
Lemma intermediate_steps_feeds (reg : registry) (kw : kwargs) (steps : list step) :
  forall (i : nat) (cur : string) (temps : list string) (w : world),
    let r := intermediate_steps reg kw i steps cur temps w in
    exists new_temps log,
      r.1.2 = temps ++ new_temps
      /\ created r.2 = created w ++ new_temps
      /\ invoked r.2 = invoked w ++ log
      /\ feeds cur new_temps log
      /\ (forall k t, new_temps !! k = Some t ->
            exists s d key n,
              steps !! k = Some (s, d, key) /\ t = tmp_candidate n ("." +:+ d))
      /\ (forall cur', r.1.1 = inr cur' ->
            length log = length steps /\ length new_temps = length steps
            /\ cur' = default cur (last new_temps))
      /\ (forall ex, r.1.1 = inl (Raise ex) -> raised_by reg steps log ex)
      /\ (forall p, r.1.1 <> inl (Return (true, p))).
Proof.
  induction steps as [|[[src dst] key] rest IH]; intros i cur temps w r; subst r.
  - exists [], []. cbn. rewrite !app_nil_r.
    split; [done|]. split; [done|]. split; [done|]. split; [no_entry|].
    split; [no_entry|]. split; [|done]. by intros cur' [= <-].
  - cbn [intermediate_steps].
    pose proof (NamedTemporaryFile_logs ("." +:+ dst) w) as Ht.
    pose proof (NamedTemporaryFile_name ("." +:+ dst) w) as Hn.
    destruct (NamedTemporaryFile ("." +:+ dst) w) as [[temp_path|ex] w1].
    2:{ cbn in Ht, Hn. destruct Ht as [Hi Hc]. exists [], []. cbn.
        rewrite !app_nil_r.
        split; [done|]. split; [done|]. split; [done|]. split; [no_entry|].
        split; [no_entry|]. split; [done|]. split; [|done]. intros ex' [= <-]. by left. }
    cbn in Ht, Hn. destruct Ht as (Hi1 & Hc1 & _). destruct Hn as [n Hn].
    assert (Hnames : forall k t, [temp_path] !! k = Some t ->
              exists s d ky n0,
                ((src, dst, key) :: rest) !! k = Some (s, d, ky)
                /\ t = tmp_candidate n0 ("." +:+ dst) /\ d = dst).
    { intros [|k] t Hk; cbn in Hk; [|done]. injection Hk as <-.
      by exists src, dst, key, n. }
    assert (Hnames' : forall k t, [temp_path] !! k = Some t ->
              exists s d ky n0,
                ((src, dst, key) :: rest) !! k = Some (s, d, ky)
                /\ t = tmp_candidate n0 ("." +:+ d)).
    { intros k t Hk. destruct (Hnames k t Hk) as (s & d & ky & n0 & ? & ? & ->).
      by exists s, dst, ky, n0. }
    pose proof (call_converter_logs reg key cur temp_path kw w1) as Hcall.
    destruct (call_converter reg key cur temp_path kw w1) as [rc w2].
    cbn [fst snd] in Hcall. destruct Hcall as [Hc2 Hcall].
    destruct Hcall as [(Hnone & Hi2 & ex & ->) | (Hsome & res & -> & Hi2)].
    { exists [temp_path], []. cbn [fst snd]. rewrite !app_nil_r.
      split; [done|]. split; [congruence|]. split; [congruence|].
      split; [no_entry|]. split; [done|]. split; [done|]. split; [|done].
      intros ex' _. right. left. exists (src, dst, key). split; [left|done]. }
    assert (Hone : forall res' : outcome returned,
              feeds cur [temp_path]
                [{| c_key := key; c_input := cur; c_output := temp_path;
                    c_result := res' |}]).
    { intros res' [|k] e Hk; cbn in Hk; [|done]. by injection Hk as <-. }
    destruct res as [[[] result|value]|ex]; cbn [unpack].
    4:{ eexists [temp_path], [_]. cbn [fst snd].
        split; [done|]. split; [congruence|]. split; [by rewrite Hi2, Hi1|].
        split; [apply (Hone (Raise ex))|]. split; [done|]. split; [done|].
        split; [|done].
        intros ex' [= <-]. right. right. left. eexists. split; [reflexivity|done]. }
    3:{ eexists [temp_path], [_]. cbn [fst snd].
        split; [done|]. split; [congruence|]. split; [by rewrite Hi2, Hi1|].
        split; [apply (Hone (Return (Bare value)))|]. split; [done|]. split; [done|].
        split; [|done].
        intros ex' [= <-]. right. right. right. eexists _, value.
        split; [reflexivity|done]. }
    2:{ eexists [temp_path], [_]. cbn [fst snd].
        split; [done|]. split; [congruence|]. split; [by rewrite Hi2, Hi1|].
        split; [apply (Hone (Return (Pair false result)))|]. split; [done|]. done. }
    specialize (IH (S i) temp_path (temps ++ [temp_path]) w2).
    cbn zeta in IH.
    destruct IH as (nt & log & Ht & Hc & Hi & Hfeeds & Hnt & Hdone & Hraise & Hno).
    eexists (temp_path :: nt), (_ :: log).
    split; [by rewrite Ht, <- app_assoc|].
    split; [by rewrite Hc, Hc2, Hc1, <- app_assoc|].
    split; [by rewrite Hi, Hi2, Hi1, <- app_assoc|].
    split; [|split; [|split; [|split; [|done]]]].
    + intros [|k] e Hk; cbn in Hk.
      * by injection Hk as <-.
      * destruct (Hfeeds k e Hk) as [Hin Hout]. split; [|done].
        destruct k as [|k]; cbn; [by rewrite Hin|done].
    + intros [|k] t Hk; cbn in Hk.
      * injection Hk as <-. by exists src, dst, key, n.
      * by apply Hnt.
    + intros cur' Hcur. destruct (Hdone cur' Hcur) as (Hl1 & Hl2 & Hlast).
      split; [cbn; by rewrite Hl1|]. split; [cbn; by rewrite Hl2|].
      rewrite Hlast. destruct nt as [|t nt]; [done|].
      change (last (temp_path :: t :: nt)) with (last (t :: nt)).
      destruct (last (t :: nt)) eqn:E; [done|]. by apply last_None in E.
    + intros ex Hex.
      destruct (Hraise ex Hex)
        as [?|[(s & Hs & Hk)|[(e & He & Hok)|(e & value & He & Hok)]]].
      * by left.
      * right. left. exists s. split; [by right|done].
      * right. right. left. exists e. split; [|done].
        destruct log as [|e0 log]; [done|]. done.
      * right. right. right. exists e, value. split; [|done].
        destruct log as [|e0 log]; [done|]. done.
Qed.


(** The same for the whole [try] block of a multi-step run. *)
Lemma multi_step_body_pipeline (reg : registry) (path : list step)
    (input_path output_path : string) (kw : kwargs) (w : world) :
  path <> [] ->
  let r := multi_step_body reg path input_path output_path kw w in
  exists log,
    created r.2 = created w ++ r.1.2
    /\ invoked r.2 = invoked w ++ log
    /\ piped (length path) input_path output_path r.1.2 log
    /\ (forall k t, r.1.2 !! k = Some t ->
          exists s d key n,
            path !! k = Some (s, d, key) /\ t = tmp_candidate n ("." +:+ d)
            /\ (S k < length path)%nat)
    /\ (forall p, r.1.1 = Return (true, p) ->
          length log = length path /\ S (length r.1.2) = length path)
    /\ (forall ex, r.1.1 = Raise ex -> raised_by reg path log ex).
Proof.
  intros Hne r. subst r.
  destruct (exists_last Hne) as (init & [[src dst] key] & Hpath).
  assert (Hrl : removelast path = init) by (rewrite Hpath; apply removelast_last).
  assert (Hla : last path = Some (src, dst, key)) by (rewrite Hpath; apply last_snoc).
  unfold multi_step_body. rewrite Hrl, Hla.
  pose proof (intermediate_steps_feeds reg kw init 0 input_path [] w) as H.
  cbn zeta in H.
  destruct H as (nt & log & Ht & Hc & Hi & Hfeeds & Hnt & Hdone & Hraise & Hno).
  destruct (intermediate_steps reg kw 0 init input_path [] w) as [[res temps] w1].
  cbn [fst snd] in *. subst temps. cbn [app] in *.
  assert (Hplen : length path = S (length init))
    by (rewrite Hpath, length_app; simpl; lia).
  assert (Hnames : forall k t, nt !! k = Some t ->
            exists s d ky n,
              path !! k = Some (s, d, ky) /\ t = tmp_candidate n ("." +:+ d)
              /\ (S k < length path)%nat).
  { intros k t Hk. destruct (Hnt k t Hk) as (s & d & ky & n & Hs & Hn).
    exists s, d, ky, n. split; [rewrite Hpath; by apply lookup_app_l_Some|].
    split; [done|]. apply lookup_lt_Some in Hs. unfold step in *. lia. }
  assert (Hpiped : piped (length path) input_path output_path nt log).
  { intros k e Hk. destruct (Hfeeds k e Hk) as [Hin Hout]. split; [done|].
    destruct (Hnames k _ Hout) as (_ & _ & _ & _ & _ & _ & Hlt).
    destruct (decide _) as [Heq|]; [|done]. exfalso. unfold step in *. lia. }
  assert (Hsub : forall ex, raised_by reg init log ex -> raised_by reg path log ex).
  { intros ex Hr. unfold raised_by in *.
    destruct Hr as [?|[(s & Hs & Hk)|?]]; [by left| |by right; right].
    right. left. exists s. split; [|done]. rewrite Hpath. apply elem_of_app. by left. }
  destruct res as [r|cur].
  - exists log. cbn [fst snd].
    split; [done|]. split; [done|]. split; [done|]. split; [done|]. split.
    + intros p ->. by destruct (Hno p).
    + intros ex ->. by apply Hsub, Hraise.
  - destruct (Hdone cur eq_refl) as (Hl1 & Hl2 & Hcur).
    pose proof (call_converter_logs reg key cur output_path kw w1) as Hcall.
    destruct (call_converter reg key cur output_path kw w1) as [rc w2].
    cbn [fst snd] in Hcall. destruct Hcall as [Hc2 Hcall].
    assert (Hlast : (src, dst, key) ∈ path).
    { rewrite Hpath. apply elem_of_app. right. left. }
    destruct Hcall as [(Hnone & Hi2 & ex & ->) | (Hsome & cres & -> & Hi2)].
    { exists log. cbn [fst snd].
      split; [congruence|]. split; [congruence|]. split; [done|].
      split; [done|]. split; [done|].
      intros ex' _. right. left. by exists (src, dst, key). }
    set (e_last := {| c_key := key; c_input := cur; c_output := output_path;
                      c_result := cres |}) in *.
    assert (Hfull : piped (length path) input_path output_path nt (log ++ [e_last])).
    { intros k e Hk. apply lookup_app_Some in Hk as [Hk|[Hge Hk]]; [by apply Hpiped|].
      destruct (k - length log)%nat eqn:Hd; cbn in Hk; [|done].
      injection Hk as <-. assert (k = length init) as -> by lia.
      split.
      - cbn [c_input e_last]. rewrite Hcur.
        destruct (length init) as [|m] eqn:Hm.
        + destruct nt; [done|]. cbn in Hl2. lia.
        + destruct (last nt) as [t|] eqn:Hlt.
          * cbn. rewrite last_lookup in Hlt. rewrite Hl2 in Hlt. done.
          * apply last_None in Hlt. subst nt. cbn in Hl2. lia.
      - rewrite decide_True; [done|]. unfold step in *. lia. }
    exists (log ++ [e_last]).
    assert (Hll : length (log ++ [e_last]) = length path).
    { rewrite length_app. cbn. unfold step in *. lia. }
    assert (Hnl : S (length nt) = length path) by (unfold step in *; lia).
    destruct cres as [[[] result_path|value]|ex];
      cbn [fst snd unpack] in *;
      (split; [congruence|]);
      (split; [by rewrite Hi2, Hi, <- app_assoc|]);
      (split; [done|]); (split; [done|]); (split; [done|]).
    + done.
    + done.
    + intros ex' [= <-]. right. right. right. exists e_last, value.
      split; [apply last_snoc|done].
    + intros ex' [= <-]. right. right. left. exists e_last.
      split; [apply last_snoc|done].
Qed.

(** What [convert_with_path] does for a given path that is not empty. *)
Lemma run_path_pipeline (reg : registry) (input_path output_path : string)
    (path : list step) (fi fo : option string) (kw : kwargs) (w : world) :
  path <> [] ->
  let r := convert_with_path reg input_path output_path (Some path) fi fo kw w in
  exists temps log,
    created r.2 = created w ++ temps
    /\ invoked r.2 = invoked w ++ log
    /\ piped (length path) input_path output_path temps log
    /\ (forall k t, temps !! k = Some t ->
          exists s d key n,
            path !! k = Some (s, d, key) /\ t = tmp_candidate n ("." +:+ d)
            /\ (S k < length path)%nat)
    /\ (forall p, r.1 = Return (true, p) ->
          length log = length path /\ S (length temps) = length path)
    /\ (forall ex, r.1 = Raise ex -> raised_by reg path log ex).
Proof.
  intros Hne r. subst r.
  destruct (decide (2 <= length path)%nat) as [Hlen|Hlen].
  - rewrite convert_with_path_multi by done. cbn zeta.
    destruct (multi_step_body_pipeline reg path input_path output_path kw w Hne)
      as (log & Hc & Hi & Hrest).
    destruct (multi_step_body reg path input_path output_path kw w) as [[r t] w1].
    cbn [fst snd] in *. exists t, log.
    destruct (cleanup_files t w1) as (_ & Hcr & Hin & _).
    split; [congruence|]. split; [congruence|]. done.
  - destruct path as [|[[s1 d1] k1] [|s2 rest]]; [done| |simpl in Hlen; lia].
    unfold convert_with_path. cbn [default from_option id].
    pose proof (call_converter_logs reg k1 input_path output_path kw w) as Hcall.
    destruct (call_converter reg k1 input_path output_path kw w) as [rc w1].
    cbn [fst snd] in Hcall. destruct Hcall as [Hc Hcall].
    destruct Hcall as [(Hnone & Hi & ex & ->) | (Hsome & res & -> & Hi)].
    + exists [], []. cbn [fst snd]. rewrite !app_nil_r.
      split; [done|]. split; [done|]. split; [no_entry|]. split; [no_entry|].
      split; [done|]. intros ex' _. right. left. exists (s1, d1, k1).
      split; [left|done].
    + assert (Hp : forall res' : outcome returned,
                piped 1 input_path output_path []
                  [{| c_key := k1; c_input := input_path; c_output := output_path;
                      c_result := res' |}]).
      { intros res' [|k] e Hk; cbn in Hk; [|done]. by injection Hk as <-. }
      destruct res as [[[] result_path|value]|ex]; cbn [fst snd unpack] in *;
        eexists [], [_]; rewrite app_nil_r;
        (split; [done|]); (split; [exact Hi|]); (split; [apply Hp|]);
        (split; [no_entry|]).
      * done.
      * done.
      * split; [done|]. intros ex' [= <-]. right. right. right. eexists _, value.
        split; [reflexivity|done].
      * split; [done|]. intros ex' [= <-]. right. right. left. eexists.
        split; [reflexivity|done].
Qed.


(** X11. A run of [convert_with_path] over a given path that is not
    empty is a pipeline.  The first converter called reads the input
    path, every later one reads the temporary file the call before it
    wrote, the call of the last step writes the output path, and every
    other call writes a temporary file of its own, whose suffix is the
    destination format of its step.  A run that reports success has
    called one converter per step and created one temporary file per
    step but the last. *)
Theorem conversion_is_a_pipeline (reg : registry) (input_path output_path : string)
    (path : list step) (fi fo : option string) (kw : kwargs) (w : world) :
  path <> [] ->
  let r := convert_with_path reg input_path output_path (Some path) fi fo kw w in
  exists temps log,
    created r.2 = created w ++ temps
    /\ invoked r.2 = invoked w ++ log
    /\ piped (length path) input_path output_path temps log
    /\ (forall k t, temps !! k = Some t ->
          exists s d key n,
            path !! k = Some (s, d, key) /\ t = tmp_candidate n ("." +:+ d)
            /\ (S k < length path)%nat)
    /\ (forall p, r.1 = Return (true, p) ->
          length log = length path /\ S (length temps) = length path).
Proof.
  intros Hne r.
  destruct (run_path_pipeline reg input_path output_path path fi fo kw w Hne)
    as (temps & log & Hc & Hi & Hp & Hn & Hs & _).
  by exists temps, log.
Qed.

Lemma conversion_is_a_pipeline_witness :
  let r := convert_with_path step_brep_stl "/in/model.step" "/out/model.stl"
             (Some two_steps) None None [] disk0 in
  exists temps log,
    created r.2 = created disk0 ++ temps
    /\ invoked r.2 = invoked disk0 ++ log
    /\ piped (length two_steps) "/in/model.step" "/out/model.stl" temps log
    /\ (forall k t, temps !! k = Some t ->
          exists s d key n,
            two_steps !! k = Some (s, d, key) /\ t = tmp_candidate n ("." +:+ d)
            /\ (S k < length two_steps)%nat)
    /\ (forall p, r.1 = Return (true, p) ->
          length log = length two_steps /\ S (length temps) = length two_steps).
Proof.
  apply (conversion_is_a_pipeline step_brep_stl "/in/model.step" "/out/model.stl"
           two_steps None None [] disk0).
  discriminate.
Defined.




(** A converter that raises passes its exception on, and so does one
    in the middle of a path; the temporary files are removed all the
    same. *)
Example converter_exception_passes :
  let r := convert (load_converters [good "step" "brep"; raising "brep" "stl"])
             "/in/model.step" "/out/model.stl" None None [] disk0 in
  r.1 = Raise "boom" /\ created r.2 = ["/tmp/tmp0.brep"]
  /\ elements (files r.2) = ["/in/model.step"].
Proof. vm_compute. done. Qed.

End PipelineFacts.

(** ** Created tasks and their ids *)

Module CreationFacts.

Import Router TaskStore TaskAdmin Examples Invariants Catalogue Notions Fixtures
  TaskStoreFacts.

(** *** [create_task] *)

(** The record [create_task] leaves behind: the fields it returns
    (beside those of an older record under the same key, if one was
    alive) and an expiry 300 seconds ahead. *)
Lemma create_task_record (db : redis) (now : Z) (random_id url fmt : string) :
  let r := create_task db now random_id url fmt in
  r.1.2 = new_task_info r.1.1 url fmt now
  /\ r.1.1 = (generate_task_id db now random_id).1
  /\ exists F,
       keyspace r.2 !! task_key r.1.1
       = Some {| fields := F; expire_at := Some (now + TASK_TTL) |}
       /\ r.1.2 ⊆ F.
Proof.
  unfold create_task.
  destruct (generate_task_id db now random_id) as [task_id db1] eqn:Hg.
  cbn [fst snd]. split; [done|]. split; [done|].
  set (info := new_task_info task_id url fmt now).
  unfold expire. rewrite live_hset.
  destruct (live db1 now (task_key task_id)) as [h|]; cbn [fields expire_at].
  - exists (info ∪ fields h). unfold set_key. cbn [keyspace].
    rewrite lookup_insert_eq. split; [done|]. apply map_union_subseteq_l.
  - exists info. unfold set_key. cbn [keyspace].
    rewrite lookup_insert_eq. done.
Qed.

Lemma new_task_info_status (task_id url fmt : string) (now : Z) :
  new_task_info task_id url fmt now !! "status" = Some TASK_QUEUED.
Proof. done. Qed.

Lemma new_task_info_input (task_id url fmt : string) (now : Z) :
  new_task_info task_id url fmt now !! "input_file" = Some url.
Proof. done. Qed.

Lemma new_task_info_output (task_id url fmt : string) (now : Z) :
  new_task_info task_id url fmt now !! "output_format" = Some fmt.
Proof. done. Qed.

(** The record of a created task as the store shows it at a later
    instant: there until the clock is past the instant of expiry. *)
Lemma created_task_live (db : redis) (now t : Z) (random_id url fmt : string) :
  let r := create_task db now random_id url fmt in
  exists F,
    r.1.2 ⊆ F
    /\ F !! "status" = Some TASK_QUEUED
    /\ F !! "input_file" = Some url /\ F !! "output_format" = Some fmt
    /\ live r.2 t (task_key r.1.1)
       = if t <=? now + TASK_TTL
         then Some {| fields := F; expire_at := Some (now + TASK_TTL) |} else None.
Proof.
  intros r.
  destruct (create_task_record db now random_id url fmt) as (Hinfo & _ & F & HF & Hsub).
  fold r in Hinfo, HF, Hsub. exists F. split; [done|].
  rewrite Hinfo in Hsub.
  split; [apply (lookup_weaken _ _ _ _ (new_task_info_status _ _ _ _) Hsub)|].
  split; [apply (lookup_weaken _ _ _ _ (new_task_info_input _ _ _ _) Hsub)|].
  split; [apply (lookup_weaken _ _ _ _ (new_task_info_output _ _ _ _) Hsub)|].
  unfold live. rewrite HF. unfold expired. cbn [expire_at].
  destruct (t <=? now + TASK_TTL) eqn:Ht.
  - apply Z.leb_le in Ht. by rewrite (proj2 (Z.ltb_ge _ _)) by lia.
  - apply Z.leb_gt in Ht. by rewrite (proj2 (Z.ltb_lt _ _)) by lia.
Qed.

(** X13. A task made by [create_task] lives for [TASK_TTL] seconds.
    From the instant of creation up to and including the instant 300
    seconds later, [get_task_status] returns a record that holds every
    field [create_task] returned, with the status [QUEUED], the input
    URL and the output format; once the clock is past that instant it
    returns [None]. *)
Theorem created_task_lifetime (db : redis) (now : Z) (random_id url fmt : string) :
  let r := create_task db now random_id url fmt in
  let task_id := r.1.1 in
  (forall t, now <= t <= now + TASK_TTL ->
     exists m,
       get_task_status r.2 t task_id = Some m /\ r.1.2 ⊆ m
       /\ m !! "status" = Some TASK_QUEUED
       /\ m !! "input_file" = Some url /\ m !! "output_format" = Some fmt)
  /\ (forall t, now + TASK_TTL < t -> get_task_status r.2 t task_id = None).
Proof.
  intros r task_id. subst task_id. split; intros t Ht.
  - destruct (created_task_live db now t random_id url fmt)
      as (F & Hsub & Hst & Hin & Hout & Hl).
    fold r in Hsub, Hl. rewrite (proj2 (Z.leb_le _ _)) in Hl by lia.
    exists F. unfold get_task_status, exists_, hgetall. by rewrite Hl.
  - destruct (created_task_live db now t random_id url fmt) as (F & _ & _ & _ & _ & Hl).
    fold r in Hl. rewrite (proj2 (Z.leb_gt _ _)) in Hl by lia.
    unfold get_task_status, exists_. by rewrite Hl.
Qed.

(** The life of the task created at instant 1000 ends with the instant
    1300. *)
Example created_task_last_instant :
  (get_task_status db1 1300 task1 ≫= (.!! "status")) = Some TASK_QUEUED
  /\ get_task_status db1 1301 task1 = None.
Proof. split; by vm_compute. Qed.

(** X14. Of any number of claims on a freshly created task, the first
    one wins and all later ones lose, provided the first comes no
    later than [TASK_TTL] seconds after the creation; a first claim
    that comes once the clock is past that instant loses and leaves
    the store as it is. *)
Theorem created_task_claim_window (db : redis) (now : Z) (random_id url fmt : string)
    (t late : Z) (times : list Z) :
  now <= t <= now + TASK_TTL ->
  now + TASK_TTL < late ->
  let r := create_task db now random_id url fmt in
  (claim_attempts r.2 (t :: times) r.1.1).1 = true :: replicate (length times) false
  /\ claim_task_with_lua r.2 late r.1.1 = (false, r.2).
Proof.
  intros Ht Hlate r. split.
  - destruct (created_task_live db now t random_id url fmt)
      as (F & _ & Hst & _ & _ & Hl).
    fold r in Hl. rewrite (proj2 (Z.leb_le _ _)) in Hl by lia.
    apply claim_attempts_first_wins. unfold hget. by rewrite Hl.
  - destruct (created_task_live db now late random_id url fmt)
      as (F & _ & _ & _ & _ & Hl).
    fold r in Hl. rewrite (proj2 (Z.leb_gt _ _)) in Hl by lia.
    apply claim_lost. unfold hget. by rewrite Hl.
Qed.

(** The task created at instant 1000: a first claim at 1300, the last
    instant of the record, wins and two later ones lose; a first claim
    at 1301 loses. *)
Lemma created_task_claim_window_witness :
  (claim_attempts created_task.2 (1300 :: [1300; 1302]) created_task.1.1).1
  = true :: replicate (length [1300; 1302]) false
  /\ claim_task_with_lua created_task.2 1301 created_task.1.1
     = (false, created_task.2).
Proof.
  apply (created_task_claim_window empty_db 1000 "b5e4830d"
           "https://files/model.step" "stl" 1300 1301 [1300; 1302]).
  - unfold TASK_TTL. lia.
  - unfold TASK_TTL. lia.
Defined.

(** *** [generate_task_id] *)

Lemma digits_of_uint (d : Decimal.uint) : digits (NilEmpty.string_of_uint d) = true.
Proof. induction d; cbn; try done; by rewrite IHd. Qed.

Lemma digits_str_of_int (n : Z) : 0 <= n -> digits (str_of_int n) = true.
Proof.
  intros Hn. unfold str_of_int. destruct n as [|p|p]; [done| |lia].
  cbn [Z.to_int NilZero.string_of_int]. unfold NilZero.string_of_uint.
  pose proof (digits_of_uint (Pos.to_uint p)) as H.
  destruct (Pos.to_uint p); done.
Qed.

Lemma str_of_int_inj (n m : Z) : str_of_int n = str_of_int m -> n = m.
Proof.
  intros H. apply (f_equal int_of_str) in H.
  rewrite !int_of_str_of_int in H. congruence.
Qed.

Lemma append_nil_l (s : string) : EmptyString +:+ s = s.
Proof. reflexivity. Qed.

Lemma append_cons (c : Ascii.ascii) (a s : string) :
  String c a +:+ s = String c (a +:+ s).
Proof. reflexivity. Qed.

Lemma list_ascii_of_append (a b : string) :
  String.list_ascii_of_string (a +:+ b)
  = String.list_ascii_of_string a ++ String.list_ascii_of_string b.
Proof.
  induction a as [|c a IH]; [done|].
  rewrite append_cons. cbn. by rewrite IH.
Qed.

(** Two texts that start with digits and a dash agree on the digits
    and on what follows the dash. *)
Lemma digits_dash_split (a b x y : string) :
  digits a = true -> digits b = true ->
  a +:+ "-" +:+ x = b +:+ "-" +:+ y -> a = b /\ x = y.
Proof.
  revert b. induction a as [|c a IH]; intros [|c' b] Ha Hb;
    repeat (rewrite append_cons || rewrite append_nil_l).
  - intros [= ->]. done.
  - intros [= <- _]. cbn in Hb. done.
  - intros [= -> _]. cbn in Ha. done.
  - cbn [digits] in Ha, Hb.
    apply andb_true_iff in Ha as [_ Ha]. apply andb_true_iff in Hb as [_ Hb].
    intros [= -> H]. destruct (IH b Ha Hb H) as [-> ->]. done.
Qed.

(** X15. [generate_task_id] gives different ids for different values
    of the task counter, whatever the two instants and the two random
    parts are (instants and counters not negative): the counter can be
    read back from the id. *)
Theorem task_ids_are_distinct (db1 db2 : redis) (now1 now2 : Z)
    (random1 random2 : string) :
  0 <= now1 -> 0 <= now2 ->
  0 <= task_counter db1 -> 0 <= task_counter db2 ->
  task_counter db1 <> task_counter db2 ->
  (generate_task_id db1 now1 random1).1 <> (generate_task_id db2 now2 random2).1.
Proof.
  intros H1 H2 Hc1 Hc2 Hne. unfold generate_task_id. cbn [fst].
  intros Heq.
  apply digits_dash_split in Heq as [_ Heq]; [|by apply digits_str_of_int..].
  apply digits_dash_split in Heq as [Heq _]; [|apply digits_str_of_int; lia..].
  apply str_of_int_inj in Heq. lia.
Qed.

Lemma task_ids_are_distinct_witness :
  (generate_task_id empty_db 1000 "b5e4830d").1
  <> (generate_task_id db1 1000 "b5e4830d").1.
Proof.
  apply (task_ids_are_distinct empty_db db1 1000 1000 "b5e4830d" "b5e4830d").
  - lia.
  - lia.
  - vm_compute. discriminate.
  - vm_compute. discriminate.
  - vm_compute. discriminate.
Defined.

(** *** The instants of a record: [repr] and [float] *)

Lemma break_at_digits (p : Ascii.ascii -> bool) (a : string) (c : Ascii.ascii)
    (b : string) :
  (forall x, digits (String x EmptyString) = true -> p x = false) ->
  digits a = true -> p c = true ->
  break_at p (a +:+ String c b) = (a, Some b).
Proof.
  intros Hp Ha Hc. induction a as [|x a IH].
  - rewrite append_nil_l. cbn. by rewrite Hc.
  - rewrite append_cons. cbn [digits] in Ha.
    apply andb_true_iff in Ha as [Hx Ha]. cbn [break_at].
    rewrite Hp by (cbn [digits]; by rewrite Hx). by rewrite (IH Ha).
Qed.

Lemma break_at_none (p : Ascii.ascii -> bool) (s : string) :
  (forall x, x ∈ String.list_ascii_of_string s -> p x = false) ->
  break_at p s = (s, None).
Proof.
  induction s as [|x s IH]; intros Hp; [done|]. cbn.
  rewrite (Hp x) by (cbn; left). rewrite IH; [done|].
  intros y Hy. apply Hp. cbn. by right.
Qed.

Lemma digits_elem (s : string) (x : Ascii.ascii) :
  digits s = true -> x ∈ String.list_ascii_of_string s ->
  digits (String x EmptyString) = true.
Proof.
  induction s as [|c s IH]; cbn [digits String.list_ascii_of_string];
    intros Hd Hx; [by apply elem_of_nil in Hx|].
  apply andb_true_iff in Hd as [Hc Hd].
  apply elem_of_cons in Hx as [->|Hx]; [by rewrite Hc|by apply IH].
Qed.

(** The digits of a number that is not negative. *)
Lemma str_of_int_digits (n : Z) :
  0 <= n ->
  exists d, str_of_int n = NilEmpty.string_of_uint d
    /\ d <> Decimal.Nil /\ Z.of_uint d = n.
Proof.
  intros Hn. unfold str_of_int. destruct n as [|p|p]; [| |lia].
  - exists (Decimal.D0 Decimal.Nil). done.
  - exists (Pos.to_uint p). cbn [Z.to_int NilZero.string_of_int].
    assert (Hnil : Pos.to_uint p <> Decimal.Nil) by apply Unsigned.to_uint_nonnil.
    split; [|split; [done|]].
    + unfold NilZero.string_of_uint. by destruct (Pos.to_uint p).
    + unfold Z.of_uint. by rewrite DecimalPos.Unsigned.of_to.
Qed.

Lemma digits_value_digits (d : Decimal.uint) :
  digits_value (NilEmpty.string_of_uint d) = Some (Z.of_uint d).
Proof. unfold digits_value. by rewrite NilEmpty.usu. Qed.

Lemma mantissa_whole (d : Decimal.uint) :
  d <> Decimal.Nil ->
  mantissa (NilEmpty.string_of_uint d +:+ ".0") = Some (Z.of_uint d * 10, 1).
Proof.
  intros Hd. unfold mantissa.
  rewrite (break_at_digits _ _ "."%char "0").
  - cbn [default from_option id].
    rewrite (bool_decide_eq_false_2 (NilEmpty.string_of_uint d = EmptyString))
      by by destruct d.
    cbn [andb]. rewrite digits_value_digits. cbn. do 2 f_equal. lia.
  - intros x Hx. apply bool_decide_eq_false. intros ->. done.
  - apply digits_of_uint.
  - done.
Qed.

Lemma Q2Qc_whole (n : Z) :
  Q2Qc (inject_Z (n * 10) * Qpower (10 # 1) (0 - 1)) = Qc_of_Z n.
Proof.
  apply Qc_is_canon. cbn [this Q2Qc Qc_of_Z]. rewrite Qred_correct.
  change (Qpower (10 # 1) (0 - 1)) with (1 # 10)%Q.
  unfold Qeq, inject_Z, Qmult. cbn [Qnum Qden]. lia.
Qed.

Lemma whole_text_has_no_exponent (d : Decimal.uint) (x : Ascii.ascii) :
  x ∈ String.list_ascii_of_string (NilEmpty.string_of_uint d +:+ ".0") ->
  bool_decide (x = "e"%char) || bool_decide (x = "E"%char) = false.
Proof.
  intros Hx. rewrite list_ascii_of_append in Hx.
  apply elem_of_app in Hx as [Hx|Hx].
  - apply (digits_elem _ _ (digits_of_uint d)) in Hx.
    apply orb_false_iff. split; apply bool_decide_eq_false; by intros ->.
  - cbn in Hx. apply elem_of_cons in Hx as [->|Hx]; [done|].
    by apply list_elem_of_singleton in Hx as ->.
Qed.

(** [float] reads back the instant [repr] wrote. *)
Lemma float_of_str_of_float (t : Z) : float_of_str (str_of_float t) = Some (Qc_of_Z t).
Proof.
  assert (Hpos : forall n, 0 <= n -> float_of_str (str_of_float n) = Some (Qc_of_Z n)).
  { intros n Hn. destruct (str_of_int_digits n Hn) as (d & Hs & Hd & Hv).
    unfold float_of_str, str_of_float. rewrite Hs.
    rewrite break_at_none by apply whole_text_has_no_exponent.
    assert (Hsg : signed (NilEmpty.string_of_uint d +:+ ".0")
                  = (false, NilEmpty.string_of_uint d +:+ ".0")) by by destruct d.
    rewrite Hsg, mantissa_whole by done.
    cbn [mbind option_bind]. by rewrite Hv, Q2Qc_whole. }
  destruct t as [|p|p]; [by apply Hpos|by apply Hpos|].
  destruct (str_of_int_digits (Z.pos p)) as (d & Hs & Hd & Hv); [lia|].
  unfold float_of_str, str_of_float.
  change (str_of_int (Z.neg p)) with (String "-" (str_of_int (Z.pos p))).
  rewrite Hs, append_cons.
  rewrite break_at_none.
  - cbn [signed]. rewrite mantissa_whole by done.
    cbn [mbind option_bind]. rewrite Hv.
    replace (- (Z.pos p * 10)) with (Z.neg p * 10) by lia. by rewrite Q2Qc_whole.
  - intros x Hx. cbn [String.list_ascii_of_string] in Hx.
    apply elem_of_cons in Hx as [->|Hx]; [done|].
    by apply whole_text_has_no_exponent in Hx.
Qed.

(** Instants compare as their floats do. *)
Lemma float_lt_instants (t c : Z) :
  bool_decide (Qc_of_Z t < Qc_of_Z c)%Qc = bool_decide (t < c).
Proof. apply bool_decide_ext. symmetry. apply Z2Qc_inj_lt. Qed.

(** [float] on some other texts: a fraction, an exponent, and texts
    that are no number. *)
Example float_of_str_samples :
  float_of_str "1747281355.25" = Some (Q2Qc (174728135525 # 100))
  /\ float_of_str "-1.5e3" = Some (Qc_of_Z (-1500))
  /\ float_of_str "1000" = Some (Qc_of_Z 1000)
  /\ float_of_str "QUEUED" = None
  /\ float_of_str "." = None
  /\ float_of_str "1.2.3" = None
  /\ float_of_str EmptyString = None.
Proof.
  repeat split; try (by vm_compute);
    apply (f_equal Some), Qc_is_canon; by vm_compute.
Qed.

End CreationFacts.

(** ** The task queue *)

Module QueueFacts.

Import Router TaskStore TaskAdmin Examples Invariants Catalogue Notions Fixtures
  TaskStoreFacts.

Lemma set_key_queue (d : redis) (key : string) (h : hash) :
  task_queue (set_key d key h) = task_queue d
  /\ task_counter (set_key d key h) = task_counter d.
Proof. done. Qed.

Lemma hset_queue (d : redis) (now : Z) (key : string) (m : gmap string string) :
  task_queue (hset d now key m) = task_queue d
  /\ task_counter (hset d now key m) = task_counter d.
Proof. unfold hset. by destruct (live d now key). Qed.

(** Writes to task records leave the queue and the counter alone. *)
Lemma update_queue (d : redis) (now : Z) (task_id status : string)
    (extra : gmap string string) :
  task_queue (TaskStore.update_task_status d now task_id status extra).2 = task_queue d
  /\ task_counter (TaskStore.update_task_status d now task_id status extra).2
     = task_counter d.
Proof.
  unfold TaskStore.update_task_status. destruct (negb _); [done|]. apply hset_queue.
Qed.

(** [get_next_task] takes the item at the tail of the queue. *)
Lemma get_next_task_tail (d : redis) (now : Z) (older : list queue_item)
    (item : queue_item) :
  task_queue d = older ++ [item] ->
  (get_next_task d now).1 = Some item
  /\ task_queue (get_next_task d now).2 = older
  /\ task_counter (get_next_task d now).2 = task_counter d.
Proof.
  intros Hq. unfold get_next_task, rpop. rewrite Hq, rev_app_distr. cbn [rev app].
  rewrite rev_involutive.
  match goal with |- context [TaskStore.update_task_status ?a ?b ?c ?s ?x] =>
    pose proof (update_queue a b c s x) as [H1 H2];
    destruct (TaskStore.update_task_status a b c s x) as [ok d2]
  end. cbn [fst snd] in *. done.
Qed.

Lemma get_next_task_empty (d : redis) (now : Z) :
  task_queue d = [] -> get_next_task d now = (None, d).
Proof. intros Hq. unfold get_next_task, rpop. by rewrite Hq. Qed.

Lemma fold_lpush_queue (items : list queue_item) (d : redis) :
  task_queue (fold_left lpush items d) = rev items ++ task_queue d.
Proof.
  revert d. induction items as [|x items IH]; intros d; [done|].
  cbn [fold_left rev]. rewrite IH. cbn. by rewrite <- app_assoc.
Qed.

Lemma next_tasks_order (items : list queue_item) (times : list Z) (d : redis) :
  task_queue d = rev items -> length times = length items ->
  (next_tasks d times).1 = map Some items
  /\ task_queue (next_tasks d times).2 = [].
Proof.
  revert times d. induction items as [|x items IH]; intros [|t times] d Hq Hlen;
    try done.
  cbn [next_tasks]. cbn [rev] in Hq.
  destruct (get_next_task_tail d t _ _ Hq) as (H1 & H2 & _).
  destruct (get_next_task d t) as [task d1]. cbn [fst snd] in *. subst task.
  destruct (IH times d1 H2 ltac:(simpl in Hlen; lia)) as [H3 H4].
  destruct (next_tasks d1 times) as [tasks d2]. cbn [fst snd] in *.
  by rewrite H3.
Qed.

(** X16. The task queue is first in, first out: items pushed on an
    empty queue come back from [get_next_task] in the order in which
    they were pushed, one per call, and the call after the last one
    returns [None] and changes nothing. *)
Theorem queue_is_fifo (d : redis) (items : list queue_item) (times : list Z)
    (later : Z) :
  task_queue d = [] ->
  length times = length items ->
  let r := next_tasks (fold_left lpush items d) times in
  r.1 = map Some items
  /\ get_next_task r.2 later = (None, r.2).
Proof.
  intros Hq Hlen r. subst r.
  destruct (next_tasks_order items times (fold_left lpush items d)) as [H1 H2];
    [by rewrite fold_lpush_queue, Hq, app_nil_r|done|].
  split; [done|]. by apply get_next_task_empty.
Qed.

Lemma queue_is_fifo_witness :
  let r := next_tasks (fold_left lpush [item1; item2] db1) [1010; 1011] in
  r.1 = map Some [item1; item2]
  /\ get_next_task r.2 1012 = (None, r.2).
Proof.
  apply (queue_is_fifo db1 [item1; item2] [1010; 1011] 1012).
  - reflexivity.
  - reflexivity.
Defined.

Lemma requeue_task_pushes (d : redis) (now : Z) (task_id : string) :
  (requeue_task d now task_id).1 = Return true ->
  exists item,
    task_queue (requeue_task d now task_id).2 = item :: task_queue d
    /\ q_id item = task_id /\ q_retry item = true
    /\ hget d now (task_key task_id) "input_file" = Some (q_input_file item)
    /\ hget d now (task_key task_id) "output_format" = Some (q_output_format item).
Proof.
  unfold requeue_task, get_task_status, exists_, hgetall, hget.
  destruct (live d now (task_key task_id)) as [h|]; [|done].
  destruct (bool_decide (fields h = ∅)); [done|].
  destruct (fields h !! "input_file") as [input_file|] eqn:Hi; [|done].
  destruct (fields h !! "output_format") as [output_format|] eqn:Ho; [|done].
  destruct (int_of_str _) as [retry_count|]; [|done].
  match goal with |- context [TaskStore.update_task_status ?a ?b ?c ?s ?x] =>
    pose proof (update_queue a b c s x) as [H1 H2];
    destruct (TaskStore.update_task_status a b c s x) as [ok d2]
  end. cbn [fst snd] in *. intros _.
  eexists. cbn [lpush task_queue]. rewrite H1. split; [reflexivity|]. done.
Qed.

(** X17. A task that [requeue_task] accepted comes back from
    [get_next_task] after the items that were queued before it, as an
    item that carries its id, the input file and the output format of
    its record, and the retry mark. *)
Theorem requeued_task_waits_its_turn (d : redis) (now : Z) (task_id : string)
    (times : list Z) :
  (requeue_task d now task_id).1 = Return true ->
  length times = S (length (task_queue d)) ->
  exists item,
    (next_tasks (requeue_task d now task_id).2 times).1
    = map Some (rev (task_queue d)) ++ [Some item]
    /\ q_id item = task_id /\ q_retry item = true
    /\ hget d now (task_key task_id) "input_file" = Some (q_input_file item)
    /\ hget d now (task_key task_id) "output_format" = Some (q_output_format item).
Proof.
  intros Hok Hlen.
  destruct (requeue_task_pushes d now task_id Hok) as (item & Hq & Hrest).
  exists item. split; [|done].
  destruct (next_tasks_order (rev (task_queue d) ++ [item]) times
              (requeue_task d now task_id).2) as [H _].
  - rewrite rev_app_distr, rev_involutive. done.
  - rewrite length_app, length_rev. simpl. lia.
  - rewrite H, map_app. done.
Qed.

(** The task is requeued behind an item that was queued before. *)
Lemma requeued_task_waits_its_turn_witness :
  exists item,
    (next_tasks (requeue_task (lpush db1 item1) 1010 task1).2 [1011; 1012]).1
    = map Some (rev (task_queue (lpush db1 item1))) ++ [Some item]
    /\ q_id item = task1 /\ q_retry item = true
    /\ hget (lpush db1 item1) 1010 (task_key task1) "input_file"
       = Some (q_input_file item)
    /\ hget (lpush db1 item1) 1010 (task_key task1) "output_format"
       = Some (q_output_format item).
Proof.
  apply (requeued_task_waits_its_turn (lpush db1 item1) 1010 task1 [1011; 1012]).
  - vm_compute. reflexivity.
  - reflexivity.
Defined.

(** X18. [get_next_task] hands out the oldest item of the queue
    whatever the state of its task record.  When the record does not
    exist (never created, or expired) the item is returned all the
    same and no key is written; when it exists its status becomes
    [PROCESSING], whatever it was, and its instant of expiry stays. *)
Theorem next_task_ignores_record_state (d : redis) (now : Z)
    (older : list queue_item) (item : queue_item) :
  task_queue d = older ++ [item] ->
  let key := task_key (q_id item) in
  let r := get_next_task d now in
  r.1 = Some item
  /\ task_queue r.2 = older
  /\ (exists_ d now key = false -> keyspace r.2 = keyspace d)
  /\ (forall h, live d now key = Some h ->
        hget r.2 now key "status" = Some TASK_PROCESSING
        /\ expire_at <$> live r.2 now key = Some (expire_at h)).
Proof.
  intros Hq key r. subst key r.
  destruct (get_next_task_tail d now older item Hq) as (H1 & H2 & _).
  split; [done|]. split; [done|].
  unfold get_next_task, rpop. rewrite Hq, rev_app_distr. cbn [rev app].
  rewrite rev_involutive. split.
  - intros Hex. by rewrite update_missing.
  - intros h Hl.
    rewrite (update_present _ _ _ _ _ h) by done. cbn [snd].
    unfold hget. rewrite live_set_key. apply live_not_expired in Hl.
    unfold expired in *. cbn [expire_at fields]. rewrite Hl. split; [|done].
    cbn [fields]. rewrite map_empty_union.
    by rewrite lookup_union_l'; [|done].
Qed.

Lemma next_task_ignores_record_state_witness :
  let key := task_key (q_id item1) in
  let r := get_next_task (lpush db1 item1) 1010 in
  r.1 = Some item1
  /\ task_queue r.2 = []
  /\ (exists_ (lpush db1 item1) 1010 key = false ->
      keyspace r.2 = keyspace (lpush db1 item1))
  /\ (forall h, live (lpush db1 item1) 1010 key = Some h ->
        hget r.2 1010 key "status" = Some TASK_PROCESSING
        /\ expire_at <$> live r.2 1010 key = Some (expire_at h)).
Proof.
  apply (next_task_ignores_record_state (lpush db1 item1) 1010 [] item1).
  reflexivity.
Defined.

End QueueFacts.

(** ** Housekeeping and the listing of queued tasks *)

Module HousekeepingFacts.

Import Router TaskStore TaskAdmin Delivery Examples Invariants Catalogue Notions
  Fixtures TaskStoreFacts CreationFacts QueueFacts.

Lemma keys_spec (db : redis) (now : Z) (pre : string) :
  NoDup (keys db now pre)
  /\ forall k, k ∈ keys db now pre
       <-> startswith k pre = true /\ exists_ db now k = true.
Proof.
  unfold keys. split.
  - apply NoDup_filter. apply NoDup_fst_map_to_list.
  - intros k. rewrite list_elem_of_filter.
    split; [by intros [? _]|]. intros [Hs He].
    split; [done|]. apply exists_live in He as [h Hl].
    apply list_elem_of_fmap. unfold live in Hl.
    destruct (keyspace db !! k) as [h'|] eqn:Hk; [|done].
    exists (k, h'). split; [done|]. by apply elem_of_map_to_list.
Qed.

Lemma live_delete (db : redis) (now : Z) (key k : string) :
  live (delete db key) now k = if decide (k = key) then None else live db now k.
Proof.
  unfold live, delete. cbn [keyspace].
  destruct (decide (k = key)) as [->|Hne].
  - by rewrite lookup_delete_eq.
  - by rewrite lookup_delete_ne.
Qed.

(** The loop of [cleanup_old_tasks] over any list of different keys
    whose creation times can be read. *)
Lemma cleanup_loop_spec (l : list string) (cutoff : Qc) (db : redis) (now : Z) :
  NoDup l ->
  (forall k, k ∈ l -> creation_readable db now k) ->
  exists db',
    cleanup_loop l cutoff db now = (Return tt, db')
    /\ task_queue db' = task_queue db
    /\ task_counter db' = task_counter db
    /\ forall k, live db' now k =
         if bool_decide (k ∈ l) && created_before db now cutoff k
         then None else live db now k.
Proof.
  revert db. induction l as [|key l IH]; intros db Hnd Hparse.
  - exists db. split; [done|]. split; [done|]. split; [done|]. intros k.
    rewrite bool_decide_eq_false_2; [done|]. intros H. by apply elem_of_nil in H.
  - apply NoDup_cons in Hnd as [Hkey Hnd]. cbn [cleanup_loop].
    destruct (Hparse key) as [c Hc]; [left|]. rewrite Hc.
    assert (Hother : forall d', (forall k, k <> key -> live d' now k = live db now k) ->
              forall k, k ∈ l ->
                hget d' now k "created_at" = hget db now k "created_at").
    { intros d' Hd' k Hk. unfold hget. rewrite Hd'; [done|]. by intros ->. }
    destruct (bool_decide (c < cutoff)%Qc) eqn:Hlt.
    + destruct (IH (delete db key) Hnd) as (db' & Heq & Hq & Hct & Hlive).
      { intros k Hk. unfold creation_readable.
        rewrite (Hother (delete db key)); [apply Hparse; by right| |done].
        intros k' Hne. rewrite live_delete. by rewrite decide_False. }
      exists db'. split; [done|]. split; [done|]. split; [done|].
      intros k. rewrite Hlive, live_delete.
      destruct (decide (k = key)) as [->|Hne].
      * rewrite (bool_decide_eq_true_2 (key ∈ key :: l)) by left.
        unfold created_before at 2. rewrite Hc, Hlt. cbn [andb].
        by destruct (_ && _).
      * assert (Hcb : created_before (delete db key) now cutoff k
                      = created_before db now cutoff k).
        { unfold created_before, hget. rewrite live_delete. by rewrite decide_False. }
        rewrite Hcb.
        assert (Hin : bool_decide (k ∈ key :: l) = bool_decide (k ∈ l)).
        { apply bool_decide_ext. rewrite elem_of_cons. split; [|by right].
          by intros [?|?]. }
        by rewrite Hin.
    + destruct (IH db Hnd) as (db' & Heq & Hq & Hct & Hlive).
      { intros k Hk. apply Hparse. by right. }
      exists db'. split; [done|]. split; [done|]. split; [done|].
      intros k. rewrite Hlive.
      destruct (decide (k = key)) as [->|Hne].
      * unfold created_before. rewrite Hc, Hlt. by rewrite !andb_false_r.
      * assert (Hin : bool_decide (k ∈ key :: l) = bool_decide (k ∈ l)).
        { apply bool_decide_ext. rewrite elem_of_cons. split; [|by right].
          by intros [?|?]. }
        by rewrite Hin.
Qed.

(** A record whose creation time was written by [create_task] at the
    instant [t] counts as created before the instant [c] exactly when
    [t] is before [c]. *)
Lemma created_before_instant (db : redis) (now t c : Z) (key : string) :
  hget db now key "created_at" = Some (str_of_float t) ->
  created_before db now (Qc_of_Z c) key = bool_decide (t < c).
Proof.
  intros Hg. unfold created_before, float_or_zero. rewrite Hg.
  cbn [truthy default from_option id].
  rewrite bool_decide_eq_false_2.
  - cbn [negb]. by rewrite float_of_str_of_float, float_lt_instants.
  - unfold str_of_float, str_of_int. by destruct (NilZero.string_of_int (Z.to_int t)).
Qed.

(** X19. [cleanup_old_tasks], when the creation time of every live
    task record can be read, returns, and afterwards exactly the task
    records created before the cut-off ([days] days before now) are
    gone: such a record no longer exists, every other key is as it
    was, and the queue and the counter are untouched.  A record
    without a creation time counts as created at instant 0; a record
    whose creation time was written by [create_task] at an instant [t]
    goes exactly when [t] is before the cut-off. *)
Theorem cleanup_removes_old_tasks (db : redis) (now days : Z) :
  let cutoff := now - days * 24 * 60 * 60 in
  Forall (creation_readable db now) (keys db now "task:") ->
  exists db',
    cleanup_old_tasks db now days = (Return tt, db')
    /\ task_queue db' = task_queue db
    /\ task_counter db' = task_counter db
    /\ (forall k, live db' now k =
          if startswith k "task:" && created_before db now (Qc_of_Z cutoff) k
          then None else live db now k)
    /\ (forall k t, hget db now k "created_at" = Some (str_of_float t) ->
          created_before db now (Qc_of_Z cutoff) k = bool_decide (t < cutoff)).
Proof.
  intros cutoff Hparse. unfold cleanup_old_tasks. fold cutoff.
  destruct (keys_spec db now "task:") as [Hnd Hkeys].
  rewrite Forall_forall in Hparse.
  destruct (cleanup_loop_spec (keys db now "task:") (Qc_of_Z cutoff) db now Hnd)
    as (db' & Heq & Hq & Hct & Hlive); [done|].
  exists db'. split; [done|]. split; [done|]. split; [done|].
  split; [|intros k t; apply created_before_instant].
  intros k. rewrite Hlive.
  destruct (startswith k "task:") eqn:Hs; cbn [andb].
  - destruct (exists_ db now k) eqn:He.
    + rewrite bool_decide_eq_true_2; [done|]. by apply Hkeys.
    + rewrite bool_decide_eq_false_2.
      * cbn [andb]. unfold exists_ in He. destruct (live db now k); [done|].
        by destruct (created_before _ _ _ _).
      * intros [_ H]%Hkeys. congruence.
  - rewrite bool_decide_eq_false_2; [done|]. intros [H _]%Hkeys. congruence.
Qed.

(** Two tasks, created at the instants 1000 and 1100, and a cleanup at
    instant 1100 of the tasks older than zero days. *)
Lemma cleanup_removes_old_tasks_witness :
  exists db',
    cleanup_old_tasks two_tasks 1100 0 = (Return tt, db')
    /\ task_queue db' = task_queue two_tasks
    /\ task_counter db' = task_counter two_tasks
    /\ (forall k, live db' 1100 k =
          if startswith k "task:"
             && created_before two_tasks 1100 (Qc_of_Z (1100 - 0 * 24 * 60 * 60)) k
          then None else live two_tasks 1100 k)
    /\ (forall k t, hget two_tasks 1100 k "created_at" = Some (str_of_float t) ->
          created_before two_tasks 1100 (Qc_of_Z (1100 - 0 * 24 * 60 * 60)) k
          = bool_decide (t < 1100 - 0 * 24 * 60 * 60)).
Proof.
  apply (cleanup_removes_old_tasks two_tasks 1100 0).
  apply (bool_decide_unpack _). vm_compute. exact I.
Defined.

(** In that run the task created at 1000 goes and the one created at
    1100 stays. *)
Example cleanup_of_two_tasks :
  let db' := (cleanup_old_tasks two_tasks 1100 0).2 in
  exists_ two_tasks 1100 "task:1000-1-b5e4830d" = true
  /\ exists_ two_tasks 1100 "task:1100-2-0c3f9a51" = true
  /\ exists_ db' 1100 "task:1000-1-b5e4830d" = false
  /\ exists_ db' 1100 "task:1100-2-0c3f9a51" = true.
Proof. vm_compute. done. Qed.


(** *** [get_queued_tasks] *)

Lemma hgetall_lookup (db : redis) (now : Z) (key field : string) :
  hgetall db now key !! field = hget db now key field.
Proof. unfold hgetall, hget. by destruct (live db now key). Qed.

(** The loop of [get_queued_tasks] returns when the instants of the
    queued tasks can be read. *)
Lemma queued_loop_returns (l : list string) (db : redis) (now max_count : Z) :
  (forall key, key ∈ l -> stamps_readable db now key) ->
  forall acc, exists res, queued_loop l db now max_count acc = Return res.
Proof.
  induction l as [|key l IH]; intros Hread acc; cbn [queued_loop]; [eauto|].
  assert (Hl : forall k, k ∈ l -> stamps_readable db now k)
    by (intros k Hk; apply Hread; by right).
  destruct (negb (bool_decide (hgetall db now key = ∅))
            && bool_decide (hgetall db now key !! "status" = Some TASK_QUEUED)) eqn:Hq;
    [|by apply IH].
  apply andb_true_iff in Hq as [_ Hst]. apply bool_decide_eq_true in Hst.
  rewrite hgetall_lookup in Hst.
  destruct (Hread key) as [[c ->] [u ->]]; [left|done|].
  destruct (max_count <=? _); [eauto|by apply IH].
Qed.

(** The loop of [get_queued_tasks] over any list of keys: the bound,
    what the new entries show, and what is not left out. *)
Lemma queued_loop_spec (l : list string) (db : redis) (now max_count : Z) :
  forall acc res,
    queued_loop l db now max_count acc = Return res ->
    (Z.of_nat (length acc) < Z.max 1 max_count ->
       Z.of_nat (length res) <= Z.max 1 max_count)
    /\ (exists new, res = acc ++ new
          /\ forall v, v ∈ new -> exists key, key ∈ l /\ shows db now key v)
    /\ (Z.of_nat (length res) < max_count ->
          forall key, key ∈ l -> hget db now key "status" = Some TASK_QUEUED ->
            exists v, v ∈ res /\ v_task_id v = last_segment key)
    /\ (length res = length acc ->
          forall key, key ∈ l -> hget db now key "status" <> Some TASK_QUEUED).
Proof.
  induction l as [|key l IH]; intros acc res; cbn [queued_loop].
  - intros [= <-]. split; [lia|]. split; [|split].
    + exists []. rewrite app_nil_r. split; [done|].
      intros v Hv. by apply elem_of_nil in Hv.
    + intros _ k Hk. by apply elem_of_nil in Hk.
    + intros _ k Hk. by apply elem_of_nil in Hk.
  - rewrite !hgetall_lookup.
    destruct (negb (bool_decide (hgetall db now key = ∅))
              && bool_decide (hget db now key "status" = Some TASK_QUEUED)) eqn:Hq.
    + apply andb_true_iff in Hq as [_ Hst]. apply bool_decide_eq_true in Hst.
      destruct (float_field (hgetall db now key) "created_at") as [c|] eqn:Hc; [|done].
      destruct (float_field (hgetall db now key) "updated_at") as [u|] eqn:Hu; [|done].
      set (v := {| v_task_id := last_segment key |}).
      assert (Hv : shows db now key v).
      { unfold shows. subst v. cbn. rewrite Hst. done. }
      destruct (max_count <=? Z.of_nat (length (acc ++ [v]))) eqn:Hmax.
      * intros [= <-]. apply Z.leb_le in Hmax. rewrite length_app in *. cbn in *.
        split; [lia|]. split; [|split].
        -- exists [v]. split; [done|]. intros v' ->%list_elem_of_singleton.
           exists key. split; [left|done].
        -- lia.
        -- lia.
      * intros Hres. apply Z.leb_gt in Hmax.
        destruct (IH _ _ Hres) as (Hlen & (new & -> & Hnew) & Hall & _).
        split; [intros _; apply Hlen; lia|].
        split; [|split].
        -- exists (v :: new). rewrite <- app_assoc. split; [done|].
           intros v' [->|Hv']%elem_of_cons.
           ++ exists key. split; [left|done].
           ++ destruct (Hnew v' Hv') as (k & Hk & Hs). exists k. split; [by right|done].
        -- intros Hlt k [->|Hk]%elem_of_cons Hks.
           ++ exists v. split; [|done]. apply elem_of_app. left.
              apply elem_of_app. right. left.
           ++ by apply Hall.
        -- rewrite !length_app. cbn [length]. lia.
    + intros Hres.
      destruct (IH _ _ Hres) as (Hlen & (new & -> & Hnew) & Hall & Hnone).
      assert (Hkey : hget db now key "status" <> Some TASK_QUEUED).
      { intros Hks. apply andb_false_iff in Hq as [Hq|Hq].
        - apply negb_false_iff, bool_decide_eq_true in Hq.
          rewrite <- hgetall_lookup, Hq in Hks. done.
        - apply bool_decide_eq_false in Hq. done. }
      split; [done|]. split; [|split].
      * exists new. split; [done|]. intros v Hv.
        destruct (Hnew v Hv) as (k & Hk & Hs). exists k. split; [by right|done].
      * intros Hlt k [->|Hk]%elem_of_cons Hks; [done|by apply Hall].
      * intros Hl k [->|Hk]%elem_of_cons; [done|by apply Hnone].
Qed.

Lemma take_until_app (c : Ascii.ascii) (a b : list Ascii.ascii) :
  c ∉ a -> take_until c (a ++ c :: b) = (a, Some b).
Proof.
  induction a as [|x a IH]; intros Hc; cbn.
  - by rewrite decide_True.
  - apply not_elem_of_cons in Hc as [Hx Hc].
    rewrite decide_False by done. by rewrite IH.
Qed.

(** The id is read back from the key when it holds no colon. *)
Lemma last_segment_task_key (task_id : string) :
  ":"%char ∉ String.list_ascii_of_string task_id ->
  last_segment (task_key task_id) = task_id.
Proof.
  intros Hc. unfold last_segment, task_key.
  rewrite CreationFacts.list_ascii_of_append, rev_app_distr.
  change (rev (String.list_ascii_of_string "task:"))
    with (":"%char :: ["k"; "s"; "a"; "t"]%char).
  rewrite take_until_app.
  - cbn [fst]. rewrite rev_involutive. apply String.string_of_list_ascii_of_string.
  - intros H. apply Hc. apply list_elem_of_In. apply in_rev.
    by apply list_elem_of_In.
Qed.

(** What a listing over the task keys of the store says. *)
Lemma listing_spec (db : redis) (now max_count : Z) (tasks : list task_view) :
  get_queued_tasks db now max_count = Return tasks ->
  Z.of_nat (length tasks) <= Z.max 1 max_count
  /\ (forall v, v ∈ tasks ->
        exists key, startswith key "task:" = true /\ shows db now key v)
  /\ (Z.of_nat (length tasks) < max_count ->
        forall task_id, hget db now (task_key task_id) "status" = Some TASK_QUEUED ->
          ":"%char ∉ String.list_ascii_of_string task_id ->
          exists v, v ∈ tasks /\ v_task_id v = task_id)
  /\ (tasks = [] ->
        forall task_id, hget db now (task_key task_id) "status" <> Some TASK_QUEUED).
Proof.
  unfold get_queued_tasks. intros Hres.
  destruct (keys_spec db now "task:") as [_ Hkeys].
  destruct (queued_loop_spec _ _ _ _ _ _ Hres)
    as (Hlen & (new & -> & Hnew) & Hall & Hnone).
  assert (Hlisted : forall task_id,
            hget db now (task_key task_id) "status" = Some TASK_QUEUED ->
            task_key task_id ∈ keys db now "task:").
  { intros task_id Hst. apply Hkeys. split; [done|]. unfold exists_.
    unfold hget in Hst. by destruct (live db now (task_key task_id)). }
  cbn [app] in *. split; [apply Hlen; simpl; lia|]. split; [|split].
  - intros v Hv. destruct (Hnew v Hv) as (key & Hk & Hs). exists key.
    split; [|done]. by apply Hkeys in Hk as [? _].
  - intros Hlt task_id Hst Hcolon.
    destruct (Hall Hlt (task_key task_id)) as (v & Hv & Hid); [by apply Hlisted|done|].
    exists v. split; [done|]. by rewrite Hid, last_segment_task_key.
  - intros -> task_id Hst. by apply (Hnone eq_refl (task_key task_id)); [apply Hlisted|].
Qed.

(** X20. What [get_queued_tasks] returns.  When the two instants of
    every queued task can be read, it returns a list.  The list has at
    most [max_count] entries, but one entry when [max_count] is below
    one (the bound is tested after an entry was added); every entry
    shows a live record under a key that starts with [task:] whose
    status is [QUEUED], its id being the text after the last colon of
    the key and its instants the floats of the stored texts; when
    fewer than [max_count] entries are returned, every queued task
    whose id holds no colon is among them; and the list is empty only
    if no task is queued. *)
Theorem queued_tasks_listing (db : redis) (now max_count : Z) :
  Forall (stamps_readable db now) (keys db now "task:") ->
  exists tasks,
    get_queued_tasks db now max_count = Return tasks
    /\ Z.of_nat (length tasks) <= Z.max 1 max_count
    /\ (forall v, v ∈ tasks ->
          exists key, startswith key "task:" = true /\ shows db now key v)
    /\ (Z.of_nat (length tasks) < max_count ->
          forall task_id, hget db now (task_key task_id) "status" = Some TASK_QUEUED ->
            ":"%char ∉ String.list_ascii_of_string task_id ->
            exists v, v ∈ tasks /\ v_task_id v = task_id)
    /\ (tasks = [] ->
          forall task_id, hget db now (task_key task_id) "status" <> Some TASK_QUEUED).
Proof.
  intros Hread. rewrite Forall_forall in Hread.
  destruct (queued_loop_returns (keys db now "task:") db now max_count Hread [])
    as [tasks Hres].
  exists tasks. split; [done|]. by apply listing_spec.
Qed.

(** The store with the two tasks after the first was claimed: the
    listing holds the second. *)
Lemma queued_tasks_listing_witness :
  let db := (claim_task_with_lua two_tasks 1100 task1).2 in
  exists tasks,
    get_queued_tasks db 1101 10 = Return tasks
    /\ Z.of_nat (length tasks) <= Z.max 1 10
    /\ (forall v, v ∈ tasks ->
          exists key, startswith key "task:" = true /\ shows db 1101 key v)
    /\ (Z.of_nat (length tasks) < 10 ->
          forall task_id, hget db 1101 (task_key task_id) "status" = Some TASK_QUEUED ->
            ":"%char ∉ String.list_ascii_of_string task_id ->
            exists v, v ∈ tasks /\ v_task_id v = task_id)
    /\ (tasks = [] ->
          forall task_id, hget db 1101 (task_key task_id) "status" <> Some TASK_QUEUED).
Proof.
  apply (queued_tasks_listing (claim_task_with_lua two_tasks 1100 task1).2 1101 10).
  apply (bool_decide_unpack _). vm_compute. exact I.
Defined.

Example listing_of_two_tasks :
  (fun tasks => map (fun v => (v_task_id v, v_status v)) tasks)
    <$> (match get_queued_tasks (claim_task_with_lua two_tasks 1100 task1).2 1101 10
         with Return tasks => Some tasks | Raise _ => None end)
  = Some [("1100-2-0c3f9a51", "QUEUED")].
Proof. vm_compute. done. Qed.

(** X21. The route [get_queued_tasks] answers, when the instants of
    the queued tasks can be read, and never with more than 100 tasks,
    whatever count is asked for; when it answers with fewer than 100
    and fewer than were asked for, no queued task (whose id holds no
    colon) is left out. *)
Theorem queued_tasks_api_capped (d : redis) (now max_count : Z) :
  Forall (stamps_readable d now) (keys d now "task:") ->
  exists tasks,
    get_queued_tasks_api d now max_count = Return tasks
    /\ (length tasks <= 100)%nat
    /\ (Z.of_nat (length tasks) < Z.min 100 max_count ->
          forall task_id, hget d now (task_key task_id) "status" = Some TASK_QUEUED ->
            ":"%char ∉ String.list_ascii_of_string task_id ->
            exists v, v ∈ tasks /\ v_task_id v = task_id).
Proof.
  intros Hread. rewrite Forall_forall in Hread. unfold get_queued_tasks_api.
  set (m := if 100 <? max_count then 100 else max_count).
  assert (Hm : m = Z.min 100 max_count).
  { subst m. destruct (100 <? max_count) eqn:Hc.
    - apply Z.ltb_lt in Hc. lia.
    - apply Z.ltb_ge in Hc. lia. }
  destruct (queued_loop_returns (keys d now "task:") d now m Hread []) as [tasks Hres].
  exists tasks. split; [done|].
  destruct (listing_spec d now m tasks Hres) as (Hlen & _ & Hall & _).
  split; [lia|]. rewrite <- Hm. exact Hall.
Qed.

(** A store with 101 queued tasks, and 500 tasks asked for. *)
Lemma queued_tasks_api_capped_witness :
  exists tasks,
    get_queued_tasks_api crowded 1001 500 = Return tasks
    /\ (length tasks <= 100)%nat
    /\ (Z.of_nat (length tasks) < Z.min 100 500 ->
          forall task_id,
            hget crowded 1001 (task_key task_id) "status" = Some TASK_QUEUED ->
            ":"%char ∉ String.list_ascii_of_string task_id ->
            exists v, v ∈ tasks /\ v_task_id v = task_id).
Proof.
  apply (queued_tasks_api_capped crowded 1001 500).
  apply (bool_decide_unpack _). vm_compute. exact I.
Defined.

(** There the task manager lists all 101 tasks, the route 100. *)
Example crowded_store_is_capped :
  (length <$> (match TaskAdmin.get_queued_tasks crowded 1001 500
               with Return tasks => Some tasks | Raise _ => None end) = Some 101%nat)
  /\ (length <$> (match get_queued_tasks_api crowded 1001 500
                  with Return tasks => Some tasks | Raise _ => None end) = Some 100%nat).
Proof. split; by vm_compute. Qed.

End HousekeepingFacts.

(** ** Status updates, downloads and deliveries *)

Module DeliveryFacts.

Import Router TaskStore Worker TaskAdmin Delivery Examples Invariants Catalogue
  Notions Fixtures TaskStoreFacts QueueFacts ExecFacts.

(** *** The worker's status updates *)

(** One call of the worker's [update_task_status]: the request it
    sends and what the request does to the store. *)
Lemma worker_update_effect (e : env) (now : Z) (task_id status : string)
    (result_url error : option string) (st : state) :
  let r := Worker.update_task_status e now task_id status result_url error st in
  exists rq,
    u_task_id rq = task_id /\ u_status rq = status
    /\ r.1 = api_up e
    /\ disk r.2 = disk st
    /\ db r.2 = served (api_up e) (db st) now rq
    /\ requests r.2 = requests st ++ (if api_up e then [rq] else []).
Proof.
  unfold Worker.update_task_status, served. destruct (api_up e); cbn.
  - eexists. split; [|split]; [| |split; [done|split; [done|split; reflexivity]]]; done.
  - exists (UpdateRequest task_id status None None). by rewrite app_nil_r.
Qed.

Lemma process_task_body_effect (e : env) (now : Z)
    (task_id input_file_url input_path output_path : string) (st : state) :
  let r := process_task_body e now task_id input_file_url input_path output_path st in
  match r.1 with
  | Return _ =>
      exists rq,
        u_task_id rq = task_id /\ u_status rq = "FINISH"
        /\ db r.2 = served (api_up e) (db st) now rq
        /\ requests r.2 = requests st ++ (if api_up e then [rq] else [])
  | Raise _ => db r.2 = db st /\ requests r.2 = requests st
  end.
Proof.
  unfold process_task_body, download_file.
  destruct (fetchable e input_file_url); cbn [negb fst snd]; [|done].
  destruct (ConverterManager e) as [reg|]; [|done].
  destruct (convert reg _ _ _ _ _ _) as [[[success result_path]|ex] w2]; [|done].
  destruct success; cbn [negb]; [|done].
  destruct (bool_decide (result_path ∈ files w2)); cbn [negb]; [|done].
  destruct (upload_file_to_r2 e result_path (files w2)) as [r2_success r2_url].
  destruct r2_success; cbn [negb]; [|done].
  match goal with |- context [Worker.update_task_status ?a ?b ?c ?d ?r ?x ?s] =>
    pose proof (worker_update_effect a b c d r x s) as H;
    destruct (Worker.update_task_status a b c d r x s) as [ok st3]
  end.
  cbn [fst snd] in *. destruct H as (rq & ? & ? & _ & _ & ? & ?). by exists rq.
Qed.

Lemma remove_file_db (paths : list string) (st : state) :
  db (fold_left remove_file paths st) = db st.
Proof. revert st. induction paths as [|f fs IH]; intros st; [done|]. cbn. by rewrite IH. Qed.

(** [process_task] sends one update, [FINISH] or [FAILED], and touches
    the store through that update only. *)
Lemma process_task_effect (e : env) (now : Z)
    (random_prefix task_id input_file_url output_format : string) (st : state) :
  let st' := process_task e now random_prefix task_id input_file_url
               output_format st in
  exists rq,
    u_task_id rq = task_id
    /\ (u_status rq = "FINISH" \/ u_status rq = "FAILED")
    /\ db st' = served (api_up e) (db st) now rq
    /\ requests st' = requests st ++ (if api_up e then [rq] else []).
Proof.
  intros st'. subst st'. unfold process_task.
  match goal with |- context [process_task_body ?a ?b ?c ?d ?i ?o ?s] =>
    pose proof (process_task_body_effect a b c d i o s) as H;
    destruct (process_task_body a b c d i o s) as [[[]|ex] st1]
  end; cbn [fst snd] in H.
  - destruct H as (rq & Hid & Hst & Hdb & Hrq). exists rq.
    rewrite WorkerFacts.remove_file_requests, remove_file_db.
    split; [done|]. split; [by left|done].
  - match goal with |- context [Worker.update_task_status ?a ?b ?c ?d ?r ?x ?s] =>
      pose proof (worker_update_effect a b c d r x s) as Hu;
      destruct (Worker.update_task_status a b c d r x s) as [ok st2]
    end.
    cbn [fst snd] in *. destruct Hu as (rq & Hid & Hst & _ & _ & Hdb & Hrq).
    destruct H as [H1 H2]. exists rq.
    rewrite WorkerFacts.remove_file_requests, remove_file_db, Hdb, Hrq, H1, H2.
    split; [done|]. split; [by right|done].
Qed.

(** X22. The worker cannot see a status update fail.  When the API
    answers, [update_task_status] of the worker returns true also for
    a task whose record does not exist (never created, or expired):
    the route answers with status 200 in either case, and the store is
    left as it was. *)
Theorem update_reports_success_without_record (e : env) (now : Z)
    (task_id status : string) (result_url error : option string) (st : state) :
  api_up e = true ->
  exists_ (db st) now (task_key task_id) = false ->
  let r := Worker.update_task_status e now task_id status result_url error st in
  r.1 = true /\ db r.2 = db st /\ disk r.2 = disk st.
Proof.
  intros Hup Hex. unfold Worker.update_task_status. rewrite Hup. cbn.
  split; [done|]. split; [|done]. unfold update_task_api. cbn [u_task_id u_status].
  by rewrite update_missing.
Qed.

Lemma update_reports_success_without_record_witness :
  let r := Worker.update_task_status happy_env 1010 "missing" "FINISH"
             (Some "https://r2/out.stl") None worker0 in
  r.1 = true /\ db r.2 = db worker0 /\ disk r.2 = disk worker0.
Proof.
  apply (update_reports_success_without_record happy_env 1010 "missing" "FINISH"
           (Some "https://r2/out.stl") None worker0).
  - reflexivity.
  - vm_compute. reflexivity.
Defined.

(** *** What a status update does to the stored status *)

(** The stored status after [update_task_api]. *)
Lemma update_task_api_status (d : redis) (now : Z) (rq : update_request) (key : string) :
  stored_status (update_task_api d now rq) key
  = if decide (key = task_key (u_task_id rq)) then
      if exists_ d now key then Some (u_status rq) else stored_status d key
    else stored_status d key.
Proof.
  unfold update_task_api.
  destruct (exists_ d now (task_key (u_task_id rq))) eqn:Hex.
  - apply exists_live in Hex as [h Hl]. rewrite (update_present _ _ _ _ _ h) by done.
    cbn [snd]. unfold stored_status, set_key. cbn [keyspace].
    destruct (decide (key = task_key (u_task_id rq))) as [->|Hne].
    + rewrite lookup_insert_eq. cbn.
      assert (Hex : exists_ d now (task_key (u_task_id rq)) = true).
      { apply exists_live. eauto. }
      rewrite Hex.
      apply lookup_union_Some_l.
      destruct (truthy (u_error rq)), (truthy (u_result_url rq));
        repeat (rewrite lookup_union_r; [|done]);
        rewrite ?map_empty_union; try done.
    + by rewrite lookup_insert_ne.
  - rewrite update_missing by done. cbn [snd].
    destruct (decide (key = task_key (u_task_id rq))) as [->|]; [|done].
    by rewrite Hex.
Qed.

Lemma served_status (up : bool) (d : redis) (now : Z) (rq : update_request)
    (key : string) :
  stored_status (served up d now rq) key = stored_status d key
  \/ (key = task_key (u_task_id rq)
      /\ stored_status (served up d now rq) key = Some (u_status rq)).
Proof.
  unfold served. destruct up; [|by left]. rewrite update_task_api_status.
  destruct (decide _) as [->|]; [|by left].
  destruct (exists_ d now _); [by right|by left].
Qed.

Lemma served_queue (up : bool) (d : redis) (now : Z) (rq : update_request) :
  task_queue (served up d now rq) = task_queue d.
Proof.
  unfold served, update_task_api. destruct up; [|done]. apply update_queue.
Qed.

Lemma hget_status_stored (d : redis) (now : Z) (key v : string) :
  hget d now key "status" = Some v -> stored_status d key = Some v.
Proof.
  intros H. destruct (hget_stored d now key) as [Hn|Hs]; congruence.
Qed.

(** *** [download_result] *)

(** X23. [process_task] never makes a result downloadable.  If the
    stored status of a task is not [COMPLETED] before [process_task]
    runs on it, then afterwards, at any instant and however the run
    went, [download_result] answers with an error, 404 or 400, and
    never with a redirect: the statuses the worker writes are [FINISH]
    and [FAILED]. *)
Theorem unfinished_download_refused (e : env) (now later : Z)
    (random_prefix task_id input_file_url output_format : string) (st : state) :
  stored_status (db st) (task_key task_id) <> Some TASK_COMPLETED ->
  let st' := process_task e now random_prefix task_id input_file_url
               output_format st in
  exists detail,
    download_result (db st') later task_id = HttpError 404 detail
    \/ download_result (db st') later task_id = HttpError 400 detail.
Proof.
  intros Hst st'.
  destruct (process_task_effect e now random_prefix task_id input_file_url
              output_format st) as (rq & Hid & Hfin & Hdb & _).
  fold st' in Hdb.
  assert (Hnot : stored_status (db st') (task_key task_id) <> Some TASK_COMPLETED).
  { rewrite Hdb.
    destruct (served_status (api_up e) (db st) now rq (task_key task_id))
      as [->|[_ ->]]; [done|].
    destruct Hfin as [-> | ->]; done. }
  unfold download_result, get_task_status, exists_.
  destruct (live (db st') later (task_key task_id)) as [h|] eqn:Hl;
    [|eexists; by left].
  unfold hgetall. rewrite Hl.
  destruct (bool_decide (fields h = ∅)); [eexists; by left|].
  rewrite bool_decide_eq_false_2; [eexists; by right|].
  intros Hc. apply Hnot. apply (hget_status_stored _ later). unfold hget. by rewrite Hl.
Qed.

Lemma unfinished_download_refused_witness :
  let st' := process_task happy_env 1010 "Ab12" task1
               "https://files/model.step?sig=1" "stl" worker0 in
  exists detail,
    download_result (db st') 1011 task1 = HttpError 404 detail
    \/ download_result (db st') 1011 task1 = HttpError 400 detail.
Proof.
  apply (unfinished_download_refused happy_env 1010 1011 "Ab12" task1
           "https://files/model.step?sig=1" "stl" worker0).
  vm_compute. discriminate.
Defined.

(** *** [dramatiq_send_convert] *)

Lemma claim_task_answers (cloud up : bool) (d : redis) (now : Z) (task_id : string) :
  cloud = true \/ up = true ->
  claim_task cloud up d now task_id
  = (Return (claim_task_with_lua d now task_id).1, (claim_task_with_lua d now task_id).2).
Proof.
  intros Hup. unfold claim_task, get_task_api.
  destruct (claim_task_with_lua d now task_id) as [won d'].
  destruct cloud; [done|]. destruct Hup as [?| ->]; [done|]. by destruct won.
Qed.

Lemma with_db_same (st : state) : with_db st (db st) = st.
Proof. by destruct st. Qed.

(** A delivery whose claim is lost, and one whose claim is won. *)
Lemma delivery_lost (e : env) (cloud : bool) (now : Z)
    (random_prefix task_id : string) (task_info : gmap string string) (st : state) :
  cloud = true \/ api_up e = true ->
  hget (db st) now (task_key task_id) "status" <> Some TASK_QUEUED ->
  dramatiq_send_convert e cloud now random_prefix task_id task_info st
  = (Return tt, st).
Proof.
  intros Hup Hst. unfold dramatiq_send_convert.
  rewrite claim_task_answers by done. rewrite claim_lost by done.
  cbn [fst snd]. by rewrite with_db_same.
Qed.

Lemma delivery_won (e : env) (cloud : bool) (now : Z)
    (random_prefix task_id : string) (task_info : gmap string string) (st : state) :
  cloud = true \/ api_up e = true ->
  hget (db st) now (task_key task_id) "status" = Some TASK_QUEUED ->
  let r := dramatiq_send_convert e cloud now random_prefix task_id task_info st in
  exists rq,
    u_task_id rq = task_id
    /\ (u_status rq = "FINISH" \/ u_status rq = "FAILED")
    /\ db r.2
       = served (api_up e)
           (hset (db st) now (task_key task_id) {[ "status" := TASK_PROCESSING ]})
           now rq
    /\ requests r.2 = requests st ++ (if api_up e then [rq] else [])
    /\ (r.1 = Return tt
        <-> is_Some (task_info !! "input_file")
            /\ is_Some (task_info !! "output_format")).
Proof.
  intros Hup Hst r. subst r. unfold dramatiq_send_convert.
  rewrite claim_task_answers by done. rewrite claim_won by done.
  cbn [fst snd].
  set (st1 := with_db st _).
  assert (Hfail : forall key : string,
            let ex := "KeyError: '" +:+ key +:+ "'" in
            exists rq,
              u_task_id rq = task_id
              /\ (u_status rq = "FINISH" \/ u_status rq = "FAILED")
              /\ db (Worker.update_task_status e now task_id "FAILED" None (Some ex) st1).2
                 = served (api_up e) (db st1) now rq
              /\ requests (Worker.update_task_status e now task_id "FAILED" None
                             (Some ex) st1).2
                 = requests st ++ (if api_up e then [rq] else [])).
  { intros key ex.
    destruct (worker_update_effect e now task_id "FAILED" None (Some ex) st1)
      as (rq & Hid & Hs & _ & _ & Hdb & Hrq).
    exists rq. split; [done|]. split; [by right|]. done. }
  destruct (task_info !! "input_file") as [url|].
  2:{ destruct (Hfail "input_file") as (rq & ? & ? & ? & ?). exists rq.
      cbn [fst snd]. split; [done|]. split; [done|]. split; [done|]. split; [done|].
      split; [done|]. by intros [[? ?] _]. }
  destruct (task_info !! "output_format") as [fmt|].
  2:{ destruct (Hfail "output_format") as (rq & ? & ? & ? & ?). exists rq.
      cbn [fst snd]. split; [done|]. split; [done|]. split; [done|]. split; [done|].
      split; [done|]. by intros [_ [? ?]]. }
  destruct (process_task_effect e now random_prefix task_id url fmt st1)
    as (rq & Hid & Hfin & Hdb & Hrq).
  exists rq. cbn [fst snd]. split; [done|]. split; [done|]. split; [done|].
  split; [done|]. split; [eauto|done].
Qed.

Lemma hget_later (d : redis) (now later : Z) (key field v : string) :
  now <= later -> hget d later key field = Some v -> hget d now key field = Some v.
Proof.
  intros Hle. unfold hget, live. destruct (keyspace d !! key) as [h|]; [|done].
  unfold expired. destruct (expire_at h) as [t|]; [|done].
  destruct (t <? later) eqn:H1; [done|]. apply Z.ltb_ge in H1.
  by rewrite (proj2 (Z.ltb_ge _ _)) by lia.
Qed.

(** X24. A task is processed at most once.  After one delivery of a
    task to [dramatiq_send_convert] whose claim was answered, whatever
    its outcome (lost claim, success, failure, or a [KeyError] on the
    message), any later delivery of the same task returns at once and
    changes nothing: no file is touched, no update is sent, the store
    stays as it is.  (Deliveries run to their end; the time limit of
    the actor is not modelled.) *)
Theorem redelivery_is_ignored (e e' : env) (cloud cloud' : bool) (now later : Z)
    (random_prefix random_prefix' task_id : string)
    (task_info task_info' : gmap string string) (st : state) :
  cloud = true \/ api_up e = true ->
  cloud' = true \/ api_up e' = true ->
  now <= later ->
  let st1 :=
    (dramatiq_send_convert e cloud now random_prefix task_id task_info st).2 in
  dramatiq_send_convert e' cloud' later random_prefix' task_id task_info' st1
  = (Return tt, st1).
Proof.
  intros Hup Hup' Hle st1. apply delivery_lost; [done|]. subst st1.
  destruct (decide (hget (db st) now (task_key task_id) "status" = Some TASK_QUEUED))
    as [Hq|Hq].
  - destruct (delivery_won e cloud now random_prefix task_id task_info st Hup Hq)
      as (rq & Hid & Hfin & Hdb & _).
    intros Hst. apply hget_status_stored in Hst. rewrite Hdb in Hst.
    destruct (served_status (api_up e)
                (hset (db st) now (task_key task_id) {[ "status" := TASK_PROCESSING ]})
                now rq (task_key task_id)) as [Hs|[_ Hs]]; rewrite Hs in Hst.
    + by rewrite stored_status_hset in Hst.
    + destruct Hfin as [H|H]; rewrite H in Hst; done.
  - rewrite delivery_lost by done. cbn [snd]. intros Hst. apply Hq.
    by apply (hget_later _ now later).
Qed.

Lemma redelivery_is_ignored_witness :
  let st1 :=
    (dramatiq_send_convert happy_env true 1010 "Ab12" task1 created_task.1.2
       worker0).2 in
  dramatiq_send_convert happy_env false 1020 "Cd34" task1 created_task.1.2 st1
  = (Return tt, st1).
Proof.
  apply (redelivery_is_ignored happy_env happy_env true false 1010 1020 "Ab12" "Cd34"
           task1 created_task.1.2 created_task.1.2 worker0).
  - left. reflexivity.
  - right. reflexivity.
  - lia.
Defined.

End DeliveryFacts.

(** ** From creation to the worker *)

Module LifecycleFacts.

Import Router TaskStore Worker TaskAdmin Delivery Examples Invariants Catalogue
  Notions Fixtures TaskStoreFacts QueueFacts ExecFacts CreationFacts
  HousekeepingFacts DeliveryFacts.

(** X25. The message of a created task must be delivered before the
    record expires.  Delivered no later than [TASK_TTL] seconds after
    the creation, the task is claimed and processed: the delivery
    returns and, when the API answers, sends exactly one update for
    the task, with status [FINISH] or [FAILED].  Delivered once the
    clock is past that instant, the delivery returns without doing
    anything: the record has expired, so the claim is lost and the
    task is dropped without a trace. *)
Theorem created_task_delivery (e : env) (cloud : bool) (d : redis) (now t late : Z)
    (random_id random_prefix url fmt : string) (st : state) :
  cloud = true \/ api_up e = true ->
  now <= t <= now + TASK_TTL ->
  now + TASK_TTL < late ->
  let created := create_task d now random_id url fmt in
  let st0 := with_db st created.2 in
  let r := dramatiq_send_convert e cloud t random_prefix created.1.1 created.1.2 st0 in
  (r.1 = Return tt
   /\ exists rq,
        u_task_id rq = created.1.1
        /\ (u_status rq = "FINISH" \/ u_status rq = "FAILED")
        /\ requests r.2 = requests st ++ (if api_up e then [rq] else []))
  /\ dramatiq_send_convert e cloud late random_prefix created.1.1 created.1.2 st0
     = (Return tt, st0).
Proof.
  intros Hup Ht Hlate created st0 r.
  destruct (create_task_record d now random_id url fmt) as (Hinfo & _ & _).
  fold created in Hinfo. split.
  - destruct (created_task_live d now t random_id url fmt)
      as (F & _ & Hst & _ & _ & Hl).
    fold created in Hl. rewrite (proj2 (Z.leb_le _ _)) in Hl by lia.
    assert (Hq : hget (db st0) t (task_key created.1.1) "status" = Some TASK_QUEUED).
    { subst st0. cbn [db with_db]. unfold hget. by rewrite Hl. }
    destruct (delivery_won e cloud t random_prefix created.1.1 created.1.2 st0 Hup Hq)
      as (rq & Hid & Hfin & _ & Hrq & Hret).
    fold r in Hrq, Hret. split.
    + apply Hret. rewrite Hinfo. split; eexists; reflexivity.
    + exists rq. done.
  - destruct (created_task_live d now late random_id url fmt)
      as (F & _ & _ & _ & _ & Hl).
    fold created in Hl. rewrite (proj2 (Z.leb_gt _ _)) in Hl by lia.
    apply delivery_lost; [done|].
    subst st0. cbn [db with_db]. unfold hget. by rewrite Hl.
Qed.

(** The task created at instant 1000, delivered at 1300, the last
    instant of its record, and delivered at 1301. *)
Lemma created_task_delivery_witness :
  let created := create_task empty_db 1000 "b5e4830d" "https://files/model.step" "stl" in
  let st0 := with_db worker0 created.2 in
  let r := dramatiq_send_convert happy_env true 1300 "Ab12" created.1.1 created.1.2
             st0 in
  (r.1 = Return tt
   /\ exists rq,
        u_task_id rq = created.1.1
        /\ (u_status rq = "FINISH" \/ u_status rq = "FAILED")
        /\ requests r.2
           = requests worker0 ++ (if api_up happy_env then [rq] else []))
  /\ dramatiq_send_convert happy_env true 1301 "Ab12" created.1.1 created.1.2 st0
     = (Return tt, st0).
Proof.
  apply (created_task_delivery happy_env true empty_db 1000 1300 1301 "b5e4830d" "Ab12"
           "https://files/model.step" "stl" worker0).
  - left. reflexivity.
  - unfold TASK_TTL. lia.
  - unfold TASK_TTL. lia.
Defined.

(** *** [process_task] and [worker_loop] *)

Lemma fold_remove_file_files (paths : list string) (st : state) :
  files (disk (fold_left remove_file paths st))
  = files (disk st) ∖ (list_to_set paths ∖ unremovable (disk st)).
Proof.
  change (fold_left remove_file paths st)
    with (fold_left remove_file paths st).
  assert (H : forall st, disk (fold_left remove_file paths st)
                         = cleanup paths (disk st)).
  { clear st. unfold cleanup. induction paths as [|p paths IH]; intros st; [done|].
    cbn [fold_left]. by rewrite IH. }
  rewrite H. by destruct (cleanup_files paths (disk st)) as (-> & _).
Qed.

(** The [try] block of [process_task] changes nothing about what can
    be removed. *)
Lemma process_task_body_unremovable (e : env) (now : Z)
    (task_id input_file_url input_path output_path : string) (st : state) :
  unremovable
    (disk (process_task_body e now task_id input_file_url input_path output_path st).2)
  = unremovable (disk st).
Proof.
  unfold process_task_body, download_file.
  destruct (fetchable e input_file_url); cbn [negb fst snd]; [|done].
  destruct (ConverterManager e) as [reg|]; [|done].
  match goal with |- context [convert ?r ?i ?o ?a ?b ?k ?w] =>
    pose proof (convert_unremovable r i o a b k w) as Hc;
    destruct (convert r i o a b k w) as [[[success result_path]|ex] w2]
  end; cbn [fst snd] in Hc; [|done].
  destruct success; cbn [negb]; [|done].
  destruct (bool_decide (result_path ∈ files w2)); cbn [negb]; [|done].
  destruct (upload_file_to_r2 e result_path (files w2)) as [r2_success r2_url].
  destruct r2_success; cbn [negb]; [|done].
  unfold Worker.update_task_status. by destruct (api_up e).
Qed.

(** X26. When [process_task] returns, neither the downloaded input
    file nor the output file is left in the scratch directory, whether
    the task succeeded or failed and whatever the converters did,
    unless the file could not be removed: then the handler of the
    [finally] clause printed the failure and the file is left. *)
Theorem process_task_removes_local_files (e : env) (now : Z)
    (random_prefix task_id input_file_url output_format : string) (st : state)
    (file_path : string) :
  let st' := process_task e now random_prefix task_id input_file_url
               output_format st in
  file_path = input_file_path e input_file_url
  \/ file_path = output_file_path e random_prefix input_file_url output_format ->
  file_path ∉ unremovable (disk st) -> file_path ∉ files (disk st').
Proof.
  intros st' Hp Hno. subst st'. unfold process_task.
  match goal with |- context [process_task_body ?a ?b ?c ?d ?i ?o ?s] =>
    pose proof (process_task_body_unremovable a b c d i o s) as Hu;
    destruct (process_task_body a b c d i o s) as [r st1]
  end. cbn [snd] in Hu.
  rewrite fold_remove_file_files.
  fold (input_file_path e input_file_url).
  fold (output_file_path e random_prefix input_file_url output_format).
  assert (Hdisk : unremovable
            (disk match r with
                  | Return _ => st1
                  | Raise ex =>
                      (Worker.update_task_status e now task_id "FAILED" None
                         (Some ("FAILED: " +:+ ex)) st1).2
                  end) = unremovable (disk st)).
  { destruct r; [done|]. unfold Worker.update_task_status. by destruct (api_up e). }
  rewrite Hdisk. intros [_ Hn]%elem_of_difference.
  apply Hn. apply elem_of_difference. split; [|done].
  apply elem_of_list_to_set. destruct Hp as [-> | ->]; [left|right; left].
Qed.

Lemma process_task_removes_local_files_witness :
  let st' := process_task happy_env 1010 "Ab12" task1
               "https://files/model.step?sig=1" "stl" worker0 in
  "/app/tmp/model.step" ∉ files (disk st').
Proof.
  apply (process_task_removes_local_files happy_env 1010 "Ab12" task1
           "https://files/model.step?sig=1" "stl" worker0 "/app/tmp/model.step").
  - left. vm_compute. reflexivity.
  - cbn. apply not_elem_of_empty.
Defined.

(** A downloaded file that cannot be removed stays where it is, and
    one that can be removed is gone. *)
Example held_download_stays :
  let held := {| disk := {| files := ∅; tmp_seq := 0; invoked := []; created := [];
                            unremovable := {["/app/tmp/model.step"]};
                            unwritable := ∅ |};
                 db := db1; requests := [] |} in
  elements (files (disk (process_task happy_env 1010 "Ab12" task1
                           "https://files/model.step?sig=1" "stl" held)))
  = ["/app/tmp/model.step"]
  /\ elements (files (disk (process_task happy_env 1010 "Ab12" task1
                              "https://files/model.step?sig=1" "stl" worker0)))
     = [].
Proof. vm_compute. done. Qed.

Lemma worker_next_task (e : env) (now : Z) (st : state) :
  api_up e = true ->
  Worker.get_next_task e now st
  = ((TaskAdmin.get_next_task (db st) now).1,
     with_db st (TaskAdmin.get_next_task (db st) now).2).
Proof.
  intros Hup. unfold Worker.get_next_task, TaskAdmin.get_next_task, rpop.
  rewrite Hup. destruct (rev (task_queue (db st))) as [|task older]; cbn [fst snd].
  - by rewrite with_db_same.
  - by destruct (TaskStore.update_task_status _ _ _ _ _).
Qed.

(** One round of the loop: nothing to do, or the oldest item is taken
    and one update is sent for it. *)
Lemma worker_round_queue (e : env) (st : state) (round : Z * string) :
  api_up e = true ->
  let st' := worker_round e st round in
  (task_queue (db st) = [] /\ task_queue (db st') = [] /\ requests st' = requests st)
  \/ exists older item rq,
       task_queue (db st) = older ++ [item]
       /\ task_queue (db st') = older
       /\ u_task_id rq = q_id item
       /\ requests st' = requests st ++ [rq].
Proof.
  intros Hup st'. subst st'. destruct round as [now random_prefix].
  unfold worker_round. rewrite worker_next_task by done.
  destruct (task_queue (db st)) as [|x q] eqn:Hq using rev_ind.
  - left. rewrite get_next_task_empty by done. cbn [fst snd].
    rewrite with_db_same. by rewrite Hq.
  - clear IHq. right.
    destruct (get_next_task_tail (db st) now q x Hq) as (H1 & H2 & _).
    destruct (TaskAdmin.get_next_task (db st) now) as [task d1].
    cbn [fst snd] in *. subst task.
    destruct (process_task_effect e now random_prefix (q_id x) (q_input_file x)
                (q_output_format x) (with_db st d1)) as (rq & Hid & _ & Hdb & Hrq).
    exists q, x, rq. split; [done|]. rewrite Hdb, served_queue, Hrq, Hup.
    done.
Qed.

(** *** The worker as the module stands *)








(** In that run of three rounds both items were taken, each ending as
    [FAILED]; the third round found the queue empty. *)
Example two_items_three_rounds :
  map (fun rq => (u_task_id rq, u_status rq, u_error rq))
    (requests (worker_loop happy_env [(1010, "aaaa"); (1011, "bbbb"); (1012, "cccc")]
                 busy_worker))
  = [("t1", "FAILED", Some "FAILED: name 'ConverterManager' is not defined");
     ("t2", "FAILED", Some "FAILED: name 'ConverterManager' is not defined")].
Proof. vm_compute. reflexivity. Qed.

(** X27. With the API answering, [worker_loop] serves the queue from
    its old end: after any number of rounds the queue is what it was
    without the items taken, as many as there were rounds (or all of
    them, if the queue was shorter); nothing is added to it, and the
    updates sent since are one per item taken, in the order in which
    the items were queued. *)
Theorem worker_loop_serves_queue_in_order (e : env) (rounds : list (Z * string))
    (st : state) :
  api_up e = true ->
  let st' := worker_loop e rounds st in
  exists taken new_requests,
    task_queue (db st) = task_queue (db st') ++ taken
    /\ length taken = Nat.min (length rounds) (length (task_queue (db st)))
    /\ requests st' = requests st ++ new_requests
    /\ map u_task_id new_requests = map q_id (rev taken).
Proof.
  intros Hup st'. subst st'. unfold worker_loop. revert st.
  induction rounds as [|round rounds IH]; intros st; cbn [fold_left].
  - exists [], []. rewrite !app_nil_r. done.
  - destruct (worker_round_queue e st round Hup)
      as [(Hq & Hq' & Hrq)|(older & item & rq & Hq & Hq' & Hid & Hrq)];
      destruct (IH (worker_round e st round))
        as (taken & new & Ht & Hlen & Hreq & Hids).
    + exists taken, new. rewrite Hq, Hreq, Hrq. rewrite Hq' in Ht, Hlen.
      split; [done|]. split; [|done]. rewrite Hlen. cbn [length].
      by rewrite !Nat.min_0_r.
    + exists (taken ++ [item]), (rq :: new). rewrite Hq' in Ht, Hlen.
      split; [by rewrite Hq, Ht, <- app_assoc|]. split; [|split].
      * rewrite Hq, !length_app, Hlen. cbn [length]. lia.
      * by rewrite Hreq, Hrq, <- app_assoc.
      * rewrite rev_app_distr. cbn. by rewrite Hid, Hids.
Qed.

Lemma worker_loop_serves_queue_in_order_witness :
  let rounds := [(1010, "aaaa"); (1011, "bbbb"); (1012, "cccc")] in
  let st' := worker_loop happy_env rounds busy_worker in
  exists taken new_requests,
    task_queue (db busy_worker) = task_queue (db st') ++ taken
    /\ length taken = Nat.min (length rounds) (length (task_queue (db busy_worker)))
    /\ requests st' = requests busy_worker ++ new_requests
    /\ map u_task_id new_requests = map q_id (rev taken).
Proof.
  apply (worker_loop_serves_queue_in_order happy_env
           [(1010, "aaaa"); (1011, "bbbb"); (1012, "cccc")] busy_worker).
  reflexivity.
Defined.

End LifecycleFacts.
